(** * A shallow embedding of [project.py], the sqlite3 emulator

    The development follows the source top-down in dependency order:
    Python values and the built-in operations the program relies on, the
    tokenizer, the [Row], [Table], [View], [Database] and [LockSystem]
    classes, and finally [Connection] with its statement dispatcher.

    Conventions.
    - A Python [str] is a Rocq [string]; a character stands for the code
      point of the same number, so the model covers code points below 256.
    - A Python exception is a value of type [exn]; a computation that may
      raise has a result of type [outcome], or of type [res] when only
      the interpreter can raise on its behalf.  Mutations made before an
      exception is raised are kept, as in Python.
    - Objects that are shared and mutated in place (the [Database]
      objects reachable from the module-level registry and from the
      connections) live in an explicit store and are named by references. *)

From Stdlib Require Import ZArith Lia Bool List String Ascii.
From Stdlib Require Import SpecFloat.
From stdpp Require Import base option list strings gmap.

Import ListNotations.
Local Open Scope string_scope.
Local Open Scope Z_scope.
Local Open Scope list_scope.

(** ** Exceptions and results *)

(** The errors that the interpreter raises on behalf of an indexing, a
    lookup, a conversion, a comparison or a call.  [NonTermination] stands
    for a loop that never leaves its state (it is not a Python exception:
    the call never returns). *)
Inductive builtin_exn : Type :=
| IndexError
| KeyError
| ValueError
| TypeError
| AttributeError
| RecursionError
| NonTermination.

(** The exceptions of the program: those it raises itself, with the
    message given at the [raise] statement, and the built-in ones. *)
Inductive exn : Type :=
| AssertionError (msg : string)
| Exception (msg : string)
| Builtin (e : builtin_exn).

Inductive result (E A : Type) : Type :=
| Ok (a : A)
| Raise (e : E).
Arguments Ok {E A} a.
Arguments Raise {E A} e.

(** [res A]: the result of an operation that has no [raise] statement of
    its own, so that only a built-in error can come out of it.
    [outcome A]: the result of an operation that may raise anything. *)
Definition res (A : Type) : Type := result builtin_exn A.
Definition outcome (A : Type) : Type := result exn A.

Definition res_bind {E A B : Type} (m : result E A) (k : A -> result E B)
  : result E B :=
  match m with
  | Ok a => k a
  | Raise e => Raise e
  end.

Definition of_res {A : Type} (r : res A) : outcome A :=
  match r with
  | Ok a => Ok a
  | Raise e => Raise (Builtin e)
  end.

Declare Scope res_scope.
Delimit Scope res_scope with res.
Notation "x <- m ;; k" := (res_bind m (fun x => k))
  (at level 100, m at next level, right associativity) : res_scope.
Notation "m ;;; k" := (res_bind m (fun _ => k))
  (at level 100, right associativity) : res_scope.

(** ** Floating-point numbers

    A Python [float] is an IEEE 754 binary64 number.  The program only
    parses, compares and tests them, so a float is kept as sign, mantissa
    and binary exponent.  [nan] is left out: the tokenizer cannot produce
    it. *)
Inductive pyfloat : Type :=
| F_zero (neg : bool)
| F_inf (neg : bool)
| F_finite (neg : bool) (m : positive) (e : Z).

Definition pyfloat_of_spec (f : spec_float) : pyfloat :=
  match f with
  | S754_zero s => F_zero s
  | S754_infinity s => F_inf s
  | S754_nan => F_zero false
  | S754_finite s m e => F_finite s m e
  end.

(** Floats are compared by their exact values. *)

(** [scaled_cmp a ea b eb] compares [a * 2^ea] with [b * 2^eb]. *)
Definition scaled_cmp (a ea b eb : Z) : comparison :=
  let e := Z.min ea eb in
  Z.compare (a * 2 ^ (ea - e)) (b * 2 ^ (eb - e)).

Definition float_mant (f : pyfloat) : Z * Z :=
  match f with
  | F_finite neg m e => (if neg then Z.neg m else Z.pos m, e)
  | _ => (0, 0)
  end.

Definition float_cmp (f g : pyfloat) : comparison :=
  match f, g with
  | F_inf nf, F_inf ng =>
      if Bool.eqb nf ng then Eq else if nf then Lt else Gt
  | F_inf nf, _ => if nf then Lt else Gt
  | _, F_inf ng => if ng then Gt else Lt
  | _, _ =>
      let '(a, ea) := float_mant f in
      let '(b, eb) := float_mant g in
      scaled_cmp a ea b eb
  end.

Definition int_float_cmp (z : Z) (g : pyfloat) : comparison :=
  match g with
  | F_inf ng => if ng then Gt else Lt
  | _ => let '(b, eb) := float_mant g in scaled_cmp z 0 b eb
  end.

(** ** Python values

    Tokens, cell values, column names and table names are all drawn from
    the same dynamically typed universe: [None], [int], [float], [str],
    and tuples of these (a row's [data], and the cells that
    [SELECT DISTINCT *] produces). *)
Inductive value : Type :=
| VNone
| VInt (z : Z)
| VReal (f : pyfloat)
| VStr (s : string)
| VTuple (l : list value).

(** Three-way comparison of numbers across [int] and [float]. *)
Definition num_cmp (a b : value) : option comparison :=
  match a, b with
  | VInt x, VInt y => Some (Z.compare x y)
  | VInt x, VReal g => Some (int_float_cmp x g)
  | VReal f, VInt y => Some (CompOpp (int_float_cmp y f))
  | VReal f, VReal g => Some (float_cmp f g)
  | _, _ => None
  end.

Definition is_Eq (c : comparison) : bool :=
  match c with Eq => true | _ => false end.

(** [a == b]. *)
Fixpoint py_eq (a b : value) {struct a} : bool :=
  match a, b with
  | VNone, VNone => true
  | VStr s, VStr t => String.eqb s t
  | VTuple l, VTuple r =>
      (fix eq_list (l r : list value) {struct l} : bool :=
         match l, r with
         | [], [] => true
         | x :: l', y :: r' => py_eq x y && eq_list l' r'
         | _, _ => false
         end) l r
  | VInt x, VInt y => Z.eqb x y
  | VInt x, VReal g => is_Eq (int_float_cmp x g)
  | VReal f, VInt y => is_Eq (int_float_cmp y f)
  | VReal f, VReal g => is_Eq (float_cmp f g)
  | _, _ => false
  end.

(** [bool(a)]: the truth value Python gives to [a]. *)
Definition truthy (a : value) : bool :=
  match a with
  | VNone => false
  | VInt z => negb (Z.eqb z 0)
  | VReal (F_zero _) => false
  | VReal _ => true
  | VStr s => negb (String.eqb s "")
  | VTuple l => match l with [] => false | _ => true end
  end.

(** Lexicographic order of two strings by code point. *)
Fixpoint str_cmp (s t : string) : comparison :=
  match s, t with
  | EmptyString, EmptyString => Eq
  | EmptyString, String _ _ => Lt
  | String _ _, EmptyString => Gt
  | String c s', String d t' =>
      match N.compare (N_of_ascii c) (N_of_ascii d) with
      | Eq => str_cmp s' t'
      | o => o
      end
  end.

(** The four ordering operators; [TypeError] between values that Python
    does not order ([None] with anything, [str] with a number). *)
Inductive ordop : Type := OpLt | OpLe | OpGt | OpGe.

Definition ord_holds (o : ordop) (c : comparison) : bool :=
  match o, c with
  | OpLt, Lt => true
  | OpLe, (Lt | Eq) => true
  | OpGt, Gt => true
  | OpGe, (Gt | Eq) => true
  | _, _ => false
  end.

Fixpoint py_ord (o : ordop) (a b : value) {struct a} : res bool :=
  match a, b with
  | VStr s, VStr t => Ok (ord_holds o (str_cmp s t))
  | VTuple l, VTuple r =>
      (fix ord_list (l r : list value) {struct l} : res bool :=
         match l, r with
         | [], [] => Ok (ord_holds o Eq)
         | [], _ :: _ => Ok (ord_holds o Lt)
         | _ :: _, [] => Ok (ord_holds o Gt)
         | x :: l', y :: r' =>
             if py_eq x y then ord_list l' r' else py_ord o x y
         end) l r
  | _, _ =>
      match num_cmp a b with
      | Some c => Ok (ord_holds o c)
      | None => Raise TypeError
      end
  end.

(** ** Built-in operations on strings *)

(** [c in s] for a one-character string [c]. *)
Fixpoint char_in (c : ascii) (s : string) : bool :=
  match s with
  | EmptyString => false
  | String d s' => Ascii.eqb c d || char_in c s'
  end.

(** [sub in s]: [sub] occurs in [s] (the empty string occurs everywhere). *)
Fixpoint str_contains (sub s : string) : bool :=
  String.prefix sub s ||
  match s with
  | EmptyString => false
  | String _ s' => str_contains sub s'
  end.

(** [s[n:]] for [0 <= n]. *)
Fixpoint str_drop (n : nat) (s : string) : string :=
  match n, s with
  | O, _ => s
  | S n', EmptyString => EmptyString
  | S n', String _ s' => str_drop n' s'
  end.

(** [s[:n]] for [0 <= n]. *)
Fixpoint str_take (n : nat) (s : string) : string :=
  match n, s with
  | O, _ => EmptyString
  | S n', EmptyString => EmptyString
  | S n', String c s' => String c (str_take n' s')
  end.

Definition str_len (s : string) : Z := Z.of_nat (String.length s).

(** Slice bounds are clamped to the sequence: a negative bound counts from
    the end, and anything outside [0, len] is brought back to it. *)
Definition clamp_index (len i : Z) : nat :=
  Z.to_nat (Z.min len (Z.max 0 (if i <? 0 then len + i else i))).

(** [s[i:]] and [s[:j]] for arbitrary integers. *)
Definition str_from (s : string) (i : Z) : string :=
  str_drop (clamp_index (str_len s) i) s.

Definition str_upto (s : string) (j : Z) : string :=
  str_take (clamp_index (str_len s) j) s.

(** [s.find(sub, start)] for [0 <= start]: the least index at or after
    [start] where [sub] occurs, or [-1]. *)
Fixpoint find_from (sub s : string) (pos : Z) : Z :=
  if String.prefix sub s then pos
  else match s with
       | EmptyString => -1
       | String _ s' => find_from sub s' (pos + 1)
       end.

Definition str_find (sub s : string) (start : Z) : Z :=
  if str_len s <? start then -1
  else find_from sub (str_drop (Z.to_nat start) s) start.

(** [s.replace(old, new)] for a non-empty [old]: occurrences are replaced
    from left to right and do not overlap.  [skip] counts the characters of
    the current occurrence that are still to be dropped. *)
Fixpoint str_replace_from (old new : string) (skip : nat) (s : string) : string :=
  match s with
  | EmptyString => EmptyString
  | String c s' =>
      match skip with
      | S k => str_replace_from old new k s'
      | O =>
          if String.prefix old s
          then new ++ str_replace_from old new (String.length old - 1) s'
          else String c (str_replace_from old new O s')
      end
  end.

Definition str_replace (old new s : string) : string :=
  str_replace_from old new O s.

(** The constants of the [string] module that the tokenizer uses. *)
Definition whitespace : string :=
  String " " (String "009" (String "010" (String "013"
    (String "011" (String "012" EmptyString))))).
Definition ascii_letters : string :=
  "abcdefghijklmnopqrstuvwxyzABCDEFGHIJKLMNOPQRSTUVWXYZ".
Definition digits : string := "0123456789".

(** [c.isnumeric()] on the code points below 256: the decimal digits, the
    superscripts one, two and three, and the three vulgar fractions. *)
Definition isnumeric (c : ascii) : bool :=
  let n := N_of_ascii c in
  ((48 <=? n) && (n <=? 57))%N ||
  existsb (N.eqb n) [178; 179; 185; 188; 189; 190]%N.

(** ** Conversions of numeric literals *)

Definition digit_val (c : ascii) : option Z :=
  let n := N_of_ascii c in
  if ((48 <=? n) && (n <=? 57))%N then Some (Z.of_N n - 48) else None.

(** Reads the longest run of decimal digits at the head of [s]: the value
    accumulated on top of [acc], the number of digits read, and the rest. *)
Fixpoint take_digits (s : string) (acc : Z) (n : nat) : Z * nat * string :=
  match s with
  | EmptyString => (acc, n, s)
  | String c s' =>
      match digit_val c with
      | Some d => take_digits s' (acc * 10 + d) (S n)
      | None => (acc, n, s)
      end
  end.

Definition strip_minus (s : string) : bool * string :=
  match s with
  | String "-" s' => (true, s')
  | _ => (false, s)
  end.

(** CPython's default bound on the number of digits [int] converts. *)
Definition int_max_str_digits : nat := 4300.

(** [int(s)] for a string over the characters [0-9], [-], [.] and [E]:
    an optional sign and at least one digit, nothing else. *)
Definition py_int (s : string) : res value :=
  let '(neg, s1) := strip_minus s in
  let '(v, n, rest) := take_digits s1 0 O in
  match n, rest with
  | S _, EmptyString =>
      if (int_max_str_digits <? n)%nat then Raise ValueError
      else Ok (VInt (if neg then - v else v))
  | _, _ => Raise ValueError
  end.

(** The binary64 number nearest to [(-1)^neg * d * 10^e10], ties to even. *)
Definition float_of_decimal (neg : bool) (d : Z) (e10 : Z) : pyfloat :=
  if d =? 0 then F_zero neg
  else if 0 <=? e10 then
    let n := d * 10 ^ e10 in
    pyfloat_of_spec (binary_normalize 53 1024 (if neg then - n else n) 0 neg)
  else
    let '(q, e, l) := SFdiv_core_binary 53 1024 d 0 (10 ^ (- e10)) 0 in
    pyfloat_of_spec (binary_round_aux 53 1024 neg q e l).

(** [float(s)] for a string over the same characters: an optional sign,
    digits with an optional point (at least one digit in all), and an
    optional exponent [E], optional sign, digits. *)
Definition py_float (s : string) : res value :=
  let '(neg, s1) := strip_minus s in
  let '(ip, ni, s2) := take_digits s1 0 O in
  let '(d, nf, s3) :=
    match s2 with
    | String "." s2' =>
        let '(d, nf, s3) := take_digits s2' ip O in (d, nf, s3)
    | _ => (ip, O, s2)
    end in
  match (ni + nf)%nat with
  | O => Raise ValueError
  | S _ =>
      match s3 with
      | EmptyString => Ok (VReal (float_of_decimal neg d (- Z.of_nat nf)))
      | String "E" s4 =>
          let '(eneg, s5) := strip_minus s4 in
          let '(ev, ne, s6) := take_digits s5 0 O in
          match ne, s6 with
          | S _, EmptyString =>
              let e := if eneg then - ev else ev in
              Ok (VReal (float_of_decimal neg d (e - Z.of_nat nf)))
          | _, _ => Raise ValueError
          end
      | _ => Raise ValueError
      end
  end.

(** ** Built-in operations on lists *)

(** [l[i]]: a negative index counts from the end. *)
Definition py_index {A : Type} (l : list A) (i : Z) : res A :=
  let len := Z.of_nat (List.length l) in
  let j := if i <? 0 then len + i else i in
  if (j <? 0) || (len <=? j) then Raise IndexError
  else match nth_error l (Z.to_nat j) with
       | Some x => Ok x
       | None => Raise IndexError
       end.

(** [l[i:j]], with either bound possibly left out. *)
Definition py_slice {A : Type} (l : list A) (i j : option Z) : list A :=
  let len := Z.of_nat (List.length l) in
  let a := match i with Some i => clamp_index len i | None => O end in
  let b := match j with Some j => clamp_index len j | None => List.length l end in
  firstn (b - a) (skipn a l).

(** [x in l]. *)
Definition py_in (x : value) (l : list value) : bool :=
  existsb (py_eq x) l.

(** Position of the first element equal to [x], counted from [pos]. *)
Fixpoint index_from (x : value) (l : list value) (pos : Z) : res Z :=
  match l with
  | [] => Raise ValueError
  | y :: l' => if py_eq y x then Ok pos else index_from x l' (pos + 1)
  end.

(** [l.index(x, start, stop)]: the search runs over [l[start:stop]] and the
    answer is an index into [l]. *)
Definition list_index (x : value) (l : list value) (start stop : option Z) : res Z :=
  let len := Z.of_nat (List.length l) in
  let a := match start with Some i => clamp_index len i | None => O end in
  index_from x (py_slice l start stop) (Z.of_nat a).

(** ** The tokenizer *)

Fixpoint collect_characters (query allowed_characters : string) : string :=
  match query with
  | EmptyString => EmptyString
  | String letter rest =>
      if char_in letter allowed_characters
      then String letter (collect_characters rest allowed_characters)
      else EmptyString
  end.

(** Every [remove_] function returns the rest of the query together with
    the token list, which the Python code extends in place. *)
Definition remove_leading_whitespace (query : string) (tokens : list value)
  : string * list value :=
  let ws := collect_characters query whitespace in
  (str_drop (String.length ws) query, tokens).

Definition remove_word (query : string) (tokens : list value)
  : string * list value :=
  let word := collect_characters query (ascii_letters ++ "_.*" ++ digits) in
  let tokens' :=
    if String.eqb word "NULL" then tokens ++ [VNone] else tokens ++ [VStr word] in
  (str_drop (String.length word) query, tokens').

(** The loop of [remove_text] that steps over doubled quotes.  Each turn
    moves [escape_index] forward by at least two, so [String.length query]
    turns are enough. *)
Fixpoint escape_loop (fuel : nat) (query : string)
    (end_quote_index escape_index : Z) : Z :=
  match fuel with
  | O => end_quote_index
  | S fuel' =>
      if (escape_index =? end_quote_index) && negb (escape_index =? -1)
      then escape_loop fuel' query
             (str_find "'" query (escape_index + 2))
             (str_find "''" query (escape_index + 2))
      else end_quote_index
  end.

(** Called with a query whose first character is the quote. *)
Definition remove_text (query : string) (tokens : list value)
  : string * list value :=
  let query := str_drop 1 query in
  let end_quote_index := str_find "'" query 0 in
  let end_quote_index :=
    if str_contains "''" query
    then escape_loop (String.length query) query end_quote_index
           (str_find "''" query 0)
    else end_quote_index in
  let text := str_upto query end_quote_index in
  let text := str_replace "''" "'" text in
  (str_from query (end_quote_index + 1), tokens ++ [VStr text]).

Definition remove_num (query : string) (tokens : list value)
  : res (string * list value) :=
  let number := collect_characters query (digits ++ "-.E") in
  (tok <- (if str_contains "." number then py_float number else py_int number) ;;
   Ok (str_drop (String.length number) query, tokens ++ [tok]))%res.

(** [tokens[-1] += c] for a last token that is a string. *)
Definition extend_last (tokens : list value) (last_token : string) (c : ascii)
  : list value :=
  removelast tokens ++ [VStr (last_token ++ String c EmptyString)].

(** The branch of [tokenize] for the characters [<], [>], [=] and [!]. *)
Definition tokenize_operator (c : ascii) (rest : string) (tokens : list value)
  : res (string * list value) :=
  (last_token <- py_index tokens (-1) ;;
   match last_token with
   | VStr last =>
       if (String.length last <? 2)%nat then
         if str_contains last "!>" && Ascii.eqb c "=" then
           Ok (rest, extend_last tokens last c)
         else if String.eqb last "=" && Ascii.eqb c "<" then
           Ok (rest, extend_last tokens last c)
         else Ok (rest, tokens ++ [VStr (String c EmptyString)])
       else Ok (rest, tokens ++ [VStr (String c EmptyString)])
   | VTuple l =>
       if (List.length l <? 2)%nat then Raise TypeError
       else Ok (rest, tokens ++ [VStr (String c EmptyString)])
   | _ => Raise TypeError
   end)%res.

(** One turn of the loop of [tokenize] on a non-empty query. *)
Definition tokenize_step (c : ascii) (rest : string) (tokens : list value)
  : outcome (string * list value) :=
  let query := String c rest in
  if char_in c whitespace then Ok (remove_leading_whitespace query tokens)
  else if char_in c (ascii_letters ++ "_") then Ok (remove_word query tokens)
  else if char_in c "(),;*" then Ok (rest, tokens ++ [VStr (String c EmptyString)])
  else if Ascii.eqb c "'" then Ok (remove_text query tokens)
  else if isnumeric c || char_in c "-" then of_res (remove_num query tokens)
  else if char_in c "<>=!" then of_res (tokenize_operator c rest tokens)
  else Raise (AssertionError "Query didn't get shorter.").

(** The loop itself.  Every turn that does not raise shortens the query
    (see [tokenize_step_shorter]), so the fuel [String.length query] is
    never used up. *)
Fixpoint tokenize_loop (fuel : nat) (query : string) (tokens : list value)
  : outcome (list value) :=
  match query with
  | EmptyString => Ok tokens
  | String c rest =>
      match fuel with
      | O => Raise (Builtin NonTermination)
      | S fuel' =>
          match tokenize_step c rest tokens with
          | Ok (query', tokens') => tokenize_loop fuel' query' tokens'
          | Raise e => Raise e
          end
      end
  end.

Definition tokenize (query : string) : outcome (list value) :=
  tokenize_loop (String.length query) query [].


(** ** Dictionaries

    A Python [dict] keeps its keys in insertion order, and the program
    depends on that order (a schema lists its columns in declaration
    order).  A dictionary is therefore a list of bindings with pairwise
    different keys; keys are compared with [==]. *)
Definition dict (V : Type) : Type := list (value * V).

Fixpoint dict_get {V : Type} (k : value) (d : dict V) : option V :=
  match d with
  | [] => None
  | (k', v) :: d' => if py_eq k' k then Some v else dict_get k d'
  end.

(** [k in d]. *)
Definition dict_mem {V : Type} (k : value) (d : dict V) : bool :=
  match dict_get k d with Some _ => true | None => false end.

(** [d[k]]. *)
Definition dict_lookup {V : Type} (k : value) (d : dict V) : res V :=
  match dict_get k d with Some v => Ok v | None => Raise KeyError end.

(** [d[k] = v]: an existing key keeps its place (and the key object first
    inserted); a new key goes to the end. *)
Fixpoint dict_set {V : Type} (k : value) (v : V) (d : dict V) : dict V :=
  match d with
  | [] => [(k, v)]
  | (k', v') :: d' =>
      if py_eq k' k then (k', v) :: d' else (k', v') :: dict_set k v d'
  end.

(** [d.pop(k)], dropping the value. *)
Fixpoint dict_remove {V : Type} (k : value) (d : dict V) : dict V :=
  match d with
  | [] => []
  | (k', v') :: d' =>
      if py_eq k' k then d' else (k', v') :: dict_remove k d'
  end.

Definition dict_keys {V : Type} (d : dict V) : list value := map fst d.
Definition dict_values {V : Type} (d : dict V) : list V := map snd d.

(** [x in c] for a container [c] that is a string or a tuple. *)
Definition py_contains (x c : value) : res bool :=
  match c with
  | VStr s =>
      match x with
      | VStr sub => Ok (str_contains sub s)
      | _ => Raise TypeError
      end
  | VTuple l => Ok (py_in x l)
  | _ => Raise TypeError
  end.

(** [a + b] for two strings. *)
Definition py_concat (a b : value) : res value :=
  match a, b with
  | VStr s, VStr t => Ok (VStr (s ++ t))
  | _, _ => Raise TypeError
  end.

(** ** class Row *)

Module Row.

Record t : Type := mk {
  data : list value;
  size : Z;
  primary_key : value
}.

(** [Row(row_data)]. *)
Definition init (row_data : list value) : t :=
  {| data := row_data; size := Z.of_nat (List.length row_data);
     primary_key := VNone |}.

(** [self == other]. *)
Definition eq (self other : t) : bool :=
  if negb (size self =? size other)
     || negb (py_eq (VTuple (data self)) (VTuple (data other)))
  then false else true.

Definition update_row (self : t) (column_index : Z) (val : value) : res t :=
  let len := Z.of_nat (List.length (data self)) in
  let j := if column_index <? 0 then len + column_index else column_index in
  if (j <? 0) || (len <=? j) then Raise IndexError
  else Ok {| data := <[Z.to_nat j := val]> (data self);
             size := size self; primary_key := primary_key self |}.

Definition check_row (self : t) (column_name : value) (column_index : Z)
    (op val : value) : res bool :=
  (column_value <- py_index (data self) column_index ;;
   let normal :=
     if py_eq op (VStr "=") then Ok (py_eq column_value val)
     else if py_eq op (VStr "!=") then Ok (negb (py_eq column_value val))
     else if py_eq op (VStr ">") then py_ord OpGt column_value val
     else if py_eq op (VStr ">=") then py_ord OpGe column_value val
     else if py_eq op (VStr "<") then py_ord OpLt column_value val
     else if py_eq op (VStr "<=") then py_ord OpLe column_value val
     else Ok false in
   match val with
   | VNone =>
       if py_eq op (VStr "IS") then Ok (negb (truthy column_value))
       else if py_eq op (VStr "IS NOT") then Ok (truthy column_value)
       else normal
   | _ =>
       match column_value with
       | VNone => Ok false
       | _ => normal
       end
   end)%res.

End Row.

(** ** class Table, and its subclass View *)

Module Table.

(** The attributes a [View] adds to a [Table]. *)
Record view_attrs : Type := mk_view {
  statement : string;
  view_columns : list value;
  table_name : value
}.

(** [view] is [Some _] exactly for the instances of [View]. *)
Record t : Type := mk {
  name : value;
  schema : dict value;
  column_names : list value;
  default_values : dict value;
  column_size : Z;
  rows : list Row.t;
  size : Z;
  view : option view_attrs
}.

(** The first loop of [Table.__init__], over [values[value_itr:]]: a
    column name, its type, and one separator to step over.  The loop ends
    when a single token is left, and breaks when none is left after a
    type; it indexes past the end when none is left after a separator. *)
Fixpoint read_schema (values : list value) (schema : dict value)
  : res (dict value) :=
  match values with
  | [] => Raise IndexError
  | [_] => Ok schema
  | column_name :: column_type :: rest =>
      let schema := dict_set column_name column_type schema in
      match rest with
      | [] => Ok schema
      | _ :: rest' => read_schema rest' schema
      end
  end.

(** The second loop of [Table.__init__].  Its body always looks up the
    first ["DEFAULT"], so the loop ends after one turn when no other
    ["DEFAULT"] follows it, and never leaves its state otherwise. *)
Definition read_defaults (values : list value) : res (dict value) :=
  if py_in (VStr "DEFAULT") values then
    (default_index <- list_index (VStr "DEFAULT") values None None ;;
     column_name <- py_index values (default_index - 2) ;;
     default_value <- py_index values (default_index + 1) ;;
     if py_in (VStr "DEFAULT") (py_slice values (Some (default_index + 1)) None)
     then Raise NonTermination
     else Ok (dict_set column_name default_value []))%res
  else Ok [].

(** [Table(table_name, values)]. *)
Definition init (table_name : value) (values : list value) : res t :=
  (schema <- (match values with
              | [] => Ok []
              | _ => read_schema values []
              end) ;;
   default_values <- read_defaults values ;;
   let column_names := dict_keys schema in
   Ok {| name := table_name; schema := schema; column_names := column_names;
         default_values := default_values;
         column_size := Z.of_nat (List.length column_names);
         rows := []; size := 0; view := None |})%res.

Definition add_column (self : t) (column_name column_type : value) : t :=
  {| name := name self;
     schema := dict_set column_name column_type (schema self);
     column_names := column_names self ++ [column_name];
     default_values := default_values self;
     column_size := column_size self + 1;
     rows := rows self; size := size self; view := view self |}.

Definition get_column_index (self : t) (column_name : value) : res Z :=
  list_index column_name (column_names self) None None.

Definition with_rows (self : t) (rows : list Row.t) (size : Z) : t :=
  {| name := name self; schema := schema self;
     column_names := column_names self;
     default_values := default_values self;
     column_size := column_size self;
     rows := rows; size := size; view := view self |}.

(** [self.rows.append(row); self.size += 1]. *)
Definition append_row (self : t) (row : Row.t) : t :=
  with_rows self (rows self ++ [row]) (size self + 1).

(** The type check at the end of [insert_row] for one value and the
    declared type of its column. *)
Definition type_ok (val value_type : value) : bool :=
  match val with
  | VNone => true
  | _ =>
      if py_eq value_type (VStr "TEXT") && (match val with VStr _ => true | _ => false end)
      then true
      else if py_eq value_type (VStr "REAL") && (match val with VReal _ => true | _ => false end)
      then true
      else if py_eq value_type (VStr "INTEGER") && (match val with VInt _ => true | _ => false end)
      then true
      else if py_eq value_type (VStr "BLOB") then true
      else false
  end.

(** [for value, value_type in zip(values, types)]: [false] as soon as one
    pair fails the check. *)
Fixpoint types_ok (values types : list value) : bool :=
  match values, types with
  | v :: values', ty :: types' => type_ok v ty && types_ok values' types'
  | _, _ => true
  end.

(** [while len(insertion_columns) - len(values) > 0: values.append(None)]. *)
Definition pad_to_columns (insertion_columns values : list value) : list value :=
  values ++ repeat VNone (List.length insertion_columns - List.length values).

(** [while len(values) - self.column_size > 0: values.append(None)].  The
    loop runs for as long as the list is longer than the table is wide,
    and each turn makes the list longer: it would run forever once
    entered.  [insert_row] reaches it only with a list that is shorter than
    the table is wide, where it does nothing. *)
Definition pad_to_width (values : list value) (column_size : Z)
  : res (list value) :=
  if Z.of_nat (List.length values) - column_size >? 0
  then Raise NonTermination
  else Ok values.

(** [cols_to_values]: the dictionary built from
    [zip(insertion_columns, values)]. *)
Fixpoint zip_dict (insertion_columns values : list value) (d : dict value)
  : dict value :=
  match insertion_columns, values with
  | col :: insertion_columns', vals :: values' =>
      zip_dict insertion_columns' values' (dict_set col vals d)
  | _, _ => d
  end.

(** The row built for an insert into named columns. *)
Fixpoint reorganize (self : t) (names insertion_columns : list value)
    (cols_to_values : dict value) : res (list value) :=
  match names with
  | [] => Ok []
  | column_name :: names' =>
      (v <- (if py_in column_name insertion_columns
             then dict_lookup column_name cols_to_values
             else match dict_get column_name (default_values self) with
                  | Some dv => Ok dv
                  | None => Ok VNone
                  end) ;;
       rest <- reorganize self names' insertion_columns cols_to_values ;;
       Ok (v :: rest))%res
  end.

(** [self.insert_row(values, insertion_columns)]; [values] is either the
    string ["DEFAULT"] ([inl]) or a list ([inr]). *)
Definition insert_row (self : t) (values : string + list value)
    (insertion_columns : option (list value)) : res t :=
  match values with
  | inl _ =>
      let default_vals :=
        map (fun name => match dict_get name (default_values self) with
                         | Some dv => dv
                         | None => VNone
                         end) (column_names self) in
      Ok (append_row self (Row.init default_vals))
  | inr values =>
      if Z.of_nat (List.length values) >? column_size self then Ok self
      else
        (values <-
           match insertion_columns with
           | Some insertion_columns =>
               let values := pad_to_columns insertion_columns values in
               let cols_to_values := zip_dict insertion_columns values [] in
               reorganize self (column_names self) insertion_columns cols_to_values
           | None =>
               if Z.of_nat (List.length values) <? column_size self
               then pad_to_width values (column_size self)
               else Ok values
           end ;;
         if types_ok values (dict_values (schema self))
         then Ok (append_row self (Row.init values))
         else Ok self)%res
  end.

(** [self.rows.remove(record)] for the first [record] equal to [row]. *)
Fixpoint remove_first (row : Row.t) (rows : list Row.t) : option (list Row.t) :=
  match rows with
  | [] => None
  | record :: rows' =>
      if Row.eq row record then Some rows'
      else match remove_first row rows' with
           | Some l => Some (record :: l)
           | None => None
           end
  end.

Definition remove_row (self : t) (row : Row.t) : t :=
  if size self =? 0 then self
  else match remove_first row (rows self) with
       | Some rows' => with_rows self rows' (size self - 1)
       | None => self
       end.

End Table.

Module View.

(** The first loop of [View.__init__]: the schema of the viewed table
    with everything up to the first point cut off each column name. *)
Fixpoint unqualify (table_schema : dict value) (keys : list value)
    (unqualified_schema : dict value) : res (dict value) :=
  match keys with
  | [] => Ok unqualified_schema
  | table_cols :: keys' =>
      (dotted <- py_contains (VStr ".") table_cols ;;
       column_type <- dict_lookup table_cols table_schema ;;
       if (dotted : bool) then
         match table_cols with
         | VStr s =>
             let unqualified_col := VStr (str_from s (str_find "." s 0 + 1)) in
             unqualify table_schema keys'
               (dict_set unqualified_col column_type unqualified_schema)
         | _ => Raise AttributeError
         end
       else
         unqualify table_schema keys'
           (dict_set table_cols column_type unqualified_schema))%res
  end.

(** The second loop: the columns of the view that the unqualified schema
    knows, in the order of [view_columns]. *)
Fixpoint restrict (view_columns : list value) (unqualified_schema : dict value)
    (view_schema : dict value) : dict value :=
  match view_columns with
  | [] => view_schema
  | column :: view_columns' =>
      match dict_get column unqualified_schema with
      | Some column_type =>
          restrict view_columns' unqualified_schema
            (dict_set column column_type view_schema)
      | None => restrict view_columns' unqualified_schema view_schema
      end
  end.

(** [View(view_name, table_name, view_columns, table_schema, statement)]. *)
Definition init (view_name table_name : value) (view_columns : list value)
    (table_schema : dict value) (statement : string) : res Table.t :=
  (unqualified_schema <- unqualify table_schema (dict_keys table_schema) [] ;;
   let view_schema :=
     if py_in (VStr "*") view_columns && (List.length view_columns =? 1)%nat
     then unqualified_schema
     else restrict view_columns unqualified_schema [] in
   base <- Table.init view_name [] ;;
   let column_names := dict_keys view_schema in
   Ok {| Table.name := Table.name base;
         Table.schema := view_schema;
         Table.column_names := column_names;
         Table.default_values := Table.default_values base;
         Table.column_size := Z.of_nat (List.length column_names);
         Table.rows := Table.rows base;
         Table.size := Table.size base;
         Table.view := Some {| Table.statement := statement;
                               Table.view_columns := view_columns;
                               Table.table_name := table_name |} |})%res.

End View.

(** ** class Database *)

Module Database.

Record t : Type := mk {
  name : string;
  size : Z;
  tables : dict Table.t;
  joined_table : option Table.t
}.

(** [Database(database_name)]. *)
Definition init (database_name : string) : t :=
  {| name := database_name; size := 0; tables := []; joined_table := None |}.

Definition with_tables (self : t) (tables : dict Table.t) (size : Z) : t :=
  {| name := name self; size := size; tables := tables;
     joined_table := joined_table self |}.

Definition set_joined_table (self : t) (joined : option Table.t) : t :=
  {| name := name self; size := size self; tables := tables self;
     joined_table := joined |}.

(** [self.tables[key] = table]. *)
Definition set_table (self : t) (key : value) (table : Table.t) : t :=
  with_tables self (dict_set key table (tables self)) (size self).

Definition add_table (self : t) (table_name : value) (values : list value)
  : res t :=
  (table <- Table.init table_name values ;;
   Ok (with_tables self (dict_set table_name table (tables self)) (size self + 1)))%res.

Definition remove_table (self : t) (table_name : value) : res t :=
  if dict_mem table_name (tables self)
  then Ok (with_tables self (dict_remove table_name (tables self)) (size self - 1))
  else Raise KeyError.

Definition add_view (self : t) (view_name table_name : value)
    (view_columns : list value) (schema : dict value) (statement : string)
  : res t :=
  (view <- View.init view_name table_name view_columns schema statement ;;
   Ok (with_tables self (dict_set view_name view (tables self)) (size self + 1)))%res.

End Database.

(** ** class LockSystem *)

(** The three lock types, which the program names by the strings
    ["shared"], ["reserved"] and ["exclusive"]. *)
Inductive lock : Type := LShared | LReserved | LExclusive.

Definition lock_eqb (a b : lock) : bool :=
  match a, b with
  | LShared, LShared | LReserved, LReserved | LExclusive, LExclusive => true
  | _, _ => false
  end.

Module LockSystem.

Record t : Type := mk {
  name : string;
  shared : Z;
  reserved : Z;
  exclusive : Z
}.

(** [LockSystem(database_name)]. *)
Definition init (database_name : string) : t :=
  {| name := database_name; shared := 0; reserved := 0; exclusive := 0 |}.

Definition has_shared (self : t) : bool := negb (shared self =? 0).
Definition has_reserved (self : t) : bool := negb (reserved self =? 0).
Definition has_exclusive (self : t) : bool := negb (exclusive self =? 0).

Definition set_shared (self : t) (n : Z) : t :=
  {| name := name self; shared := n; reserved := reserved self;
     exclusive := exclusive self |}.
Definition set_reserved (self : t) (n : Z) : t :=
  {| name := name self; shared := shared self; reserved := n;
     exclusive := exclusive self |}.
Definition set_exclusive (self : t) (n : Z) : t :=
  {| name := name self; shared := shared self; reserved := reserved self;
     exclusive := n |}.

(** Each [add_] method returns [True] and the updated object, or raises. *)
Definition add_shared (self : t) : outcome (bool * t) :=
  if negb (has_exclusive self) then Ok (true, set_shared self (shared self + 1))
  else Raise (Exception
    "Trying to gain a shared lock while another connection has exclusive!").

Definition remove_shared (self : t) : t := set_shared self (shared self - 1).

Definition add_reserved (self : t) (current_lock : option lock)
  : outcome (bool * t) :=
  if has_reserved self then
    Raise (Exception
      "Trying to gain a reserved lock while another reserved lock is claimed!")
  else if has_exclusive self then
    Raise (Exception
      "Trying to gain a reserved lock while an exclusive lock is claimed!")
  else
    let self :=
      match current_lock with
      | Some LShared => remove_shared self
      | _ => self
      end in
    Ok (true, set_reserved self (reserved self + 1)).

Definition remove_reserved (self : t) : t :=
  set_reserved self (reserved self - 1).

Definition add_exclusive (self : t) (current_lock : option lock)
  : outcome (bool * t) :=
  if has_exclusive self then
    Raise (Exception
      "Trying to gain an exclusive lock while another exclusive lock is claimed!")
  else if has_shared self then
    Raise (Exception
      "Trying to gain an exclusive lock while there are shared locks claimed.")
  else if has_reserved self then
    match current_lock with
    | Some LReserved =>
        let self := set_reserved self (reserved self - 1) in
        Ok (true, set_exclusive self (exclusive self + 1))
    | _ =>
        Raise (Exception
          "Trying to gain an exclusive lock while another reserved lock is claimed!")
    end
  else Ok (true, set_exclusive self (exclusive self + 1)).

Definition remove_exclusive (self : t) : t :=
  set_exclusive self (exclusive self - 1).

Definition add_lock (self : t) (lock_type : lock) (current_lock : option lock)
  : outcome (bool * t) :=
  if match current_lock with
     | Some held => lock_eqb held lock_type
     | None => false
     end
  then Ok (true, self)
  else match lock_type with
       | LShared => add_shared self
       | LReserved => add_reserved self current_lock
       | LExclusive => add_exclusive self current_lock
       end.

Definition remove_lock (self : t) (lock_type : option lock) : t :=
  match lock_type with
  | None => self
  | Some LShared => remove_shared self
  | Some LReserved => remove_reserved self
  | Some LExclusive => remove_exclusive self
  end.

End LockSystem.

(** ** Stateful computations

    [M S A] is a computation over a state of type [S] that returns an [A]
    or raises.  The state that comes out of a raising computation is the
    state at the raise: what was mutated before stays mutated. *)
Definition M (S A : Type) : Type := S -> outcome A * S.

Definition ret {S A : Type} (a : A) : M S A := fun s => (Ok a, s).
Definition raise {S A : Type} (e : exn) : M S A := fun s => (Raise e, s).
Definition bind {S A B : Type} (m : M S A) (k : A -> M S B) : M S B :=
  fun s => match m s with
           | (Ok a, s') => k a s'
           | (Raise e, s') => (Raise e, s')
           end.
Definition get {S : Type} : M S S := fun s => (Ok s, s).
Definition put {S : Type} (s : S) : M S unit := fun _ => (Ok tt, s).
Definition modify {S : Type} (f : S -> S) : M S unit := fun s => (Ok tt, f s).
Definition lift {S A : Type} (r : res A) : M S A := fun s => (of_res r, s).
Definition lift_outcome {S A : Type} (r : outcome A) : M S A := fun s => (r, s).

Declare Scope m_scope.
Delimit Scope m_scope with M.
Notation "x <- m ;; k" := (bind m (fun x => k))
  (at level 100, m at next level, right associativity) : m_scope.
Notation "m ;;; k" := (bind m (fun _ => k))
  (at level 100, right associativity) : m_scope.

(** [for x in l: body x], stopping at the first exception. *)
Fixpoint for_each {S A : Type} (l : list A) (body : A -> M S unit) : M S unit :=
  match l with
  | [] => ret tt
  | x :: l' => (body x ;;; for_each l' body)%M
  end.

(** Runs a computation on the table object bound to [table_name] in
    a database: [table = self.tables[table_name]] followed by method
    calls on [table]. *)
Definition on_table {A : Type} (table_name : value) (m : M Table.t A)
  : M Database.t A :=
  fun db =>
    match dict_get table_name (Database.tables db) with
    | None => (Raise (Builtin KeyError), db)
    | Some table =>
        let '(r, table') := m table in
        (r, Database.set_table db table_name table')
    end.

(** [a and b] on results: [b] is not evaluated when [a] is false. *)
Definition and_then (a b : res bool) : res bool :=
  res_bind a (fun x => if x then b else Ok false).

(** [tokens[i] == s]. *)
Definition tok_is (tokens : list value) (i : Z) (s : string) : res bool :=
  res_bind (py_index tokens i) (fun t => Ok (py_eq t (VStr s))).

(** [len(s)] where [s] has to be a string or a tuple. *)
Definition py_len (v : value) : res Z :=
  match v with
  | VStr s => Ok (str_len s)
  | VTuple l => Ok (Z.of_nat (List.length l))
  | _ => Raise TypeError
  end.

(** [v[i:]]. *)
Definition py_from (v : value) (i : Z) : res value :=
  match v with
  | VStr s => Ok (VStr (str_from s i))
  | VTuple l => Ok (VTuple (py_slice l (Some i) None))
  | _ => Raise TypeError
  end.

(** [column[len(table_name) + 1:]]. *)
Definition strip_table (table_name column : value) : res value :=
  (n <- py_len table_name ;; py_from column (n + 1))%res.

(** ["." in column and table_name in column]. *)
Definition is_qualified_by (table_name column : value) : res bool :=
  and_then (py_contains (VStr ".") column) (py_contains table_name column).

(** The comprehension [[v for v in l if v != s]]. *)
Definition without (s : string) (l : list value) : list value :=
  List.filter (fun v => negb (py_eq v (VStr s))) l.

(** The comprehension that collects the three tokens of a condition:
    [[v for v in l if v is None or v != "," and v not in keywords]]. *)
Definition condition_tokens (keywords l : list value) : list value :=
  List.filter (fun v => match v with
                   | VNone => true
                   | _ => negb (py_eq v (VStr ",")) && negb (py_in v keywords)
                   end) l.

(** The operator and the value a condition compares with, as computed at
    the head of [select], [update_table] and [delete_from]. *)
Definition condition_op (conditions : list value) : res (value * value) :=
  (op <- py_index conditions 1 ;;
   if py_eq op (VStr "IS") then
     c2 <- py_index conditions 2 ;;
     if truthy c2 && py_eq c2 (VStr "NOT")
     then (op' <- py_concat (VStr " ") c2 ;;
           op'' <- py_concat op op' ;;
           Ok (op'', VNone))
     else Ok (op, VNone)
   else
     val <- py_index conditions 2 ;;
     Ok (op, val))%res.

(** ** class Connection *)

(** The transaction modes, which the program names by the strings
    ["DEFERRED"], ["IMMEDIATE"] and ["EXCLUSIVE"], and the actions that
    [lock_check] is called with. *)
Inductive mode : Type := DEFERRED | IMMEDIATE | EXCLUSIVE.
Inductive action : Type := Read | Write | Commit | Relinquish.

(** The module-level state: the two registries [_ALL_DATABASES] and
    [_ALL_DATABASES_LOCKSYSTEMS], which map a file name to an object, and
    the objects themselves.  A reference is the number of an object;
    [deepcopy] makes a new object, and an assignment such as
    [self.database = _ALL_DATABASES[self.filename]] copies a reference, so
    that two names can stand for one object. *)
Record world : Type := mk_world {
  ALL_DATABASES : gmap string nat;
  ALL_DATABASES_LOCKSYSTEMS : gmap string nat;
  database_objects : nat -> Database.t;
  database_count : nat;
  locksystem_objects : nat -> LockSystem.t;
  locksystem_count : nat
}.

(** [objects[r] = x]. *)
Definition store_set {A : Type} (objects : nat -> A) (r : nat) (x : A)
  : nat -> A :=
  fun r' => if Nat.eqb r' r then x else objects r'.

Module Connection.

Record t : Type := mk {
  filename : string;
  database : nat;
  transaction_mode : option mode;
  transaction_lock : option lock;
  lock_system : nat
}.

(** What a method of a connection can read and write: the connection
    object itself and the module-level state. *)
Record state : Type := mk_state {
  self : t;
  globals : world
}.

Definition set_database (r : nat) : M state unit :=
  modify (fun st =>
    {| self := {| filename := filename (self st); database := r;
                  transaction_mode := transaction_mode (self st);
                  transaction_lock := transaction_lock (self st);
                  lock_system := lock_system (self st) |};
       globals := globals st |}).

Definition set_transaction_mode (m : option mode) : M state unit :=
  modify (fun st =>
    {| self := {| filename := filename (self st); database := database (self st);
                  transaction_mode := m;
                  transaction_lock := transaction_lock (self st);
                  lock_system := lock_system (self st) |};
       globals := globals st |}).

Definition set_transaction_lock (l : option lock) : M state unit :=
  modify (fun st =>
    {| self := {| filename := filename (self st); database := database (self st);
                  transaction_mode := transaction_mode (self st);
                  transaction_lock := l;
                  lock_system := lock_system (self st) |};
       globals := globals st |}).

Definition get_transaction_mode : M state (option mode) :=
  fun st => (Ok (transaction_mode (self st)), st).

Definition get_transaction_lock : M state (option lock) :=
  fun st => (Ok (transaction_lock (self st)), st).

(** [_ALL_DATABASES[self.filename]]. *)
Definition committed_database : M state nat :=
  fun st =>
    match ALL_DATABASES (globals st) !! filename (self st) with
    | Some r => (Ok r, st)
    | None => (Raise (Builtin KeyError), st)
    end.

(** [_ALL_DATABASES[self.filename] = self.database]. *)
Definition publish_database : M state unit :=
  modify (fun st =>
    let w := globals st in
    {| self := self st;
       globals :=
         {| ALL_DATABASES :=
              <[filename (self st) := database (self st)]> (ALL_DATABASES w);
            ALL_DATABASES_LOCKSYSTEMS := ALL_DATABASES_LOCKSYSTEMS w;
            database_objects := database_objects w;
            database_count := database_count w;
            locksystem_objects := locksystem_objects w;
            locksystem_count := locksystem_count w |} |}).

(** [copy.deepcopy(r)]: a new database object with the contents of the
    object [r]. *)
Definition deepcopy (r : nat) : M state nat :=
  fun st =>
    let w := globals st in
    let r' := database_count w in
    (Ok r',
     {| self := self st;
        globals :=
          {| ALL_DATABASES := ALL_DATABASES w;
             ALL_DATABASES_LOCKSYSTEMS := ALL_DATABASES_LOCKSYSTEMS w;
             database_objects :=
               store_set (database_objects w) r' (database_objects w r);
             database_count := S r';
             locksystem_objects := locksystem_objects w;
             locksystem_count := locksystem_count w |} |}).

(** Runs a computation on the object [self.database]. *)
Definition on_database {A : Type} (m : M Database.t A) : M state A :=
  fun st =>
    let w := globals st in
    let r := database (self st) in
    let '(a, db') := m (database_objects w r) in
    (a,
     {| self := self st;
        globals :=
          {| ALL_DATABASES := ALL_DATABASES w;
             ALL_DATABASES_LOCKSYSTEMS := ALL_DATABASES_LOCKSYSTEMS w;
             database_objects := store_set (database_objects w) r db';
             database_count := database_count w;
             locksystem_objects := locksystem_objects w;
             locksystem_count := locksystem_count w |} |}).

(** Runs a computation on the object [self.lock_system]. *)
Definition on_lock_system {A : Type} (m : M LockSystem.t A) : M state A :=
  fun st =>
    let w := globals st in
    let r := lock_system (self st) in
    let '(a, ls') := m (locksystem_objects w r) in
    (a,
     {| self := self st;
        globals :=
          {| ALL_DATABASES := ALL_DATABASES w;
             ALL_DATABASES_LOCKSYSTEMS := ALL_DATABASES_LOCKSYSTEMS w;
             database_objects := database_objects w;
             database_count := database_count w;
             locksystem_objects := store_set (locksystem_objects w) r ls';
             locksystem_count := locksystem_count w |} |}).

(** [self.lock_system.add_lock(lock_type, current_lock)]. *)
Definition add_lock (lock_type : lock) (current_lock : option lock)
  : M state bool :=
  on_lock_system (fun ls =>
    match LockSystem.add_lock ls lock_type current_lock with
    | Ok (b, ls') => (Ok b, ls')
    | Raise e => (Raise e, ls)
    end).

(** [self.lock_system.remove_lock(lock_type)]. *)
Definition remove_lock (lock_type : option lock) : M state unit :=
  on_lock_system (modify (fun ls => LockSystem.remove_lock ls lock_type)).

(** [if c: body]. *)
Definition when {S : Type} (c : bool) (body : M S unit) : M S unit :=
  if c then body else ret tt.

(** What [lock_check] does once it has read the transaction mode and the
    lock of the connection. *)
Definition lock_transition (tmode : option mode) (held : option lock)
    (act : action) : M state unit :=
  (match tmode with
   | None =>
       match act with
       | Read =>
           ok <- add_lock LShared held ;;
           when ok (set_transaction_lock (Some LShared) ;;;
                    r <- committed_database ;;
                    set_database r)
       | Write =>
           ok <- add_lock LExclusive held ;;
           when ok (set_transaction_lock (Some LExclusive) ;;;
                    r <- committed_database ;;
                    r' <- deepcopy r ;;
                    set_database r')
       | Commit =>
           ok <- add_lock LExclusive held ;;
           when ok (set_transaction_lock (Some LExclusive) ;;;
                    remove_lock (Some LExclusive) ;;;
                    set_transaction_lock None ;;;
                    publish_database)
       | Relinquish =>
           remove_lock held ;;;
           set_transaction_lock None
       end
   | Some DEFERRED =>
       match act with
       | Read =>
           match held with
           | Some _ => ret tt
           | None =>
               ok <- add_lock LShared held ;;
               when ok (set_transaction_lock (Some LShared))
           end
       | Write =>
           ok <- add_lock LReserved held ;;
           when ok (set_transaction_lock (Some LReserved))
       | _ => ret tt
       end
   | Some IMMEDIATE =>
       match act with
       | Read => ret tt
       | Write =>
           match held with
           | Some LExclusive => ret tt
           | _ =>
               ok <- add_lock LReserved held ;;
               when ok (set_transaction_lock (Some LReserved))
           end
       | _ => ret tt
       end
   | Some EXCLUSIVE => ret tt
   end)%M.

Definition lock_check (act : action) : M state unit :=
  (tmode <- get_transaction_mode ;;
   held <- get_transaction_lock ;;
   lock_transition tmode held act)%M.

(** *** select *)

(** An entry of [columns_index]: a position in the row, or the string
    ["*"]. *)
Inductive column_ref : Type := Col (index : Z) | Star.

(** The rows of [table] that pass the condition, as tuples of cells. *)
Fixpoint matching_rows (table : Table.t) (rows : list Row.t)
    (conditions : option (list value)) (op val : value)
  : res (list (list value)) :=
  match rows with
  | [] => Ok []
  | row :: rows' =>
      (keep <-
         match conditions with
         | None => Ok true
         | Some conditions =>
             column_name <- py_index conditions 0 ;;
             column_index <- list_index column_name (Table.column_names table)
                               None None ;;
             Row.check_row row column_name column_index op val
         end ;;
       rest <- matching_rows table rows' conditions op val ;;
       Ok (if (keep : bool) then Row.data row :: rest else rest))%res
  end.

(** [[table.get_column_index(name) for name in order
      if name in table.column_names]]. *)
Fixpoint order_indices_of (table : Table.t) (order : list value)
  : res (list Z) :=
  match order with
  | [] => Ok []
  | name :: order' =>
      if py_in name (Table.column_names table) then
        (i <- Table.get_column_index table name ;;
         rest <- order_indices_of table order' ;;
         Ok (i :: rest))%res
      else order_indices_of table order'
  end.

(** The sort key of a record: [itemgetter(i)] gives the cell,
    [itemgetter(i, j)] a pair of cells. *)
Definition sort_key (order_indices : list Z) (record : list value)
  : res value :=
  match order_indices with
  | [i] => py_index record i
  | _ =>
      (i <- py_index order_indices 0 ;;
       j <- py_index order_indices 1 ;;
       a <- py_index record i ;;
       b <- py_index record j ;;
       Ok (VTuple [a; b]))%res
  end.

Fixpoint sort_keys (order_indices : list Z) (records : list (list value))
  : res (list (value * list value)) :=
  match records with
  | [] => Ok []
  | record :: records' =>
      (k <- sort_key order_indices record ;;
       rest <- sort_keys order_indices records' ;;
       Ok ((k, record) :: rest))%res
  end.

(** [list.sort] is a stable sort that compares keys with [<] only.  It is
    modelled by an insertion sort: the element that came first goes before
    every element that is not smaller than it.  A comparison of two keys
    that Python does not order raises [TypeError]. *)
Fixpoint insert_by_key (x : value * list value) (sorted : list (value * list value))
  : res (list (value * list value)) :=
  match sorted with
  | [] => Ok [x]
  | y :: sorted' =>
      (lt <- py_ord OpLt (fst y) (fst x) ;;
       if (lt : bool) then
         rest <- insert_by_key x sorted' ;;
         Ok (y :: rest)
       else Ok (x :: sorted))%res
  end.

Fixpoint stable_sort (l : list (value * list value))
  : res (list (value * list value)) :=
  match l with
  | [] => Ok []
  | x :: l' => (sorted <- stable_sort l' ;; insert_by_key x sorted)%res
  end.

(** [result.sort(key=itemgetter(...), reverse=rev)]: with [reverse] the
    list is reversed before and after, so that equal keys keep their
    order. *)
Definition sort_records (order_indices : list Z) (rev_order : bool)
    (records : list (list value)) : res (list (list value)) :=
  (match order_indices with
   | [_] => Ok tt
   | _ => _ <- py_index order_indices 0 ;;
          _ <- py_index order_indices 1 ;; Ok tt
   end ;;;
   keyed <- sort_keys order_indices records ;;
   if rev_order then
     sorted <- stable_sort (rev keyed) ;;
     Ok (map snd (rev sorted))
   else
     sorted <- stable_sort keyed ;;
     Ok (map snd sorted))%res.

(** The indices of the columns to show: [columns_index]. *)
Fixpoint columns_index_of (table : Table.t) (columns : list value)
  : res (list column_ref) :=
  match columns with
  | [] => Ok []
  | name :: columns' =>
      if py_in name (Table.column_names table) then
        (i <- list_index name (Table.column_names table) None None ;;
         rest <- columns_index_of table columns' ;;
         Ok (Col i :: rest))%res
      else
        (star <- py_contains name (VStr "*") ;;
         rest <- columns_index_of table columns' ;;
         Ok (if (star : bool) then Star :: rest else rest))%res
  end.

(** The body of the inner loop over [columns_index]: what one entry adds
    to [slimmed_record], and the set of values of the DISTINCT column seen
    so far. *)
Definition slim_cell (table : Table.t) (distinct : option (list value))
    (record : list value) (index : column_ref)
    (acc : list value * list value) : res (list value * list value) :=
  let '(slimmed_record, distinct_column_set) := acc in
  match index with
  | Col i =>
      (is_distinct <-
         match distinct with
         | None => Ok false
         | Some distinct =>
             name <- py_index (Table.column_names table) i ;;
             d <- py_index distinct 0 ;;
             Ok (py_eq name d)
         end ;;
       cell <- py_index record i ;;
       if (is_distinct : bool) then
         if negb (py_in cell distinct_column_set)
         then Ok (slimmed_record ++ [cell], distinct_column_set ++ [cell])
         else Ok (slimmed_record, distinct_column_set)
       else Ok (slimmed_record ++ [cell], distinct_column_set))%res
  | Star =>
      (is_distinct <-
         match distinct with
         | None => Ok false
         | Some distinct =>
             d <- py_index distinct 0 ;;
             Ok (py_eq (VStr "*") d)
         end ;;
       if (is_distinct : bool) then
         if negb (py_in (VTuple record) distinct_column_set)
         then Ok (slimmed_record ++ [VTuple record],
                  distinct_column_set ++ [VTuple record])
         else Ok (slimmed_record, distinct_column_set)
       else Ok (slimmed_record ++ record, distinct_column_set))%res
  end.

Fixpoint slim_record (table : Table.t) (distinct : option (list value))
    (record : list value) (columns_index : list column_ref)
    (acc : list value * list value) : res (list value * list value) :=
  match columns_index with
  | [] => Ok acc
  | index :: columns_index' =>
      (acc' <- slim_cell table distinct record index acc ;;
       slim_record table distinct record columns_index' acc')%res
  end.

(** The outer loop: [slimmed_result], given the set of values seen by the
    records before. *)
Fixpoint slim_result (table : Table.t) (distinct : option (list value))
    (columns_index : list column_ref) (result : list (list value))
    (distinct_column_set : list value) : res (list value) :=
  match result with
  | [] => Ok []
  | record :: result' =>
      (out <- slim_record table distinct record columns_index
                ([], distinct_column_set) ;;
       let '(slimmed_record, distinct_column_set') := out in
       rest <- slim_result table distinct columns_index result'
                 distinct_column_set' ;;
       Ok (match slimmed_record with
           | [] => rest
           | _ => VTuple slimmed_record :: rest
           end))%res
  end.

(** [self.select(table, columns, distinct, conditions, order)]: a list
    of tuples. *)
Definition select (table : Table.t) (columns : list value)
    (distinct conditions order : option (list value)) : res (list value) :=
  (opval <-
     match conditions with
     | Some ((_ :: _) as conditions) => condition_op conditions
     | _ => Ok (VNone, VNone)
     end ;;
   let '(op, val) := opval in
   match columns with
   | [] => Ok []
   | _ =>
       result <- matching_rows table (Table.rows table) conditions op val ;;
       result <-
         match order with
         | Some ((_ :: _) as order) =>
             order_indices <- order_indices_of table order ;;
             sort_records order_indices (py_in (VStr "DESC") order) result
         | _ => Ok result
         end ;;
       columns_index <- columns_index_of table columns ;;
       slim_result table distinct columns_index result []
   end)%res.

(** *** update_table and delete_from

    Both methods work on a table object of [self.database]; they are
    computations on that table. *)

(** [for value in values: row.update_row(table.get_column_index(value[0]),
    value[1])] on one row. *)
Definition assign_values (table : Table.t)
    (values : option (list (value * value))) : M Row.t unit :=
  match values with
  | None => raise (Builtin TypeError)
  | Some values =>
      for_each values (fun value =>
        (index <- lift (Table.get_column_index table (fst value)) ;;
         fun row => match Row.update_row row index (snd value) with
                    | Ok row' => (Ok tt, row')
                    | Raise e => (Raise (Builtin e), row)
                    end)%M)
  end.

(** Updates in place the rows that are marked; the rows before the one
    that raises keep their new cells. *)
Fixpoint assign_rows (table : Table.t) (values : option (list (value * value)))
    (marks : list bool) : M (list Row.t) unit :=
  fun rows =>
    match rows, marks with
    | row :: rows', mark :: marks' =>
        if mark then
          match assign_values table values row with
          | (Ok _, row') =>
              let '(r, rows'') := assign_rows table values marks' rows' in
              (r, row' :: rows'')
          | (Raise e, row') => (Raise e, row' :: rows')
          end
        else
          let '(r, rows'') := assign_rows table values marks' rows' in
          (r, row :: rows'')
    | _, _ => (Ok tt, rows)
    end.

(** [[row.check_row(column_name, column_index, op, val) for row in rows]]. *)
Fixpoint check_rows (rows : list Row.t) (column_name : value)
    (column_index : Z) (op val : value) : res (list bool) :=
  match rows with
  | [] => Ok []
  | row :: rows' =>
      (b <- Row.check_row row column_name column_index op val ;;
       rest <- check_rows rows' column_name column_index op val ;;
       Ok (b :: rest))%res
  end.

(** The rows that a condition of [update_table] or [delete_from] selects. *)
Definition condition_marks (table : Table.t) (conditions : list value)
  : res (list bool) :=
  (column_name <- py_index conditions 0 ;;
   column_index <- Table.get_column_index table column_name ;;
   opval <- condition_op conditions ;;
   check_rows (Table.rows table) column_name column_index (fst opval) (snd opval))%res.

Definition update_table (values : option (list (value * value)))
    (conditions : option (list value)) : M Table.t unit :=
  fun table =>
    if Table.size table =? 0 then (Ok tt, table)
    else
      match (match conditions with
             | None => Ok (map (fun _ => true) (Table.rows table))
             | Some conditions => condition_marks table conditions
             end) with
      | Raise e => (Raise (Builtin e), table)
      | Ok marks =>
          let '(r, rows') := assign_rows table values marks (Table.rows table) in
          (r, Table.with_rows table rows' (Table.size table))
      end.

Definition delete_from (conditions : option (list value)) : M Table.t unit :=
  fun table =>
    if Table.size table =? 0 then (Ok tt, table)
    else
      match conditions with
      | None => (Ok tt, Table.with_rows table [] 0)
      | Some conditions =>
          match condition_marks table conditions with
          | Raise e => (Raise (Builtin e), table)
          | Ok marks =>
              let rows_to_remove :=
                map snd (List.filter fst (combine marks (Table.rows table))) in
              (Ok tt, fold_left Table.remove_row rows_to_remove table)
          end
      end.

(** *** execute *)

Definition keywords : list value :=
  map VStr ["CREATE"; "SELECT"; "INSERT"; "DELETE"; "FROM"; "ORDER"; "GROUP"; "WHERE"].
Definition aggregate_keywords : list string := ["MAX"; "MIN"].

(** What [execute] returns: [None], or a list of tuples. *)
Definition rows_result : Type := option (list value).

(** [if self.transaction_mode is None: self.lock_check(act)]. *)
Definition in_autocommit (act : action) : M state unit :=
  (tmode <- get_transaction_mode ;;
   match tmode with
   | None => lock_check act
   | Some _ => ret tt
   end)%M.

(** The object [self.database], read. *)
Definition get_database : M state Database.t :=
  fun st => (Ok (database_objects (globals st) (database (self st))), st).

(** [name in self.database.tables]. *)
Definition table_exists (name : value) : M state bool :=
  (db <- get_database ;; ret (dict_mem name (Database.tables db)))%M.

(** [self.database.tables[name]], read. *)
Definition get_table (name : value) : M state Table.t :=
  (db <- get_database ;; lift (dict_lookup name (Database.tables db)))%M.

(** Lifts a method of [Database] that returns the updated object. *)
Definition database_method (f : Database.t -> res Database.t) : M state unit :=
  on_database (fun db => match f db with
                         | Ok db' => (Ok tt, db')
                         | Raise e => (Raise (Builtin e), db)
                         end).

(** Lifts a method of [Table] likewise. *)
Definition table_method (f : Table.t -> res Table.t) : M Table.t unit :=
  fun table => match f table with
               | Ok table' => (Ok tt, table')
               | Raise e => (Raise (Builtin e), table)
               end.

(** [list(row)]. *)
Definition py_list (row : value) : res (list value) :=
  match row with
  | VTuple l => Ok l
  | VStr s => Ok (map (fun c => VStr (String c EmptyString)) (list_ascii_of_string s))
  | _ => Raise TypeError
  end.

(** [for row in result: view.insert_row(list(row), None)]. *)
Definition materialize (result : rows_result) : M Table.t unit :=
  match result with
  | None => raise (Builtin TypeError)
  | Some result =>
      for_each result (fun row =>
        (row_list <- lift (py_list row) ;;
         table_method (fun view => Table.insert_row view (inr row_list) None))%M)
  end.

(** What the BEGIN branch does for a mode that it supports: the
    connection gets its own copy of the committed database, and the lock
    that the mode asks for, if any. *)
Definition begin_with (tmode : mode) (lock_type : option lock)
  : M state rows_result :=
  (r <- committed_database ;;
   r' <- deepcopy r ;;
   set_database r' ;;;
   set_transaction_mode (Some tmode) ;;;
   match lock_type with
   | None => set_transaction_lock None
   | Some l =>
       ok <- add_lock l None ;;
       when ok (set_transaction_lock (Some l))
   end ;;;
   ret None)%M.

(** The BEGIN branch. *)
Definition execute_begin (tokens : list value) : M state rows_result :=
  (tmode <- get_transaction_mode ;;
   match tmode with
   | Some _ =>
       raise (Exception
         "Beginning transaction attempted within an open transaction!")
   | None =>
       m <- lift (py_index tokens 1) ;;
       if py_eq m (VStr "DEFERRED") || py_eq m (VStr "TRANSACTION") then
         begin_with DEFERRED None
       else if py_eq m (VStr "IMMEDIATE") then
         begin_with IMMEDIATE (Some LReserved)
       else if py_eq m (VStr "EXCLUSIVE") then
         begin_with EXCLUSIVE (Some LExclusive)
       else
         raise (Exception "Transaction mode attempted is one not supported!")
   end)%M.

(** What the COMMIT branch does within a transaction, by the lock that
    the connection holds. *)
Definition commit_transaction : M state rows_result :=
  (held <- get_transaction_lock ;;
   match held with
   | None =>
       set_transaction_mode None ;;;
       r <- committed_database ;;
       set_database r
   | Some LShared =>
       remove_lock held ;;;
       set_transaction_lock None ;;;
       set_transaction_mode None ;;;
       r <- committed_database ;;
       set_database r
   | Some LReserved =>
       ok <- add_lock LExclusive held ;;
       when ok (set_transaction_lock (Some LExclusive) ;;;
                remove_lock (Some LExclusive) ;;;
                set_transaction_lock None ;;;
                set_transaction_mode None ;;;
                publish_database)
   | Some LExclusive =>
       remove_lock held ;;;
       set_transaction_lock None ;;;
       set_transaction_mode None ;;;
       publish_database
   end ;;;
   ret None)%M.

(** The COMMIT branch. *)
Definition execute_commit : M state rows_result :=
  (tmode <- get_transaction_mode ;;
   match tmode with
   | None =>
       raise (Exception
         "Committing transaction attempted without a prior BEGIN TRANSACTION")
   | Some _ => commit_transaction
   end)%M.

(** What the ROLLBACK branch does within a transaction. *)
Definition rollback_transaction : M state rows_result :=
  (held <- get_transaction_lock ;;
   remove_lock held ;;;
   set_transaction_lock None ;;;
   set_transaction_mode None ;;;
   r <- committed_database ;;
   set_database r ;;;
   ret None)%M.

(** The ROLLBACK branch. *)
Definition execute_rollback : M state rows_result :=
  (tmode <- get_transaction_mode ;;
   match tmode with
   | None =>
       raise (Exception
         "Rolling back transaction attempted outside of manual transaction")
   | Some _ => rollback_transaction
   end)%M.

(** The CREATE TABLE branch. *)
Definition execute_create_table (tokens : list value) : M state rows_result :=
  (lock_check Write ;;;
   guarded <- lift (and_then (tok_is tokens 2 "IF")
                     (and_then (tok_is tokens 3 "NOT")
                               (tok_is tokens 4 "EXISTS"))) ;;
   table_name <- lift (py_index tokens (if (guarded : bool) then 5 else 2)) ;;
   present <- table_exists table_name ;;
   if (present : bool) then
     if guarded then ret None
     else raise (Exception "Trying to create a pre-existing table")
   else
     at_name <- lift (list_index table_name tokens None None) ;;
     let schema_begin := at_name + 2 in
     let schema_end := -2 in
     let schema := py_slice tokens (Some schema_begin) (Some schema_end) in
     database_method (fun db => Database.add_table db table_name schema) ;;;
     in_autocommit Commit ;;;
     ret None)%M.

(** The DROP TABLE branch. *)
Definition execute_drop_table (tokens : list value) : M state rows_result :=
  (lock_check Write ;;;
   guarded <- lift (and_then (tok_is tokens 2 "IF") (tok_is tokens 3 "EXISTS")) ;;
   table_name <- lift (py_index tokens (if (guarded : bool) then 4 else 2)) ;;
   present <- table_exists table_name ;;
   if negb present then
     if guarded then ret None
     else raise (Exception "Trying to drop a table that is not in the database")
   else
     database_method (fun db => Database.remove_table db table_name) ;;;
     in_autocommit Commit ;;;
     ret None)%M.

(** The loop of the INSERT branch over the parenthesised entries.  Each
    turn moves [entry_start] to a later opening parenthesis, so the number
    of tokens bounds the number of turns. *)
Fixpoint insert_entries (fuel : nat) (tokens : list value)
    (columns_to_insert : option (list value))
    (values_end entry_start entry_end : Z) : M Table.t unit :=
  match fuel with
  | O => raise (Builtin NonTermination)
  | S fuel' =>
      if entry_start <? values_end then
        (let value_entry :=
           without "(" (without ","
             (py_slice tokens (Some entry_start) (Some entry_end))) in
         table_method (fun table =>
           Table.insert_row table (inr value_entry) columns_to_insert) ;;;
         if negb (py_in (VStr "(") (py_slice tokens (Some entry_end) None))
         then ret tt
         else
           entry_start <- lift (list_index (VStr "(") tokens (Some entry_end) None) ;;
           entry_end <- lift (list_index (VStr ")") tokens (Some entry_start) None) ;;
           insert_entries fuel' tokens columns_to_insert
             values_end entry_start entry_end)%M
      else ret tt
  end.

(** The INSERT branch after [table = self.database.tables[table_name]]. *)
Definition insert_into (tokens : list value) : M Table.t unit :=
  (values_index <- lift (list_index (VStr "VALUES") tokens None None) ;;
   before <- lift (py_index tokens (values_index - 1)) ;;
   if py_eq before (VStr "DEFAULT") then
     table_method (fun table => Table.insert_row table (inl "DEFAULT") None)
   else
     columns_to_insert <-
       (if negb (values_index - 3 =? 0) then
          at_open <- lift (list_index (VStr "(") tokens (Some 2) None) ;;
          let cols_start := at_open + 1 in
          cols_end <- lift (list_index (VStr ")") tokens
                              (Some cols_start) (Some values_index)) ;;
          ret (Some (without ","
                 (py_slice tokens (Some cols_start) (Some cols_end))))
        else ret None) ;;
     values_end <- lift (list_index (VStr ";") tokens (Some values_index) None) ;;
     at_open <- lift (list_index (VStr "(") tokens (Some values_index) None) ;;
     let entry_start := at_open + 1 in
     entry_end <- lift (list_index (VStr ")") tokens (Some entry_start) None) ;;
     insert_entries (S (List.length tokens)) tokens columns_to_insert
       values_end entry_start entry_end)%M.

Definition execute_insert (tokens : list value) : M state rows_result :=
  (lock_check Write ;;;
   table_name <- lift (py_index tokens 2) ;;
   on_database (on_table table_name (insert_into tokens)) ;;;
   in_autocommit Commit ;;;
   ret None)%M.

(** The tokens of a WHERE clause that runs to the end of the statement. *)
Definition where_conditions (tokens : list value) : res (list value) :=
  (where_index <- list_index (VStr "WHERE") tokens None None ;;
   Ok (without "," (py_slice tokens (Some (where_index + 1)) (Some (-1)))))%res.

(** The DELETE branch. *)
Definition execute_delete (tokens : list value) : M state rows_result :=
  (lock_check Write ;;;
   table_name <- lift (py_index tokens 2) ;;
   conditions <-
     (if py_in (VStr "WHERE") (py_slice tokens (Some 1) None)
      then c <- lift (where_conditions tokens) ;; ret (Some c)
      else ret None) ;;
   on_database (on_table table_name (delete_from conditions)) ;;;
   in_autocommit Commit ;;;
   ret None)%M.

(** [set_pairs]: the tokens of a SET clause taken two by two. *)
Fixpoint set_pairs (set_values : list value) : res (list (value * value)) :=
  match set_values with
  | [] => Ok []
  | [_] => Raise IndexError
  | col :: val :: set_values' =>
      (rest <- set_pairs set_values' ;; Ok ((col, val) :: rest))%res
  end.

(** The UPDATE branch after [table = self.database.tables[table_name]]. *)
Definition update_with (tokens : list value) : M Table.t unit :=
  (end_index <- lift (list_index (VStr ";") tokens None None) ;;
   has_where <- ret (py_in (VStr "WHERE") (py_slice tokens (Some 1) (Some end_index))) ;;
   where_index <- (if (has_where : bool)
                   then lift (list_index (VStr "WHERE") tokens None None)
                   else ret end_index) ;;
   conditions <- (if has_where
                  then c <- lift (where_conditions tokens) ;; ret (Some c)
                  else ret None) ;;
   let end_index := where_index in
   set_values <-
     (if py_in (VStr "SET") (py_slice tokens (Some 1) (Some end_index)) then
        set_index <- lift (list_index (VStr "SET") tokens None None) ;;
        pairs <- lift (set_pairs (without "=" (without ","
                   (py_slice tokens (Some (set_index + 1)) (Some end_index))))) ;;
        ret (Some pairs)
      else ret None) ;;
   update_table set_values conditions)%M.

Definition execute_update (tokens : list value) : M state rows_result :=
  (lock_check Write ;;;
   table_name <- lift (py_index tokens 1) ;;
   on_database (on_table table_name (update_with tokens)) ;;;
   in_autocommit Commit ;;;
   ret None)%M.

(** The columns to display of a join:
    [for column in statement_tokens[1:join_key_start - 2]]. *)
Fixpoint join_columns (table1_name table2_name : value) (shown : list value)
  : res (list value) :=
  match shown with
  | [] => Ok []
  | column :: shown' =>
      (in1 <- py_contains table1_name column ;;
       in2 <- (if (in1 : bool) then Ok true else py_contains table2_name column) ;;
       if (in2 : bool) then
         rest <- join_columns table1_name table2_name shown' ;;
         Ok (column :: rest)
       else if py_eq column (VStr ",") then
         join_columns table1_name table2_name shown'
       else
         star <- py_contains (VStr "*") column ;;
         if (star : bool) then
           rest <- join_columns table1_name table2_name shown' ;;
           Ok (column :: rest)
         else Raise AttributeError)%res
  end.

(** [for col_name in table.schema:
      joined_table.add_column(table.name + "." + col_name, col_type)]. *)
Fixpoint add_qualified_columns (table : Table.t) (col_names : list value)
    (joined_table : Table.t) : res Table.t :=
  match col_names with
  | [] => Ok joined_table
  | col_name :: col_names' =>
      (col_type <- dict_lookup col_name (Table.schema table) ;;
       prefix <- py_concat (Table.name table) (VStr ".") ;;
       qualified <- py_concat prefix col_name ;;
       add_qualified_columns table col_names'
         (Table.add_column joined_table qualified col_type))%res
  end.

(** [[row.data[comparator] for row in rows]]. *)
Fixpoint key_cells (rows : list Row.t) (comparator : Z) : res (list value) :=
  match rows with
  | [] => Ok []
  | row :: rows' =>
      (k <- py_index (Row.data row) comparator ;;
       rest <- key_cells rows' comparator ;;
       Ok (k :: rest))%res
  end.

(** The rows of the second table whose key is among [primary_keys]. *)
Fixpoint foreign_rows_of (rows : list Row.t) (comparator : Z)
    (primary_keys : list value) : res (list Row.t) :=
  match rows with
  | [] => Ok []
  | row :: rows' =>
      (k <- py_index (Row.data row) comparator ;;
       rest <- foreign_rows_of rows' comparator primary_keys ;;
       Ok (if py_in k primary_keys then row :: rest else rest))%res
  end.

(** The first foreign row with the given key. *)
Fixpoint first_match (primary_key : value) (foreign_rows : list Row.t)
    (comparator : Z) : res (option Row.t) :=
  match foreign_rows with
  | [] => Ok None
  | foreign_row :: foreign_rows' =>
      (k <- py_index (Row.data foreign_row) comparator ;;
       if py_eq primary_key k then Ok (Some foreign_row)
       else first_match primary_key foreign_rows' comparator)%res
  end.

(** The loop that fills the joined table, one row per row of the first
    table. *)
Fixpoint join_rows (rows1 foreign_rows : list Row.t)
    (table1_comparator table2_comparator width2 : Z) (joined_table : Table.t)
  : res Table.t :=
  match rows1 with
  | [] => Ok joined_table
  | row :: rows1' =>
      (primary_key <- py_index (Row.data row) table1_comparator ;;
       found <- first_match primary_key foreign_rows table2_comparator ;;
       let joined_row :=
         match found with
         | Some foreign_row => Row.data row ++ Row.data foreign_row
         | None => Row.data row ++ repeat VNone (Z.to_nat width2)
         end in
       joined_table <- Table.insert_row joined_table (inr joined_row) None ;;
       join_rows rows1' foreign_rows table1_comparator table2_comparator
         width2 joined_table)%res
  end.

(** The joined table of the LEFT OUTER JOIN branch. *)
Definition build_joined_table (table1_name table2_name : value)
    (table1 table2 : Table.t) (on_conditions : list value) : res Table.t :=
  (joined_table <- Table.init (VStr "JoinedTable") [] ;;
   joined_table <- add_qualified_columns table1
                     (dict_keys (Table.schema table1)) joined_table ;;
   joined_table <- add_qualified_columns table2
                     (dict_keys (Table.schema table2)) joined_table ;;
   on_first <- py_index on_conditions 0 ;;
   col1 <- strip_table table1_name on_first ;;
   table1_comparator <- Table.get_column_index table1 col1 ;;
   on_last <- py_index on_conditions (-1) ;;
   col2 <- strip_table table2_name on_last ;;
   table2_comparator <- Table.get_column_index table2 col2 ;;
   primary_keys <- key_cells (Table.rows table1) table1_comparator ;;
   foreign_rows <- foreign_rows_of (Table.rows table2) table2_comparator
                     primary_keys ;;
   join_rows (Table.rows table1) foreign_rows table1_comparator
     table2_comparator (Table.column_size table2) joined_table)%res.

(** The LEFT OUTER JOIN branch. *)
Definition execute_join (tokens : list value) : M state rows_result :=
  (lock_check Read ;;;
   join_key_start <- lift (list_index (VStr "LEFT") tokens None None) ;;
   join_key_end <- lift (list_index (VStr "JOIN") tokens (Some join_key_start) None) ;;
   table1_name <- lift (py_index tokens (join_key_start - 1)) ;;
   table2_name <- lift (py_index tokens (join_key_end + 1)) ;;
   table1 <- get_table table1_name ;;
   table2 <- get_table table2_name ;;
   on_index <- lift (list_index (VStr "ON") tokens (Some join_key_end) None) ;;
   let on_conditions :=
     condition_tokens keywords
       (py_slice tokens (Some (on_index + 1)) (Some (on_index + 4))) in
   order <-
     (if py_in (VStr "ORDER") (py_slice tokens (Some 1) None) then
        semicolon <- lift (list_index (VStr ";") tokens None None) ;;
        order_index <- lift (list_index (VStr "ORDER") tokens
                               (Some on_index) (Some semicolon)) ;;
        ret (Some (without ","
               (py_slice tokens (Some (order_index + 2)) (Some semicolon))))
      else ret None) ;;
   columns <- lift (join_columns table1_name table2_name
                      (py_slice tokens (Some 1) (Some (join_key_start - 2)))) ;;
   joined_table <- lift (build_joined_table table1_name table2_name
                           table1 table2 on_conditions) ;;
   on_database (modify (fun db => Database.set_joined_table db (Some joined_table))) ;;;
   query_result <- lift (select joined_table columns None None order) ;;
   in_autocommit Relinquish ;;;
   ret (Some query_result))%M.

(** The columns to display of a plain SELECT:
    [for column in statement_tokens[curr_index:from_keyword]]. *)
Fixpoint select_columns (table_name : value) (shown : list value)
  : res (list value) :=
  match shown with
  | [] => Ok []
  | column :: shown' =>
      (qualified <- is_qualified_by table_name column ;;
       if (qualified : bool) then
         stripped <- strip_table table_name column ;;
         rest <- select_columns table_name shown' ;;
         Ok (stripped :: rest)
       else
         rest <- select_columns table_name shown' ;;
         Ok (if negb (py_eq column (VStr ",")) && negb (py_eq column (VStr "DISTINCT"))
             then column :: rest else rest))%res
  end.

(** The columns of an ORDER BY clause, with the table name cut off. *)
Fixpoint order_columns (table_name : value) (order : list value)
  : res (list value) :=
  match order with
  | [] => Ok []
  | column :: order' =>
      (qualified <- is_qualified_by table_name column ;;
       c <- (if (qualified : bool) then strip_table table_name column else Ok column) ;;
       rest <- order_columns table_name order' ;;
       Ok (c :: rest))%res
  end.

(** The aggregate of the statement: the first of [MAX], [MIN] that occurs
    before [FROM]. *)
Fixpoint find_aggregate (tokens : list value) (from_keyword : Z)
    (candidates : list string) : res (option string) :=
  match candidates with
  | [] => Ok None
  | keyword :: candidates' =>
      if py_in (VStr keyword) tokens then
        (aggregate_index <- list_index (VStr keyword) tokens None None ;;
         if aggregate_index <? from_keyword then Ok (Some keyword)
         else find_aggregate tokens from_keyword candidates')%res
      else find_aggregate tokens from_keyword candidates'
  end.

(** [max(l)] and [min(l)]: the first greatest (least) element; [o] is the
    comparison that makes a later element replace the current one. *)
Fixpoint extremum_from (o : ordop) (best : value) (l : list value) : res value :=
  match l with
  | [] => Ok best
  | x :: l' =>
      (better <- py_ord o x best ;;
       extremum_from o (if (better : bool) then x else best) l')%res
  end.

Definition extremum (o : ordop) (l : list value) : res value :=
  match l with
  | [] => Raise ValueError
  | x :: l' => extremum_from o x l'
  end.

(** What the SELECT branch computes from the tokens once the table is at
    hand: the columns, the DISTINCT column, the condition and the order. *)
Definition select_arguments (tokens : list value) (from_keyword : Z)
    (table_name : value)
  : res (list value * option (list value) * option (list value) * option (list value)) :=
  (dc <-
     (if py_in (VStr "DISTINCT") (py_slice tokens None (Some from_keyword)) then
        distinct_index <- list_index (VStr "DISTINCT") tokens None None ;;
        d <- py_index tokens (distinct_index + 1) ;;
        Ok (Some [d], distinct_index)
      else Ok (None, 1)) ;;
   let distinct_columns := fst dc in
   let curr_index := snd dc in
   columns <- select_columns table_name
                (py_slice tokens (Some curr_index) (Some from_keyword)) ;;
   let curr_index := from_keyword in
   cc <-
     (if py_in (VStr "WHERE") (py_slice tokens (Some from_keyword) None) then
        where_index <- list_index (VStr "WHERE") tokens None None ;;
        let conditions :=
          condition_tokens keywords
            (py_slice tokens (Some (where_index + 1)) (Some (where_index + 4))) in
        let curr_index := curr_index + Z.of_nat (List.length conditions) + 1 in
        first <- py_index conditions 0 ;;
        qualified <- is_qualified_by table_name first ;;
        first <- (if (qualified : bool) then strip_table table_name first else Ok first) ;;
        Ok (Some (<[O := first]> conditions), curr_index)
      else Ok (None, curr_index)) ;;
   let conditions := fst cc in
   let curr_index := snd cc in
   order <-
     (if py_in (VStr "ORDER") (py_slice tokens (Some (curr_index + 1)) None) then
        let order_index := py_slice tokens (Some (curr_index + 4)) None in
        let order := without "," (py_slice order_index (Some 0) (Some (-1))) in
        qual_column <- order_columns table_name order ;;
        Ok (Some qual_column)
      else Ok None) ;;
   Ok (columns, distinct_columns, conditions, order))%res.

(** The SELECT branch.  [execute] is the method itself, for the statement
    stored in a view. *)
Definition execute_select (execute : string -> M state rows_result)
    (tokens : list value) : M state rows_result :=
  (lock_check Read ;;;
   from_keyword <- lift (list_index (VStr "FROM") tokens None None) ;;
   table_name <- lift (py_index tokens (from_keyword + 1)) ;;
   table <- get_table table_name ;;
   table <-
     match Table.view table with
     | Some attrs =>
         let table_schema := Table.schema table in
         let view_statement := Table.statement attrs in
         let view_columns := Table.view_columns attrs in
         let view_name := Table.name table in
         result <- execute view_statement ;;
         new_view <- lift (View.init view_name table_name view_columns
                             table_schema view_statement) ;;
         new_view <- lift_outcome (match materialize result new_view with
                           | (Ok _, filled) => Ok filled
                           | (Raise e, _) => Raise e
                           end) ;;
         on_database (modify (fun db =>
           Database.set_table db (Table.name new_view) new_view)) ;;;
         ret new_view
     | None => ret table
     end ;;
   aggregate <- lift (find_aggregate tokens from_keyword aggregate_keywords) ;;
   args <- lift (select_arguments tokens from_keyword table_name) ;;
   let '(columns, distinct_columns, conditions, order) := args in
   query_result <- lift (select table columns distinct_columns conditions order) ;;
   in_autocommit Relinquish ;;;
   match aggregate with
   | Some keyword =>
       if String.eqb keyword "MAX" then
         m <- lift (extremum OpGt query_result) ;; ret (Some [m])
       else if String.eqb keyword "MIN" then
         m <- lift (extremum OpLt query_result) ;; ret (Some [m])
       else ret (Some query_result)
   | None => ret (Some query_result)
   end)%M.

(** The CREATE VIEW branch. *)
Definition execute_create_view (execute : string -> M state rows_result)
    (statement : string) (tokens : list value) : M state rows_result :=
  (lock_check Read ;;;
   view_name <- lift (py_index tokens 2) ;;
   present <- table_exists view_name ;;
   if (present : bool) then raise (Exception "Trying to create a pre-existing view")
   else
     from_index <- lift (list_index (VStr "FROM") tokens None None) ;;
     select_index <- lift (list_index (VStr "SELECT") tokens None None) ;;
     let view_columns :=
       without "," (py_slice tokens (Some (select_index + 1)) (Some from_index)) in
     table_name <- lift (py_index tokens (from_index + 1)) ;;
     let view_statement := str_from statement (str_find "SELECT" statement 0) in
     over_join <- lift (and_then (tok_is tokens (from_index + 2) "LEFT")
                         (and_then (tok_is tokens (from_index + 3) "OUTER")
                                   (tok_is tokens (from_index + 4) "JOIN"))) ;;
     viewed <-
       (if (over_join : bool) then
          result <- execute view_statement ;;
          db <- get_database ;;
          match Database.joined_table db with
          | Some joined => ret (result, Table.name joined, Table.schema joined)
          | None => raise (Builtin AttributeError)
          end
        else
          known <- table_exists table_name ;;
          if negb known then
            raise (Exception "Trying to create view for a table that does not exist")
          else
            result <- execute view_statement ;;
            table <- get_table table_name ;;
            ret (result, table_name, Table.schema table)) ;;
     let '(result, table_name, table_schema) := viewed in
     lock_check Write ;;;
     database_method (fun db =>
       Database.add_view db view_name table_name view_columns table_schema
         view_statement) ;;;
     on_database (on_table view_name (materialize result)) ;;;
     on_database (modify (fun db => Database.set_joined_table db None)) ;;;
     in_autocommit Commit ;;;
     ret None)%M.

(** The statements that [execute] tells apart, in the order of its chain
    of [if] and [elif] tests. *)
Inductive statement_kind : Type :=
| KBegin | KCommit | KRollback
| KCreateTable | KCreateView | KDropTable
| KInsert | KDelete | KUpdate
| KJoin | KSelect
| KOther.

(** The chain of tests itself. *)
Definition classify (tokens : list value) : res statement_kind :=
  (is_begin <- and_then (tok_is tokens 0 "BEGIN")
                        (tok_is tokens (-2) "TRANSACTION") ;;
   if (is_begin : bool) then Ok KBegin else
   is_commit <- and_then (tok_is tokens 0 "COMMIT")
                         (tok_is tokens 1 "TRANSACTION") ;;
   if (is_commit : bool) then Ok KCommit else
   is_rollback <- and_then (tok_is tokens 0 "ROLLBACK")
                           (tok_is tokens 1 "TRANSACTION") ;;
   if (is_rollback : bool) then Ok KRollback else
   is_create_table <- and_then (tok_is tokens 0 "CREATE")
                               (tok_is tokens 1 "TABLE") ;;
   if (is_create_table : bool) then Ok KCreateTable else
   is_create_view <- and_then (tok_is tokens 0 "CREATE")
                              (tok_is tokens 1 "VIEW") ;;
   if (is_create_view : bool) then Ok KCreateView else
   is_drop <- and_then (tok_is tokens 0 "DROP") (tok_is tokens 1 "TABLE") ;;
   if (is_drop : bool) then Ok KDropTable else
   is_insert <- and_then (tok_is tokens 0 "INSERT") (tok_is tokens 1 "INTO") ;;
   if (is_insert : bool) then Ok KInsert else
   is_delete <- and_then (tok_is tokens 0 "DELETE") (tok_is tokens 1 "FROM") ;;
   if (is_delete : bool) then Ok KDelete else
   is_update <- tok_is tokens 0 "UPDATE" ;;
   if (is_update : bool) then Ok KUpdate else
   if py_in (VStr "LEFT") tokens && py_in (VStr "OUTER") tokens
      && py_in (VStr "JOIN") tokens
   then Ok KJoin else
   is_select <- tok_is tokens 0 "SELECT" ;;
   if (is_select : bool) then Ok KSelect else Ok KOther)%res.

(** The branch of each kind of statement; [execute] is the method itself,
    for the branches that call it. *)
Definition run_branch (execute : string -> M state rows_result)
    (statement : string) (tokens : list value) (kind : statement_kind)
  : M state rows_result :=
  match kind with
  | KBegin => execute_begin tokens
  | KCommit => execute_commit
  | KRollback => execute_rollback
  | KCreateTable => execute_create_table tokens
  | KCreateView => execute_create_view execute statement tokens
  | KDropTable => execute_drop_table tokens
  | KInsert => execute_insert tokens
  | KDelete => execute_delete tokens
  | KUpdate => execute_update tokens
  | KJoin => execute_join tokens
  | KSelect => execute_select execute tokens
  | KOther => ret None
  end.

(** [len(statement_tokens) == 0 or statement_tokens[-1] != ";"]. *)
Definition unterminated (tokens : list value) : bool :=
  match tokens with
  | [] => true
  | _ => negb (py_eq (List.last tokens VNone) (VStr ";"))
  end.

(** [self.execute(statement)].  [fuel] bounds the depth of the calls of
    [execute] from within itself (a view over a view over a view ...), as
    the interpreter's recursion limit does. *)
Fixpoint execute (fuel : nat) (statement : string) : M state rows_result :=
  match fuel with
  | O => raise (Builtin RecursionError)
  | S fuel' =>
      (tokens <- lift_outcome (tokenize statement) ;;
       if unterminated tokens then
         raise (AssertionError "Statement is not a valid SQL statement!")
       else
         kind <- lift (classify tokens) ;;
         run_branch (execute fuel') statement tokens kind)%M
  end.

(** [Connection(filename)]: [loaded] is what [read_json_file(filename)]
    returns, or [None] when it raises [FileNotFoundError]. *)
Definition init (filename : string) (loaded : option Database.t)
    (w : world) : t * world :=
  let w :=
    match ALL_DATABASES w !! filename with
    | Some _ => w
    | None =>
        let db := match loaded with
                  | Some db => db
                  | None => Database.init filename
                  end in
        {| ALL_DATABASES := <[filename := database_count w]> (ALL_DATABASES w);
           ALL_DATABASES_LOCKSYSTEMS :=
             <[filename := locksystem_count w]> (ALL_DATABASES_LOCKSYSTEMS w);
           database_objects := store_set (database_objects w) (database_count w) db;
           database_count := S (database_count w);
           locksystem_objects :=
             store_set (locksystem_objects w) (locksystem_count w)
               (LockSystem.init filename);
           locksystem_count := S (locksystem_count w) |}
    end in
  ({| filename := filename;
      database := default O (ALL_DATABASES w !! filename);
      transaction_mode := None;
      transaction_lock := None;
      lock_system := default O (ALL_DATABASES_LOCKSYSTEMS w !! filename) |}, w).

End Connection.

(** The module-level state before any connection is made. *)
Definition empty_world : world :=
  {| ALL_DATABASES := ∅;
     ALL_DATABASES_LOCKSYSTEMS := ∅;
     database_objects := fun _ => Database.init "";
     database_count := O;
     locksystem_objects := fun _ => LockSystem.init "";
     locksystem_count := O |}.

(** [connect(filename)]; the other parameters are ignored by the program. *)
Definition connect (filename : string) (loaded : option Database.t) (w : world)
  : Connection.state :=
  let '(c, w') := Connection.init filename loaded w in
  {| Connection.self := c; Connection.globals := w' |}.

(** Executes statements one after the other on one connection, going on
    after a statement that raises, and returns the state at the end. *)
Definition execute_all (fuel : nat) (statements : list string)
    (st : Connection.state) : Connection.state :=
  fold_left (fun st statement => snd (Connection.execute fuel statement st))
    statements st.

(** The object behind [_ALL_DATABASES[filename]]. *)
Definition committed (w : world) (filename : string) : option Database.t :=
  database_objects w <$> (ALL_DATABASES w !! filename).

(** * Properties *)

(** ** The lock system *)

(** C9.  [add_lock(L, L)], a request for the lock type that the caller
    passes as currently held, returns [True] and leaves the lock system,
    and so its three counters, as it was. *)
Theorem add_lock_held_is_noop :
  forall (ls : LockSystem.t) (L : lock),
    LockSystem.add_lock ls L (Some L) = Ok (true, ls).
Proof.
  intros ls L. unfold LockSystem.add_lock.
  destruct L; reflexivity.
Qed.

(** Several connections on one lock system.  Each connection remembers the
    lock it holds, as [Connection.transaction_lock] does: a successful
    [add_lock] makes the requested lock the one it holds, and it removes
    the lock it holds. *)
Module LockProtocol.

(** [Add c requested pass_held]: connection [c] calls
    [add_lock(requested, current_lock)], where [current_lock] is the lock
    it holds when [pass_held] is set, and is left out otherwise (as in the
    BEGIN branch of [execute]).  [Remove c]: connection [c] calls
    [remove_lock] with the lock it holds. *)
Inductive call : Type :=
| Add (c : nat) (requested : lock) (pass_held : bool)
| Remove (c : nat).

Record t : Type := mk {
  system : LockSystem.t;
  held : nat -> option lock
}.

Definition fresh (database_name : string) : t :=
  {| system := LockSystem.init database_name; held := fun _ => None |}.

Definition set_held (h : nat -> option lock) (c : nat) (l : option lock)
  : nat -> option lock :=
  fun c' => if Nat.eqb c' c then l else h c'.

(** One call; [None] when the call raises. *)
Definition step (s : t) (cl : call) : option t :=
  match cl with
  | Add c requested pass_held =>
      let current_lock := if pass_held then held s c else None in
      match LockSystem.add_lock (system s) requested current_lock with
      | Ok (true, ls') =>
          Some {| system := ls'; held := set_held (held s) c (Some requested) |}
      | _ => None
      end
  | Remove c =>
      Some {| system := LockSystem.remove_lock (system s) (held s c);
              held := set_held (held s) c None |}
  end.

Fixpoint run (calls : list call) (s : t) : option t :=
  match calls with
  | [] => Some s
  | cl :: calls' =>
      match step s cl with
      | Some s' => run calls' s'
      | None => None
      end
  end.

Definition counter (l : lock) (ls : LockSystem.t) : Z :=
  match l with
  | LShared => LockSystem.shared ls
  | LReserved => LockSystem.reserved ls
  | LExclusive => LockSystem.exclusive ls
  end.

Definition holds (l : lock) (o : option lock) : bool :=
  match o with
  | Some l' => lock_eqb l' l
  | None => false
  end.

(** The number of connections among [cs] that hold [l]. *)
Definition holders (l : lock) (h : nat -> option lock) (cs : list nat) : Z :=
  Z.of_nat (List.length (List.filter (fun c => holds l (h c)) cs)).

(** What the claim states about the counters. *)
Definition counters_ok (ls : LockSystem.t) : Prop :=
  LockSystem.exclusive ls <= 1 /\
  LockSystem.reserved ls <= 1 /\
  (LockSystem.exclusive ls = 1 ->
   LockSystem.shared ls = 0 /\ LockSystem.reserved ls = 0).

(** The invariant behind it: no counter is below the number of
    connections that hold its lock. *)
Definition invariant (s : t) : Prop :=
  (forall l cs, List.NoDup cs -> holders l (held s) cs <= counter l (system s)) /\
  counters_ok (system s).

End LockProtocol.

Section LockProtocolFacts.
Import LockProtocol.

Lemma holders_nonneg l h cs : 0 <= holders l h cs.
Proof. unfold holders. lia. Qed.

Lemma holders_ext l h h' cs :
  (forall c, List.In c cs -> h' c = h c) -> holders l h' cs = holders l h cs.
Proof.
  unfold holders. induction cs as [|c cs IH]; intros Hext; [reflexivity|].
  simpl. rewrite (Hext c) by (left; reflexivity).
  assert (IH' : Z.of_nat (List.length (List.filter (fun c => holds l (h' c)) cs))
                = Z.of_nat (List.length (List.filter (fun c => holds l (h c)) cs))).
  { apply IH. intros c' Hc'. apply Hext. right. exact Hc'. }
  destruct (holds l (h c)); simpl; lia.
Qed.

(** Giving [c] a lock adds at most one holder of it, and none of another. *)
Lemma holders_set_le l h c v cs :
  List.NoDup cs ->
  holders l (set_held h c v) cs
  <= holders l h cs + (if holds l v then 1 else 0).
Proof.
  unfold holders. induction cs as [|c' cs IH]; intros Hnd.
  - simpl. destruct (holds l v); lia.
  - inversion Hnd as [|? ? Hnotin Hnd']; subst.
    simpl. unfold set_held at 1.
    destruct (Nat.eqb c' c) eqn:E.
    + apply Nat.eqb_eq in E. subst c'.
      assert (Hsame : holders l (set_held h c v) cs = holders l h cs).
      { apply holders_ext. intros x Hx. unfold set_held.
        destruct (Nat.eqb x c) eqn:E'; [|reflexivity].
        apply Nat.eqb_eq in E'. subst. contradiction. }
      unfold holders in Hsame.
      destruct (holds l v), (holds l (h c)); simpl; lia.
    + specialize (IH Hnd').
      destruct (holds l (h c')); simpl; lia.
Qed.

(** Taking from [c] the lock it holds leaves one holder less: whatever
    bounds the holders of every duplicate-free list bounds the remaining
    ones by one less. *)
Lemma holders_set_drop l h c v K :
  (forall cs, List.NoDup cs -> holders l h cs <= K) ->
  holds l (h c) = true -> holds l v = false ->
  forall cs, List.NoDup cs -> holders l (set_held h c v) cs <= K - 1.
Proof.
  intros Hbound Hc Hv cs Hnd.
  set (cs' := List.filter (fun x => negb (Nat.eqb x c)) cs).
  assert (Hnd' : List.NoDup (c :: cs')).
  { constructor.
    - unfold cs'. intros Hin. apply List.filter_In in Hin as [_ Hne].
      rewrite Nat.eqb_refl in Hne. discriminate.
    - unfold cs'. apply List.NoDup_filter. exact Hnd. }
  pose proof (Hbound _ Hnd') as Hb.
  unfold holders in Hb. simpl in Hb. rewrite Hc in Hb. simpl in Hb.
  assert (Heq : holders l (set_held h c v) cs = holders l h cs').
  { unfold holders. subst cs'. clear Hnd Hnd' Hb. induction cs as [|x cs IH].
    - reflexivity.
    - simpl. unfold set_held at 1. destruct (Nat.eqb x c) eqn:E; simpl.
      + rewrite Hv. exact IH.
      + destruct (holds l (h x)); [|exact IH].
        cbn [List.length]. rewrite !Nat2Z.inj_succ. lia. }
  rewrite Heq. unfold holders. lia.
Qed.

Lemma holds_other l l' : l <> l' -> holds l (Some l') = false.
Proof. intros H. destruct l, l'; simpl; congruence. Qed.

Lemma holds_same l : holds l (Some l) = true.
Proof. destruct l; reflexivity. Qed.

Lemma invariant_fresh name : invariant (fresh name).
Proof.
  split.
  - intros l cs _. unfold holders, fresh. simpl.
    assert (H : List.filter (fun _ : nat => false) cs = []).
    { induction cs; simpl; auto. }
    rewrite H. destruct l; simpl; lia.
  - unfold counters_ok, fresh. simpl. lia.
Qed.

Lemma add_shared_inv ls b ls' :
  LockSystem.add_shared ls = Ok (b, ls') ->
  LockSystem.exclusive ls = 0 /\
  ls' = LockSystem.set_shared ls (LockSystem.shared ls + 1).
Proof.
  unfold LockSystem.add_shared, LockSystem.has_exclusive.
  destruct (LockSystem.exclusive ls =? 0) eqn:E; simpl; [|discriminate].
  intros H. inversion H. apply Z.eqb_eq in E. auto.
Qed.

Lemma add_reserved_inv ls cur b ls' :
  LockSystem.add_reserved ls cur = Ok (b, ls') ->
  LockSystem.reserved ls = 0 /\ LockSystem.exclusive ls = 0 /\
  ls' = (let ls0 := match cur with
                    | Some LShared => LockSystem.remove_shared ls
                    | _ => ls
                    end in
         LockSystem.set_reserved ls0 (LockSystem.reserved ls0 + 1)).
Proof.
  unfold LockSystem.add_reserved, LockSystem.has_reserved,
    LockSystem.has_exclusive.
  destruct (LockSystem.reserved ls =? 0) eqn:E1; simpl; [|discriminate].
  destruct (LockSystem.exclusive ls =? 0) eqn:E2; simpl; [|discriminate].
  intros H. inversion H. apply Z.eqb_eq in E1, E2. auto.
Qed.

Lemma add_exclusive_inv ls cur b ls' :
  LockSystem.add_exclusive ls cur = Ok (b, ls') ->
  LockSystem.exclusive ls = 0 /\ LockSystem.shared ls = 0 /\
  ((LockSystem.reserved ls <> 0 /\ cur = Some LReserved /\
    ls' = LockSystem.set_exclusive
            (LockSystem.set_reserved ls (LockSystem.reserved ls - 1))
            (LockSystem.exclusive ls + 1)) \/
   (LockSystem.reserved ls = 0 /\
    ls' = LockSystem.set_exclusive ls (LockSystem.exclusive ls + 1))).
Proof.
  unfold LockSystem.add_exclusive, LockSystem.has_reserved,
    LockSystem.has_exclusive, LockSystem.has_shared.
  destruct (LockSystem.exclusive ls =? 0) eqn:E1; simpl; [|discriminate].
  destruct (LockSystem.shared ls =? 0) eqn:E2; simpl; [|discriminate].
  apply Z.eqb_eq in E1, E2.
  destruct (LockSystem.reserved ls =? 0) eqn:E3; simpl.
  - apply Z.eqb_eq in E3. intros H. inversion H. auto.
  - apply Z.eqb_neq in E3.
    destruct cur as [[| |]|]; try discriminate.
    intros H. inversion H. split; [assumption|]. split; [assumption|].
    left. auto.
Qed.

(** Every call that returns keeps the invariant. *)
Lemma step_invariant s cl s' :
  invariant s -> step s cl = Some s' -> invariant s'.
Proof.
  intros [Hcount (Hex & Hres & Himp)] Hstep.
  pose proof (Hcount LShared [] (List.NoDup_nil _)) as Hs0.
  pose proof (Hcount LReserved [] (List.NoDup_nil _)) as Hr0.
  pose proof (Hcount LExclusive [] (List.NoDup_nil _)) as He0.
  unfold holders in Hs0, Hr0, He0. simpl in Hs0, Hr0, He0.
  assert (Hone : forall l c, holds l (held s c) = true -> 1 <= counter l (system s)).
  { intros l c Hh.
    pose proof (Hcount l [c] (List.NoDup_cons c (@List.in_nil _ c) (List.NoDup_nil _))) as H1.
    unfold holders in H1. simpl in H1. rewrite Hh in H1. exact H1. }
  destruct cl as [c requested pass_held | c]; simpl in Hstep.
  - (* add_lock *)
    destruct (LockSystem.add_lock (system s) requested
                (if pass_held then held s c else None))
      as [[[|] ls']|] eqn:Hadd; try discriminate.
    inversion Hstep; subst s'; clear Hstep.
    unfold LockSystem.add_lock in Hadd.
    destruct (match (if pass_held then held s c else None) with
              | Some held => lock_eqb held requested
              | None => false
              end) eqn:Hsame.
    + (* the lock requested is the lock held *)
      inversion Hadd; subst ls'; clear Hadd.
      assert (Hc : held s c = Some requested).
      { destruct pass_held; [|discriminate].
        destruct (held s c) as [l0|]; [|discriminate].
        destruct l0, requested; simpl in Hsame; congruence. }
      split; [|unfold counters_ok; simpl; auto].
      intros l cs Hnd. simpl.
      rewrite (holders_ext l (held s)); [apply Hcount; exact Hnd|].
      intros x _. unfold set_held.
      destruct (Nat.eqb x c) eqn:E; [|reflexivity].
      apply Nat.eqb_eq in E. subst x. symmetry. exact Hc.
    + destruct requested.
      * (* shared *)
        apply add_shared_inv in Hadd as [Hx ->].
        split.
        -- intros l cs Hnd. simpl.
           pose proof (holders_set_le l (held s) c (Some LShared) cs Hnd) as Hle.
           pose proof (Hcount l cs Hnd) as Hb.
           destruct l; simpl in *; lia.
        -- unfold counters_ok. simpl. lia.
      * (* reserved *)
        apply add_reserved_inv in Hadd as (Hr & Hx & ->).
        assert (Hcur : (if pass_held then held s c else None) = Some LShared ->
                       holds LShared (held s c) = true).
        { destruct pass_held; [|discriminate]. intros ->. reflexivity. }
        split.
        -- intros l cs Hnd. simpl.
           pose proof (holders_set_le l (held s) c (Some LReserved) cs Hnd) as Hle.
           pose proof (Hcount l cs Hnd) as Hb.
           destruct (if pass_held then held s c else None) as [[| |]|] eqn:Hc;
             destruct l; simpl in *; try lia.
           pose proof (holders_set_drop LShared (held s) c (Some LReserved)
                         (LockSystem.shared (system s))
                         (Hcount LShared) (Hcur eq_refl) eq_refl cs Hnd).
           lia.
        -- unfold counters_ok.
           destruct (if pass_held then held s c else None) as [[| |]|];
             simpl; lia.
      * (* exclusive *)
        apply add_exclusive_inv in Hadd
          as (Hx & Hsh & [(Hr & Hcur & ->) | (Hr & ->)]).
        -- assert (Hc : holds LReserved (held s c) = true).
           { destruct pass_held; [|discriminate]. rewrite Hcur. reflexivity. }
           split.
           ++ intros l cs Hnd. simpl.
              pose proof (holders_set_le l (held s) c (Some LExclusive) cs Hnd) as Hle.
              pose proof (Hcount l cs Hnd) as Hb.
              destruct l; simpl in *; try lia.
              pose proof (holders_set_drop LReserved (held s) c (Some LExclusive)
                            (LockSystem.reserved (system s))
                            (Hcount LReserved) Hc eq_refl cs Hnd).
              lia.
           ++ unfold counters_ok. simpl. lia.
        -- split.
           ++ intros l cs Hnd. simpl.
              pose proof (holders_set_le l (held s) c (Some LExclusive) cs Hnd) as Hle.
              pose proof (Hcount l cs Hnd) as Hb.
              destruct l; simpl in *; lia.
           ++ unfold counters_ok. simpl. lia.
  - (* remove_lock *)
    inversion Hstep; subst s'; clear Hstep.
    destruct (held s c) as [l0|] eqn:Hc.
    + pose proof (Hone l0 c) as H1. rewrite Hc in H1.
      specialize (H1 (holds_same l0)).
      split.
      * intros l cs Hnd. simpl.
        pose proof (holders_set_le l (held s) c None cs Hnd) as Hle.
        pose proof (Hcount l cs Hnd) as Hb.
        assert (Hdrop : holders l0 (set_held (held s) c None) cs
                        <= counter l0 (system s) - 1).
        { apply holders_set_drop; auto.
          rewrite Hc. apply holds_same. }
        destruct l0, l; simpl in *; lia.
      * unfold counters_ok. destruct l0; simpl in *; lia.
    + split; [|unfold counters_ok; simpl; auto].
      intros l cs Hnd. simpl.
      rewrite (holders_ext l (held s)); [apply Hcount; exact Hnd|].
      intros x _. unfold set_held.
      destruct (Nat.eqb x c) eqn:E; [|reflexivity].
      apply Nat.eqb_eq in E. subst x. symmetry. exact Hc.
Qed.

Lemma run_invariant calls : forall s s',
  invariant s -> run calls s = Some s' -> invariant s'.
Proof.
  induction calls as [|cl calls IH]; intros s s' Hinv Hrun; simpl in Hrun.
  - inversion Hrun; subst. exact Hinv.
  - destruct (step s cl) as [s1|] eqn:Hstep; [|discriminate].
    eapply IH; [|exact Hrun]. eapply step_invariant; eauto.
Qed.

End LockProtocolFacts.

(** C2, amended.  From a fresh lock system, after any sequence of calls
    that all return, made by connections that pass to [add_lock] as
    current lock the lock they hold themselves, or none, and that remove
    the lock they hold: [exclusive <= 1], [reserved <= 1], and
    [exclusive = 1] implies [shared = 0] and [reserved = 0].  Without the
    condition on what [add_lock] is passed the counters leave these
    bounds, as the examples after the witness show. *)
Theorem lock_counters_invariant :
  forall (database_name : string) (calls : list LockProtocol.call)
         (s : LockProtocol.t),
    LockProtocol.run calls (LockProtocol.fresh database_name) = Some s ->
    LockSystem.exclusive (LockProtocol.system s) <= 1 /\
    LockSystem.reserved (LockProtocol.system s) <= 1 /\
    (LockSystem.exclusive (LockProtocol.system s) = 1 ->
     LockSystem.shared (LockProtocol.system s) = 0 /\
     LockSystem.reserved (LockProtocol.system s) = 0).
Proof.
  intros database_name calls s Hrun.
  pose proof (run_invariant calls _ _ (invariant_fresh database_name) Hrun)
    as [_ Hok].
  exact Hok.
Qed.

(** Two readers, one of which becomes the writer once the other is gone. *)
Definition lock_trace : list LockProtocol.call :=
  [LockProtocol.Add 0 LShared true; LockProtocol.Add 1 LShared true;
   LockProtocol.Add 0 LReserved true; LockProtocol.Remove 1;
   LockProtocol.Add 0 LExclusive true].

Definition lock_trace_end : LockProtocol.t :=
  match LockProtocol.run lock_trace (LockProtocol.fresh "test.db") with
  | Some s => s
  | None => LockProtocol.fresh "test.db"
  end.

Lemma lock_counters_invariant_witness :
  LockProtocol.run lock_trace (LockProtocol.fresh "test.db")
    = Some lock_trace_end /\
  LockSystem.exclusive (LockProtocol.system lock_trace_end) = 1 /\
  (LockSystem.exclusive (LockProtocol.system lock_trace_end) <= 1 /\
   LockSystem.reserved (LockProtocol.system lock_trace_end) <= 1 /\
   (LockSystem.exclusive (LockProtocol.system lock_trace_end) = 1 ->
    LockSystem.shared (LockProtocol.system lock_trace_end) = 0 /\
    LockSystem.reserved (LockProtocol.system lock_trace_end) = 0)).
Proof.
  split; [reflexivity|]. split; [reflexivity|].
  apply (lock_counters_invariant "test.db" lock_trace lock_trace_end).
  reflexivity.
Defined.

(** The invariant leans on the second argument of [add_lock] being the
    caller's own lock.  A caller that passes ["shared"] without holding it
    takes away the count of the connection that does, and the counters
    leave the invariant when that connection removes its lock. *)
Example borrowed_current_lock_breaks_counters :
  let ls0 := LockSystem.init "test.db" in
  exists ls1 ls2 ls3,
    LockSystem.add_lock ls0 LShared None = Ok (true, ls1) /\
    LockSystem.add_lock ls1 LReserved (Some LShared) = Ok (true, ls2) /\
    LockSystem.add_lock ls2 LExclusive (Some LReserved) = Ok (true, ls3) /\
    LockSystem.exclusive (LockSystem.remove_lock ls3 (Some LShared)) = 1 /\
    LockSystem.shared (LockSystem.remove_lock ls3 (Some LShared)) = -1.
Proof. repeat eexists. Qed.

(** The same calls, told by connection.  Here the second argument of
    [add_lock] is whatever the caller passes, its own lock or not, and a
    connection calls [remove_lock] with the lock it holds, and only when it
    holds one. *)
Inductive free_call : Type :=
| FreeAdd (c : nat) (requested : lock) (current_lock : option lock)
| FreeRemove (c : nat).

Definition free_step (s : LockProtocol.t) (cl : free_call)
  : option LockProtocol.t :=
  match cl with
  | FreeAdd c requested current_lock =>
      match LockSystem.add_lock (LockProtocol.system s) requested current_lock
      with
      | Ok (true, ls') =>
          Some {| LockProtocol.system := ls';
                  LockProtocol.held :=
                    LockProtocol.set_held (LockProtocol.held s) c
                      (Some requested) |}
      | _ => None
      end
  | FreeRemove c =>
      match LockProtocol.held s c with
      | Some l =>
          Some {| LockProtocol.system :=
                    LockSystem.remove_lock (LockProtocol.system s) (Some l);
                  LockProtocol.held :=
                    LockProtocol.set_held (LockProtocol.held s) c None |}
      | None => None
      end
  end.

Fixpoint free_run (calls : list free_call) (s : LockProtocol.t)
  : option LockProtocol.t :=
  match calls with
  | [] => Some s
  | cl :: calls' =>
      match free_step s cl with
      | Some s' => free_run calls' s'
      | None => None
      end
  end.

(** Connection 0 takes the shared lock.  Connection 1, which holds no
    lock, asks for the reserved lock and passes ["shared"] as its current
    lock, then for the exclusive lock, passing ["reserved"], which it now
    holds.  Every [add_lock] returns [True].  Connection 0 then removes
    the shared lock, which it holds: the counters end with
    [exclusive = 1] and [shared = -1]. *)
Example borrowed_lock_breaks_counters_between_connections :
  exists s,
    free_run [FreeAdd 0 LShared None;
              FreeAdd 1 LReserved (Some LShared);
              FreeAdd 1 LExclusive (Some LReserved);
              FreeRemove 0]
      (LockProtocol.fresh "test.db") = Some s /\
    LockSystem.exclusive (LockProtocol.system s) = 1 /\
    LockSystem.shared (LockProtocol.system s) = -1 /\
    ~ LockProtocol.counters_ok (LockProtocol.system s).
Proof.
  eexists. split; [reflexivity|]. split; [reflexivity|].
  split; [reflexivity|].
  intros (_ & _ & H). destruct (H eq_refl) as [Hshared _]. discriminate.
Qed.

(** ** Concrete sessions *)

(** A first connection to a file that does not exist yet. *)
Definition fresh_connection : Connection.state :=
  connect "test.db" None empty_world.

(** What the last of a list of statements returns, the ones before it
    having been executed on the same connection. *)
Definition last_outcome (statements : list string) (statement : string)
  : outcome Connection.rows_result :=
  fst (Connection.execute 3 statement
         (execute_all 3 statements fresh_connection)).

(** ** Row predicates *)

(** What [check_row] answers to [IS] and [IS NOT] in general: the truth
    value of the cell, not whether the cell is [None]. *)
Lemma check_row_is_truthiness :
  forall (row : Row.t) (column_name : value) (column_index : Z) (cell : value),
    py_index (Row.data row) column_index = Ok cell ->
    Row.check_row row column_name column_index (VStr "IS") VNone
      = Ok (negb (truthy cell)) /\
    Row.check_row row column_name column_index (VStr "IS NOT") VNone
      = Ok (truthy cell).
Proof.
  intros row column_name column_index cell Hcell.
  unfold Row.check_row. rewrite Hcell. simpl. split; reflexivity.
Qed.

(** C3.  [IS NULL] matches the cells [0], [0.0] and ['']  although they
    are not null, and [IS NOT NULL] rejects them; a statement with
    [WHERE c IS NULL] returns the row whose cell is [0]. *)
Theorem check_row_is_null_matches_zero :
  let is_null cell :=
    Row.check_row (Row.init [cell]) (VStr "c") 0 (VStr "IS") VNone in
  let is_not_null cell :=
    Row.check_row (Row.init [cell]) (VStr "c") 0 (VStr "IS NOT") VNone in
  is_null (VInt 0) = Ok true /\
  is_null (VReal (F_zero false)) = Ok true /\
  is_null (VStr "") = Ok true /\
  is_not_null (VInt 0) = Ok false /\
  is_not_null (VReal (F_zero false)) = Ok false /\
  is_not_null (VStr "") = Ok false /\
  last_outcome ["CREATE TABLE t (c INTEGER);"; "INSERT INTO t VALUES (0);"]
    "SELECT c FROM t WHERE c IS NULL;" = Ok (Some [VTuple [VInt 0]]).
Proof. repeat split; vm_compute; reflexivity. Qed.

(** ** Inserts *)

(** A table with the two columns [a INTEGER, b INTEGER]. *)
Definition two_column_table : Table.t :=
  {| Table.name := VStr "t";
     Table.schema := [(VStr "a", VStr "INTEGER"); (VStr "b", VStr "INTEGER")];
     Table.column_names := [VStr "a"; VStr "b"];
     Table.default_values := [];
     Table.column_size := 2;
     Table.rows := [];
     Table.size := 0;
     Table.view := None |}.

(** C4.  A positional insert of one value into a table of two columns
    stores a row of one cell: the value list is not padded.  The same is
    seen from SQL, where the row comes back as a tuple of length one. *)
Theorem insert_row_short_list_not_padded :
  Table.init (VStr "t")
    [VStr "a"; VStr "INTEGER"; VStr ","; VStr "b"; VStr "INTEGER"]
    = Ok two_column_table /\
  Table.insert_row two_column_table (inr [VInt 1]) None
    = Ok (Table.with_rows two_column_table [Row.init [VInt 1]] 1) /\
  last_outcome ["CREATE TABLE t (a INTEGER, b INTEGER);";
                "INSERT INTO t VALUES (1);"]
    "SELECT * FROM t;" = Ok (Some [VTuple [VInt 1]]).
Proof. repeat split; vm_compute; reflexivity. Qed.

(** The second half of the claim holds: a value list that is longer than
    the table is wide leaves the table as it is. *)
Lemma insert_row_long_list_dropped :
  forall (table : Table.t) (values : list value)
         (insertion_columns : option (list value)),
    Table.column_size table < Z.of_nat (List.length values) ->
    Table.insert_row table (inr values) insertion_columns = Ok table.
Proof.
  intros table values insertion_columns Hlong.
  unfold Table.insert_row.
  destruct (Z.of_nat (List.length values) >? Table.column_size table) eqn:E;
    [reflexivity|].
  rewrite Z.gtb_ltb in E. apply Z.ltb_ge in E. lia.
Qed.

(** ** Views *)

(** The schema of the join of [names (name TEXT, id INTEGER)] with
    [grades (id INTEGER, grade REAL)]. *)
Definition joined_schema : dict value :=
  [(VStr "names.name", VStr "TEXT"); (VStr "names.id", VStr "INTEGER");
   (VStr "grades.id", VStr "INTEGER"); (VStr "grades.grade", VStr "REAL")].

Definition scenario_tables : list string :=
  ["CREATE TABLE names (name TEXT, id INTEGER);";
   "INSERT INTO names VALUES ('James', 1), ('Yaxin', 3), ('Li', 2), (NULL, 4);";
   "CREATE TABLE grades (id INTEGER, grade REAL);";
   "INSERT INTO grades VALUES (3, 3.0);";
   "INSERT INTO grades VALUES (1, 2.0);";
   "INSERT INTO grades VALUES (2, 3.5);"].

(** C5.  A view over a join whose columns are declared with their table
    names gets an empty schema: the declared names are looked up, as they
    are, among the names with the table cut off.  Selecting from the view
    created by the statement of scenario E6 then yields no row at all. *)
Theorem view_over_join_has_empty_schema :
  (exists view,
     View.init (VStr "v") (VStr "JoinedTable")
       [VStr "names.name"; VStr "grades.grade"] joined_schema
       "SELECT names.name, grades.grade FROM names LEFT OUTER JOIN grades ON names.id = grades.id;"
       = Ok view /\
     Table.schema view = [] /\ Table.column_names view = []) /\
  last_outcome
    (scenario_tables ++
     ["CREATE VIEW v AS SELECT names.name, grades.grade FROM names LEFT OUTER JOIN grades ON names.id = grades.id;"])
    "SELECT * FROM v;" = Ok (Some []).
Proof.
  split.
  - eexists. split; [vm_compute; reflexivity|]. split; reflexivity.
  - vm_compute. reflexivity.
Qed.

(** ** What execute returns *)

(** C6.  A statement that [execute] does not know returns [None], which is
    not a sequence, whatever the state; so do CREATE TABLE, INSERT, BEGIN
    and COMMIT on a fresh connection. *)
Theorem execute_returns_none_not_empty_list :
  (forall (fuel : nat) (st : Connection.state),
     Connection.execute (S fuel) "VACUUM;" st = (Ok None, st)) /\
  last_outcome [] "CREATE TABLE t (c INTEGER);" = Ok None /\
  last_outcome ["CREATE TABLE t (c INTEGER);"] "INSERT INTO t VALUES (1);"
    = Ok None /\
  last_outcome [] "BEGIN TRANSACTION;" = Ok None /\
  last_outcome ["BEGIN TRANSACTION;"] "COMMIT TRANSACTION;" = Ok None /\
  (Ok None : outcome Connection.rows_result) <> Ok (Some []).
Proof.
  repeat split; try (vm_compute; reflexivity).
  discriminate.
Qed.

(** ** Numeric literals *)

(** C8.  The literal [1E5] carries the exponent marker and no point:
    [remove_num] hands it to [int], which raises [ValueError], and the
    statement is not tokenized.  With a point the literal becomes a
    real. *)
Theorem remove_num_exponent_without_point_fails :
  collect_characters "1E5;" (digits ++ "-.E") = "1E5" /\
  remove_num "1E5;" [] = Raise ValueError /\
  tokenize "SELECT 1E5;" = Raise (Builtin ValueError) /\
  (exists f, remove_num "1.0E5;" [] = Ok (";", [VReal f])).
Proof.
  repeat split; try (vm_compute; reflexivity).
  eexists. vm_compute. reflexivity.
Qed.

(** ** DISTINCT *)

Section Distinct.
Import Connection.

Variable table : Table.t.
Variable d : value.

(** The column that an entry of [columns_index] stands for, and the cell
    of a record at that entry. *)
Definition column_at (index : column_ref) : value :=
  match index with
  | Col i => nth (Z.to_nat i) (Table.column_names table) VNone
  | Star => VStr "*"
  end.

Definition cell_at (record : list value) (index : column_ref) : value :=
  match index with
  | Col i => nth (Z.to_nat i) record VNone
  | Star => VTuple record
  end.

(** An entry that names a column of the table which the record has. *)
Definition named_column (record : list value) (index : column_ref) : bool :=
  match index with
  | Col i =>
      (0 <=? i) && (i <? Z.of_nat (List.length (Table.column_names table)))
      && (i <? Z.of_nat (List.length record))
  | Star => false
  end.

(** The projection of a record without the cells of the DISTINCT column. *)
Definition other_cells (record : list value) (columns_index : list column_ref)
  : list value :=
  map (cell_at record)
    (List.filter (fun index => negb (py_eq (column_at index) d)) columns_index).

(** The value of the record in the DISTINCT column is among [seen],
    wherever the projection names that column. *)
Definition already_emitted (record seen : list value) (index : column_ref)
  : bool :=
  if py_eq (column_at index) d then py_in (cell_at record index) seen else true.

Lemma py_index_nth {A : Type} (l : list A) (i : Z) (dflt : A) :
  0 <= i < Z.of_nat (List.length l) ->
  py_index l i = Ok (nth (Z.to_nat i) l dflt).
Proof.
  intros [Hlo Hhi]. unfold py_index. cbv zeta.
  assert (E1 : (i <? 0) = false) by (apply Z.ltb_ge; lia).
  assert (E2 : (Z.of_nat (List.length l) <=? i) = false)
    by (apply Z.leb_gt; lia).
  rewrite !E1, E2. cbn [orb].
  destruct (nth_error l (Z.to_nat i)) as [x|] eqn:E3.
  - f_equal. symmetry. apply List.nth_error_nth. exact E3.
  - apply List.nth_error_None in E3. lia.
Qed.

Lemma slim_record_duplicate :
  forall (record seen : list value) (columns_index : list column_ref)
         (slimmed_record : list value),
    forallb (named_column record) columns_index = true ->
    forallb (already_emitted record seen) columns_index = true ->
    slim_record table (Some [d]) record columns_index (slimmed_record, seen)
      = Ok (slimmed_record ++ other_cells record columns_index, seen).
Proof.
  intros record seen columns_index.
  induction columns_index as [|index columns_index IH];
    intros slimmed_record Hnamed Hseen.
  - simpl. unfold other_cells. simpl. rewrite List.app_nil_r. reflexivity.
  - simpl in Hnamed, Hseen.
    apply andb_prop in Hnamed as [Hn Hnamed].
    apply andb_prop in Hseen as [Hs Hseen].
    destruct index as [i|]; [|discriminate].
    unfold named_column in Hn.
    apply andb_prop in Hn as [Hn Hrec]. apply andb_prop in Hn as [Hlo Hcol].
    apply Z.leb_le in Hlo. apply Z.ltb_lt in Hcol. apply Z.ltb_lt in Hrec.
    cbn [slim_record slim_cell].
    rewrite (py_index_nth (Table.column_names table) i VNone) by lia.
    rewrite (py_index_nth record i VNone) by lia.
    change (py_index [d] 0) with (@Ok builtin_exn value d).
    cbn [res_bind].
    unfold already_emitted in Hs. cbn [column_at cell_at] in Hs.
    unfold other_cells. cbn [List.filter column_at].
    destruct (py_eq (nth (Z.to_nat i) (Table.column_names table) VNone) d) eqn:E.
    + rewrite Hs. cbn [negb map res_bind]. apply IH; assumption.
    + cbn [negb map cell_at res_bind].
      rewrite IH by assumption.
      unfold other_cells. rewrite <- List.app_assoc. reflexivity.
Qed.

End Distinct.

(** One turn of the loop of [select] that slims the records, under
    DISTINCT on a column [d] that the table has, with [seen] the values
    taken so far: a record whose value in the column [d] is among them
    gives the output row made of its other projected cells, in order; the
    row is left out exactly when there is no such cell; and the records
    after it are treated as if it had not been there. *)
Theorem distinct_duplicate_omits_only_its_cell :
  forall (table : Table.t) (d : value) (columns_index : list Connection.column_ref)
         (record : list value) (result : list (list value)) (seen : list value),
    forallb (named_column table record) columns_index = true ->
    forallb (already_emitted table d record seen) columns_index = true ->
    Connection.slim_result table (Some [d]) columns_index (record :: result) seen
    = res_bind
        (Connection.slim_result table (Some [d]) columns_index result seen)
        (fun rest =>
           Ok (match other_cells table d record columns_index with
               | [] => rest
               | cells => VTuple cells :: rest
               end)).
Proof.
  intros table d columns_index record result seen Hnamed Hseen.
  cbn [Connection.slim_result].
  rewrite (slim_record_duplicate table d record seen columns_index [])
    by assumption.
  cbn [res_bind List.app].
  destruct (Connection.slim_result table (Some [d]) columns_index result seen);
    [|reflexivity].
  cbn [res_bind].
  destruct (other_cells table d record columns_index); reflexivity.
Qed.

(** [SELECT DISTINCT a, b] on the rows [(1, 2)] and [(1, 3)]: the second
    row comes out as [(3,)]; under [SELECT DISTINCT a] it does not come
    out. *)
Lemma distinct_duplicate_omits_only_its_cell_witness :
  forallb (named_column two_column_table [VInt 1; VInt 3])
    [Connection.Col 0; Connection.Col 1] = true /\
  forallb (already_emitted two_column_table (VStr "a") [VInt 1; VInt 3] [VInt 1])
    [Connection.Col 0; Connection.Col 1] = true /\
  Connection.slim_result two_column_table (Some [VStr "a"])
    [Connection.Col 0; Connection.Col 1] [[VInt 1; VInt 3]] [VInt 1]
    = Ok [VTuple [VInt 3]].
Proof.
  split; [reflexivity|]. split; [reflexivity|].
  rewrite (distinct_duplicate_omits_only_its_cell two_column_table (VStr "a")
             [Connection.Col 0; Connection.Col 1] [VInt 1; VInt 3] [] [VInt 1]
             eq_refl eq_refl).
  reflexivity.
Defined.

(** The same through SQL. *)
Example select_distinct_two_columns :
  last_outcome ["CREATE TABLE t (a INTEGER, b INTEGER);";
                "INSERT INTO t VALUES (1, 2), (1, 3);"]
    "SELECT DISTINCT a, b FROM t;"
    = Ok (Some [VTuple [VInt 1; VInt 2]; VTuple [VInt 3]]) /\
  last_outcome ["CREATE TABLE t (a INTEGER, b INTEGER);";
                "INSERT INTO t VALUES (1, 2), (1, 3);"]
    "SELECT DISTINCT a FROM t;"
    = Ok (Some [VTuple [VInt 1]]).
Proof. split; vm_compute; reflexivity. Qed.

(** C10.  The DISTINCT column written with the name of its table, [t.a].
    The SELECT branch of [execute] cuts the table name off the projected
    columns, off the column of the condition and off the columns of the
    ordering, and leaves it on the DISTINCT column: [select] is given the
    columns [a], [b] and the DISTINCT column [t.a], which is the name of
    no column of the table.  So nothing is held back: on the rows [(1, 2)]
    and [(1, 3)] the second row comes out whole, where
    [SELECT DISTINCT a, b] gives [(3,)]; and [SELECT DISTINCT t.a] gives
    the value [1] twice, where [SELECT DISTINCT a] gives it once. *)
Theorem select_distinct_qualified_column_omits_nothing :
  (tokens <- tokenize "SELECT DISTINCT t.a, b FROM t;" ;;
   of_res (Connection.select_arguments tokens 5 (VStr "t")))%res
    = Ok ([VStr "a"; VStr "b"], Some [VStr "t.a"], None, None) /\
  last_outcome ["CREATE TABLE t (a INTEGER, b INTEGER);";
                "INSERT INTO t VALUES (1, 2), (1, 3);"]
    "SELECT DISTINCT t.a, b FROM t;"
    = Ok (Some [VTuple [VInt 1; VInt 2]; VTuple [VInt 1; VInt 3]]) /\
  last_outcome ["CREATE TABLE t (a INTEGER, b INTEGER);";
                "INSERT INTO t VALUES (1, 2), (1, 3);"]
    "SELECT DISTINCT t.a FROM t;"
    = Ok (Some [VTuple [VInt 1]; VTuple [VInt 1]]).
Proof. repeat split; vm_compute; reflexivity. Qed.

(** ** Reasoning about stateful computations *)

(** The four exceptions of [execute] about the state of the transaction:
    BEGIN within a transaction, BEGIN with a mode that is not supported,
    COMMIT and ROLLBACK without a transaction. *)
Definition transaction_state_error (e : exn) : bool :=
  match e with
  | Exception msg =>
      existsb (String.eqb msg)
        ["Beginning transaction attempted within an open transaction!";
         "Transaction mode attempted is one not supported!";
         "Committing transaction attempted without a prior BEGIN TRANSACTION";
         "Rolling back transaction attempted outside of manual transaction"]
  | _ => false
  end.

(** The outcome is not a transaction-state error. *)
Definition quiet {A : Type} (r : outcome A) : Prop :=
  match r with
  | Ok _ => True
  | Raise e => transaction_state_error e = false
  end.

(** [triple P m Q X]: from a state in [P], the computation [m] returns in
    a state in [Q], or raises in a state in [X]. *)
Definition triple {S A : Type} (P : S -> Prop) (m : M S A)
    (Q : A -> S -> Prop) (X : exn -> S -> Prop) : Prop :=
  forall s, P s ->
    match m s with
    | (Ok a, s') => Q a s'
    | (Raise e, s') => X e s'
    end.

(** [keeps I m]: the computation [m] keeps the invariant [I], whether it
    returns or raises, and does not raise a transaction-state error. *)
Definition keeps {S A : Type} (I : S -> Prop) (m : M S A) : Prop :=
  triple I m (fun _ s => I s)
    (fun e s => I s /\ transaction_state_error e = false).

Section Rules.
Context {S : Type}.

Lemma triple_bind {A B : Type} (P : S -> Prop) (m : M S A) (k : A -> M S B)
    (Q : A -> S -> Prop) (R : B -> S -> Prop) (X : exn -> S -> Prop) :
  triple P m Q X -> (forall a, triple (Q a) (k a) R X) ->
  triple P (bind m k) R X.
Proof.
  intros Hm Hk s HP. unfold bind. specialize (Hm s HP).
  destruct (m s) as [[a|e] s']; [apply Hk; exact Hm|exact Hm].
Qed.

Lemma triple_weaken {A : Type} (P P' : S -> Prop) (m : M S A)
    (Q Q' : A -> S -> Prop) (X X' : exn -> S -> Prop) :
  triple P' m Q' X' ->
  (forall s, P s -> P' s) ->
  (forall a s, Q' a s -> Q a s) ->
  (forall e s, X' e s -> X e s) ->
  triple P m Q X.
Proof.
  intros Hm HP HQ HX s Hs. specialize (Hm s (HP s Hs)).
  destruct (m s) as [[a|e] s']; auto.
Qed.

(** A fact that does not depend on the state can be taken out of the
    precondition. *)
Lemma triple_assume {A : Type} (fact : Prop) (P : S -> Prop) (m : M S A)
    (Q : A -> S -> Prop) (X : exn -> S -> Prop) :
  (fact -> triple P m Q X) -> triple (fun s => fact /\ P s) m Q X.
Proof. intros H s [Hf HP]. apply H; assumption. Qed.

Lemma triple_ret {A : Type} (P : S -> Prop) (a : A) (X : exn -> S -> Prop) :
  triple P (ret a) (fun a' s => a' = a /\ P s) X.
Proof. intros s HP. simpl. auto. Qed.

Lemma triple_lift {A : Type} (P : S -> Prop) (r : res A) :
  triple P (lift r) (fun a s => r = Ok a /\ P s)
    (fun e s => P s /\ transaction_state_error e = false).
Proof. intros s HP. unfold lift. destruct r; simpl; auto. Qed.

Lemma triple_lift_outcome {A : Type} (P : S -> Prop) (r : outcome A) :
  quiet r ->
  triple P (lift_outcome r) (fun a s => r = Ok a /\ P s)
    (fun e s => P s /\ transaction_state_error e = false).
Proof. intros Hq s HP. unfold lift_outcome. destruct r; simpl in *; auto. Qed.

Lemma keeps_bind {A B : Type} (I : S -> Prop) (m : M S A) (k : A -> M S B) :
  keeps I m -> (forall a, keeps I (k a)) -> keeps I (bind m k).
Proof. intros Hm Hk. unfold keeps. eapply triple_bind; eauto. Qed.

Lemma keeps_ret {A : Type} (I : S -> Prop) (a : A) : keeps I (ret a).
Proof. intros s HI. simpl. exact HI. Qed.

Lemma keeps_raise {A : Type} (I : S -> Prop) (e : exn) :
  transaction_state_error e = false -> keeps I (@raise S A e).
Proof. intros He s HI. simpl. auto. Qed.

Lemma keeps_lift {A : Type} (I : S -> Prop) (r : res A) : keeps I (lift r).
Proof. intros s HI. unfold lift. destruct r; simpl; auto. Qed.

Lemma keeps_lift_outcome {A : Type} (I : S -> Prop) (r : outcome A) :
  quiet r -> keeps I (lift_outcome r).
Proof. intros Hq s HI. unfold lift_outcome. destruct r; simpl in *; auto. Qed.

Lemma keeps_get (I : S -> Prop) : keeps I get.
Proof. intros s HI. simpl. exact HI. Qed.

Lemma keeps_modify (I : S -> Prop) (f : S -> S) :
  (forall s, I s -> I (f s)) -> keeps I (modify f).
Proof. intros Hf s HI. simpl. auto. Qed.

Lemma keeps_when (I : S -> Prop) (c : bool) (body : M S unit) :
  keeps I body -> keeps I (Connection.when c body).
Proof. intros Hb. destruct c; [exact Hb|apply keeps_ret]. Qed.

Lemma keeps_for_each {A : Type} (I : S -> Prop) (l : list A)
    (body : A -> M S unit) :
  (forall x, keeps I (body x)) -> keeps I (for_each l body).
Proof.
  intros Hb. induction l as [|x l IH]; simpl.
  - apply keeps_ret.
  - apply keeps_bind; [apply Hb|intros _; exact IH].
Qed.

(** A computation that keeps [I] keeps it together with any fact about the
    state that the computation cannot touch; here, as a triple. *)
Lemma keeps_triple {A : Type} (I : S -> Prop) (m : M S A)
    (Q : A -> S -> Prop) (X : exn -> S -> Prop) :
  keeps I m ->
  (forall a s, I s -> Q a s) ->
  (forall e s, I s -> transaction_state_error e = false -> X e s) ->
  triple I m Q X.
Proof.
  intros Hm HQ HX s HI. specialize (Hm s HI).
  destruct (m s) as [[a|e] s']; [auto|destruct Hm; auto].
Qed.

End Rules.

(** No invariant at all: what is kept is that no transaction-state error
    comes out. *)
Definition anything {S : Type} : S -> Prop := fun _ => True.

(** Splits a goal [keeps I m] along the structure of [m]. *)
Ltac keeps_step :=
  match goal with
  | |- keeps _ (bind _ _) => apply keeps_bind; [|intros ?]
  | |- keeps _ (ret _) => apply keeps_ret
  | |- keeps _ (lift _) => apply keeps_lift
  | |- keeps _ (raise _) => apply keeps_raise; reflexivity
  | |- keeps _ get => apply keeps_get
  | |- keeps _ (Connection.when _ _) => apply keeps_when
  | |- keeps _ (for_each _ _) => apply keeps_for_each; intros ?
  | |- keeps _ (if ?c then _ else _) => destruct c
  | |- keeps _ (match ?x with _ => _ end) => destruct x
  | |- keeps _ (let '(_, _) := ?x in _) => destruct x
  end.

Ltac keeps_auto := repeat keeps_step; eauto.

(** *** Computations on a table or on a database *)

(** On a state without invariant, [keeps] says that whatever is raised is
    not a transaction-state error. *)
Lemma keeps_anything {S A : Type} (m : M S A) :
  (forall s, quiet (fst (m s))) -> keeps anything m.
Proof.
  intros H s _. specialize (H s). unfold anything.
  destruct (m s) as [[a|e] s']; simpl in *; auto.
Qed.

Lemma keeps_table_method (f : Table.t -> res Table.t) :
  keeps anything (Connection.table_method f).
Proof.
  apply keeps_anything. intros t. unfold Connection.table_method.
  destruct (f t); simpl; auto.
Qed.

Lemma keeps_materialize (result : Connection.rows_result) :
  keeps anything (Connection.materialize result).
Proof.
  unfold Connection.materialize. destruct result as [result|].
  - apply keeps_for_each. intros row.
    apply keeps_bind; [apply keeps_lift|intros l; apply keeps_table_method].
  - apply keeps_raise. reflexivity.
Qed.

Lemma keeps_insert_entries (fuel : nat) :
  forall tokens columns values_end entry_start entry_end,
    keeps anything
      (Connection.insert_entries fuel tokens columns values_end
         entry_start entry_end).
Proof.
  induction fuel as [|fuel IH]; intros; simpl.
  - apply keeps_raise. reflexivity.
  - destruct (entry_start <? values_end); [|apply keeps_ret].
    apply keeps_bind; [apply keeps_table_method|intros _].
    destruct (negb _); [apply keeps_ret|].
    apply keeps_bind; [apply keeps_lift|intros a].
    apply keeps_bind; [apply keeps_lift|intros b].
    apply IH.
Qed.

Lemma keeps_insert_into (tokens : list value) :
  keeps anything (Connection.insert_into tokens).
Proof.
  unfold Connection.insert_into.
  apply keeps_bind; [apply keeps_lift|intros values_index].
  apply keeps_bind; [apply keeps_lift|intros before].
  destruct (py_eq before (VStr "DEFAULT")); [apply keeps_table_method|].
  apply keeps_bind; [|intros columns].
  { destruct (negb _); keeps_auto. }
  apply keeps_bind; [apply keeps_lift|intros values_end].
  apply keeps_bind; [apply keeps_lift|intros at_open].
  apply keeps_bind; [apply keeps_lift|intros entry_end].
  apply keeps_insert_entries.
Qed.

Lemma assign_values_quiet table values row :
  quiet (fst (Connection.assign_values table values row)).
Proof.
  assert (H : keeps anything (Connection.assign_values table values)).
  { unfold Connection.assign_values. destruct values as [values|].
    - apply keeps_for_each. intros v.
      apply keeps_bind; [apply keeps_lift|intros index].
      apply keeps_anything. intros r.
      destruct (Row.update_row r index (snd v)); simpl; auto.
    - apply keeps_raise. reflexivity. }
  specialize (H row I).
  destruct (Connection.assign_values table values row) as [[a|e] s'];
    simpl; [exact I|apply H].
Qed.

Lemma assign_rows_quiet table values :
  forall marks rows,
    quiet (fst (Connection.assign_rows table values marks rows)).
Proof.
  intros marks rows. revert marks.
  induction rows as [|row rows IH]; intros marks.
  - destruct marks; simpl; exact I.
  - destruct marks as [|mark marks]; [simpl; exact I|].
    specialize (IH marks).
    pose proof (assign_values_quiet table values row) as Hq.
    cbn [Connection.assign_rows].
    destruct mark.
    + destruct (Connection.assign_values table values row) as [[a|e] row'].
      * destruct (Connection.assign_rows table values marks rows) as [r rows''].
        exact IH.
      * exact Hq.
    + destruct (Connection.assign_rows table values marks rows) as [r rows''].
      exact IH.
Qed.

Lemma keeps_update_table values conditions :
  keeps anything (Connection.update_table values conditions).
Proof.
  apply keeps_anything. intros table. unfold Connection.update_table.
  destruct (Table.size table =? 0); [exact I|].
  destruct (match conditions with
            | Some c => Connection.condition_marks table c
            | None => Ok (map (fun _ => true) (Table.rows table))
            end) as [marks|e]; [|reflexivity].
  pose proof (assign_rows_quiet table values marks (Table.rows table)) as Hq.
  destruct (Connection.assign_rows table values marks (Table.rows table)).
  exact Hq.
Qed.

Lemma keeps_delete_from conditions :
  keeps anything (Connection.delete_from conditions).
Proof.
  apply keeps_anything. intros table. unfold Connection.delete_from.
  destruct (Table.size table =? 0); [exact I|].
  destruct conditions as [conditions|]; [|exact I].
  destruct (Connection.condition_marks table conditions); simpl; auto.
Qed.

Lemma keeps_update_with (tokens : list value) :
  keeps anything (Connection.update_with tokens).
Proof.
  unfold Connection.update_with.
  apply keeps_bind; [apply keeps_lift|intros end_index].
  apply keeps_bind; [apply keeps_ret|intros has_where].
  apply keeps_bind; [destruct has_where; keeps_auto|intros where_index].
  apply keeps_bind; [destruct has_where; keeps_auto|intros conditions].
  apply keeps_bind; [|intros set_values; apply keeps_update_table].
  destruct (py_in _ _); keeps_auto.
Qed.

Lemma keeps_on_table {A : Type} (table_name : value) (m : M Table.t A) :
  keeps anything m -> keeps anything (on_table table_name m).
Proof.
  intros Hm. apply keeps_anything. intros db. unfold on_table.
  destruct (dict_get table_name (Database.tables db)) as [table|];
    [|reflexivity].
  specialize (Hm table I).
  destruct (m table) as [[a|e] table']; simpl; [exact I|apply Hm].
Qed.

Lemma keeps_database_modify (f : Database.t -> Database.t) :
  keeps anything (modify f).
Proof. apply keeps_modify. intros; exact I. Qed.

(** *** Statements stored in views *)

(** A statement that [execute] takes for a query: its tokens lead to the
    LEFT OUTER JOIN branch, to the SELECT branch, or to no branch. *)
Definition query_like (statement : string) : bool :=
  match tokenize statement with
  | Ok tokens =>
      match Connection.classify tokens with
      | Ok Connection.KJoin | Ok Connection.KSelect | Ok Connection.KOther => true
      | Ok _ => false
      | Raise _ => true
      end
  | Raise _ => true
  end.

(** Every view of every database object stores a query.  CREATE VIEW
    stores the text from the first [SELECT] on, so that the views it makes
    are of this kind (see [view_statement_query_like]). *)
Definition views_ok (w : world) : Prop :=
  forall (r : nat) (key : value) (table : Table.t) (attrs : Table.view_attrs),
    List.In (key, table) (Database.tables (database_objects w r)) ->
    Table.view table = Some attrs ->
    query_like (Table.statement attrs) = true.

(** *** The branches of execute, under an invariant of the connection *)

Section Branches.
Import Connection.

(** The invariant, and what it has to be closed under: updates of the
    lock that the connection remembers, of the lock system, and of the
    database object that the connection works on, publication, and the
    two lock checks that end a statement. *)
Variable Inv : state -> Prop.
Hypothesis Inv_set_transaction_lock : forall l, keeps Inv (set_transaction_lock l).
Hypothesis Inv_on_lock_system :
  forall (A : Type) (m : M LockSystem.t A),
    keeps anything m -> keeps Inv (on_lock_system m).
Hypothesis Inv_on_database :
  forall (A : Type) (m : M Database.t A),
    keeps anything m -> keeps Inv (on_database m).
Hypothesis Inv_publish : keeps Inv publish_database.

(** A computation that leaves the state alone keeps every invariant. *)
Lemma keeps_reader {A : Type} (J : state -> Prop) (m : M state A) :
  (forall s, snd (m s) = s) -> (forall s, quiet (fst (m s))) -> keeps J m.
Proof.
  intros Hs Hq s HJ. specialize (Hs s). specialize (Hq s).
  destruct (m s) as [[a|e] s']; simpl in *; subst; auto.
Qed.

Lemma keeps_get_transaction_mode J : keeps J get_transaction_mode.
Proof. apply keeps_reader; intros; simpl; auto. Qed.

Lemma keeps_get_transaction_lock J : keeps J get_transaction_lock.
Proof. apply keeps_reader; intros; simpl; auto. Qed.

Lemma keeps_committed_database J : keeps J committed_database.
Proof.
  apply keeps_reader; intros s; unfold committed_database;
    destruct (ALL_DATABASES (globals s) !! filename (self s)); simpl; auto.
Qed.

Lemma keeps_get_database J : keeps J get_database.
Proof. apply keeps_reader; intros; simpl; auto. Qed.

Lemma keeps_table_exists J name : keeps J (table_exists name).
Proof. apply keeps_reader; intros; simpl; auto. Qed.

Lemma keeps_get_table J name : keeps J (get_table name).
Proof.
  apply keeps_reader; intros s; unfold get_table, bind, get_database, lift;
    destruct (dict_lookup name _); simpl; auto.
Qed.

Lemma add_lock_quiet ls lock_type current_lock :
  quiet (LockSystem.add_lock ls lock_type current_lock).
Proof.
  unfold LockSystem.add_lock, LockSystem.add_shared, LockSystem.add_reserved,
    LockSystem.add_exclusive.
  destruct (match current_lock with Some _ => _ | None => _ end); [exact I|].
  destruct lock_type;
    repeat match goal with
           | |- context [if ?c then _ else _] => destruct c
           | |- context [match ?x with _ => _ end] => destruct x
           end; simpl; auto.
Qed.

Lemma keeps_add_lock lock_type current_lock :
  keeps Inv (add_lock lock_type current_lock).
Proof.
  unfold add_lock. apply Inv_on_lock_system. apply keeps_anything. intros ls.
  pose proof (add_lock_quiet ls lock_type current_lock) as Hq.
  destruct (LockSystem.add_lock ls lock_type current_lock) as [[b ls']|e];
    simpl in *; auto.
Qed.

Lemma keeps_remove_lock lock_type : keeps Inv (remove_lock lock_type).
Proof.
  unfold remove_lock. apply Inv_on_lock_system. apply keeps_modify.
  intros; exact I.
Qed.

Lemma keeps_database_method f : keeps Inv (database_method f).
Proof.
  unfold database_method. apply Inv_on_database. apply keeps_anything.
  intros db. destruct (f db); simpl; auto.
Qed.

(** Within a transaction, a lock check changes the lock system and the
    lock that the connection remembers, nothing else. *)
Lemma keeps_lock_transition_tx (m : mode) held act :
  keeps Inv (lock_transition (Some m) held act).
Proof.
  unfold lock_transition.
  destruct m, act; try apply keeps_ret;
    repeat match goal with
           | |- keeps _ (match ?x with _ => _ end) => destruct x
           end; try apply keeps_ret;
    (apply keeps_bind; [apply keeps_add_lock|intros ok];
     apply keeps_when, Inv_set_transaction_lock).
Qed.

(** In auto-commit mode it may also make the connection work on another
    database object. *)
Lemma keeps_lock_transition_auto held act :
  (forall r, keeps Inv (set_database r)) ->
  (forall r, keeps Inv (deepcopy r)) ->
  keeps Inv (lock_transition None held act).
Proof.
  intros Hset Hcopy. unfold lock_transition. destruct act.
  - apply keeps_bind; [apply keeps_add_lock|intros ok].
    apply keeps_when.
    apply keeps_bind; [apply Inv_set_transaction_lock|intros _].
    apply keeps_bind; [apply keeps_committed_database|intros r].
    apply Hset.
  - apply keeps_bind; [apply keeps_add_lock|intros ok].
    apply keeps_when.
    apply keeps_bind; [apply Inv_set_transaction_lock|intros _].
    apply keeps_bind; [apply keeps_committed_database|intros r].
    apply keeps_bind; [apply Hcopy|intros r'].
    apply Hset.
  - apply keeps_bind; [apply keeps_add_lock|intros ok].
    apply keeps_when.
    apply keeps_bind; [apply Inv_set_transaction_lock|intros _].
    apply keeps_bind; [apply keeps_remove_lock|intros _].
    apply keeps_bind; [apply Inv_set_transaction_lock|intros _].
    apply Inv_publish.
  - apply keeps_bind; [apply keeps_remove_lock|intros _].
    apply Inv_set_transaction_lock.
Qed.

Lemma keeps_lock_check act :
  (forall tmode held, keeps Inv (lock_transition tmode held act)) ->
  keeps Inv (lock_check act).
Proof.
  intros H. unfold lock_check.
  apply keeps_bind; [apply keeps_get_transaction_mode|intros tmode].
  apply keeps_bind; [apply keeps_get_transaction_lock|intros held].
  apply H.
Qed.

(** The lock checks that end a statement in auto-commit mode. *)
Lemma keeps_lock_check_commit : keeps Inv (lock_check Commit).
Proof.
  unfold lock_check.
  apply keeps_bind; [apply keeps_get_transaction_mode|intros tmode].
  apply keeps_bind; [apply keeps_get_transaction_lock|intros held].
  unfold lock_transition.
  destruct tmode as [[| |]|]; try apply keeps_ret.
  apply keeps_bind; [apply keeps_add_lock|intros ok].
  apply keeps_when.
  apply keeps_bind; [apply Inv_set_transaction_lock|intros _].
  apply keeps_bind; [apply keeps_remove_lock|intros _].
  apply keeps_bind; [apply Inv_set_transaction_lock|intros _].
  apply Inv_publish.
Qed.

Lemma keeps_lock_check_relinquish : keeps Inv (lock_check Relinquish).
Proof.
  unfold lock_check.
  apply keeps_bind; [apply keeps_get_transaction_mode|intros tmode].
  apply keeps_bind; [apply keeps_get_transaction_lock|intros held].
  unfold lock_transition.
  destruct tmode as [[| |]|]; try apply keeps_ret.
  apply keeps_bind; [apply keeps_remove_lock|intros _].
  apply Inv_set_transaction_lock.
Qed.

Lemma keeps_in_autocommit_commit : keeps Inv (in_autocommit Commit).
Proof.
  unfold in_autocommit.
  apply keeps_bind; [apply keeps_get_transaction_mode|intros tmode].
  destruct tmode; [apply keeps_ret|apply keeps_lock_check_commit].
Qed.

Lemma keeps_in_autocommit_relinquish : keeps Inv (in_autocommit Relinquish).
Proof.
  unfold in_autocommit.
  apply keeps_bind; [apply keeps_get_transaction_mode|intros tmode].
  destruct tmode; [apply keeps_ret|apply keeps_lock_check_relinquish].
Qed.

(** What an exception may leave behind: [Ix] in place of the invariant. *)
Variable Ix : state -> Prop.
Hypothesis Inv_Ix : forall s, Inv s -> Ix s.

Definition raising (e : exn) (s : state) : Prop :=
  Ix s /\ transaction_state_error e = false.

Lemma keeps_raising {A : Type} (m : M state A) :
  keeps Inv m -> triple Inv m (fun _ => Ix) raising.
Proof.
  intros Hm. eapply triple_weaken; [exact Hm|auto|auto|].
  intros e s [HI He]. split; auto.
Qed.

(** A branch made of a lock check and of what comes after it. *)
Lemma triple_after_lock_check {A : Type} (P : state -> Prop) (act : action)
    (rest : M state A) :
  triple P (lock_check act) (fun _ => Inv) raising ->
  keeps Inv rest ->
  triple P (bind (lock_check act) (fun _ => rest)) (fun _ => Ix) raising.
Proof.
  intros Hlock Hrest. eapply triple_bind; [exact Hlock|].
  intros u. apply keeps_raising. exact Hrest.
Qed.

Lemma triple_execute_create_table P tokens :
  triple P (lock_check Write) (fun _ => Inv) raising ->
  triple P (execute_create_table tokens) (fun _ => Ix) raising.
Proof.
  intros Hlock. unfold execute_create_table.
  apply triple_after_lock_check; [exact Hlock|].
  apply keeps_bind; [apply keeps_lift|intros guarded].
  apply keeps_bind; [apply keeps_lift|intros table_name].
  apply keeps_bind; [apply keeps_table_exists|intros present].
  destruct present.
  - destruct guarded; [apply keeps_ret|apply keeps_raise; reflexivity].
  - apply keeps_bind; [apply keeps_lift|intros at_name].
    apply keeps_bind; [apply keeps_database_method|intros _].
    apply keeps_bind; [apply keeps_in_autocommit_commit|intros _].
    apply keeps_ret.
Qed.

Lemma triple_execute_drop_table P tokens :
  triple P (lock_check Write) (fun _ => Inv) raising ->
  triple P (execute_drop_table tokens) (fun _ => Ix) raising.
Proof.
  intros Hlock. unfold execute_drop_table.
  apply triple_after_lock_check; [exact Hlock|].
  apply keeps_bind; [apply keeps_lift|intros guarded].
  apply keeps_bind; [apply keeps_lift|intros table_name].
  apply keeps_bind; [apply keeps_table_exists|intros present].
  destruct (negb present).
  - destruct guarded; [apply keeps_ret|apply keeps_raise; reflexivity].
  - apply keeps_bind; [apply keeps_database_method|intros _].
    apply keeps_bind; [apply keeps_in_autocommit_commit|intros _].
    apply keeps_ret.
Qed.

Lemma triple_execute_insert P tokens :
  triple P (lock_check Write) (fun _ => Inv) raising ->
  triple P (execute_insert tokens) (fun _ => Ix) raising.
Proof.
  intros Hlock. unfold execute_insert.
  apply triple_after_lock_check; [exact Hlock|].
  apply keeps_bind; [apply keeps_lift|intros table_name].
  apply keeps_bind;
    [apply Inv_on_database, keeps_on_table, keeps_insert_into|intros _].
  apply keeps_bind; [apply keeps_in_autocommit_commit|intros _].
  apply keeps_ret.
Qed.

Lemma triple_execute_delete P tokens :
  triple P (lock_check Write) (fun _ => Inv) raising ->
  triple P (execute_delete tokens) (fun _ => Ix) raising.
Proof.
  intros Hlock. unfold execute_delete.
  apply triple_after_lock_check; [exact Hlock|].
  apply keeps_bind; [apply keeps_lift|intros table_name].
  apply keeps_bind; [destruct (py_in _ _); keeps_auto|intros conditions].
  apply keeps_bind;
    [apply Inv_on_database, keeps_on_table, keeps_delete_from|intros _].
  apply keeps_bind; [apply keeps_in_autocommit_commit|intros _].
  apply keeps_ret.
Qed.

Lemma triple_execute_update P tokens :
  triple P (lock_check Write) (fun _ => Inv) raising ->
  triple P (execute_update tokens) (fun _ => Ix) raising.
Proof.
  intros Hlock. unfold execute_update.
  apply triple_after_lock_check; [exact Hlock|].
  apply keeps_bind; [apply keeps_lift|intros table_name].
  apply keeps_bind;
    [apply Inv_on_database, keeps_on_table, keeps_update_with|intros _].
  apply keeps_bind; [apply keeps_in_autocommit_commit|intros _].
  apply keeps_ret.
Qed.

Lemma triple_execute_join P tokens :
  triple P (lock_check Read) (fun _ => Inv) raising ->
  triple P (execute_join tokens) (fun _ => Ix) raising.
Proof.
  intros Hlock. unfold execute_join.
  apply triple_after_lock_check; [exact Hlock|].
  apply keeps_bind; [apply keeps_lift|intros join_key_start].
  apply keeps_bind; [apply keeps_lift|intros join_key_end].
  apply keeps_bind; [apply keeps_lift|intros table1_name].
  apply keeps_bind; [apply keeps_lift|intros table2_name].
  apply keeps_bind; [apply keeps_get_table|intros table1].
  apply keeps_bind; [apply keeps_get_table|intros table2].
  apply keeps_bind; [apply keeps_lift|intros on_index].
  apply keeps_bind; [destruct (py_in _ _); keeps_auto|intros order].
  apply keeps_bind; [apply keeps_lift|intros columns].
  apply keeps_bind; [apply keeps_lift|intros joined_table].
  apply keeps_bind;
    [apply Inv_on_database, keeps_database_modify|intros _].
  apply keeps_bind; [apply keeps_lift|intros query_result].
  apply keeps_bind; [apply keeps_in_autocommit_relinquish|intros _].
  apply keeps_ret.
Qed.

(** The branches that call [execute] on the statement of a view.  [V]
    is what is known of the views when the call is made. *)
Variable V : state -> Prop.

Lemma keeps_raising_with {A : Type} (J : state -> Prop) (m : M state A) :
  (forall s, J s -> Ix s) -> keeps J m -> triple J m (fun _ => J) raising.
Proof.
  intros HJ Hm. eapply triple_weaken; [exact Hm|auto|auto|].
  intros e s [Hs He]. split; auto.
Qed.

Lemma triple_get_table (J : state -> Prop) (name : value) :
  (forall s, J s -> Ix s) ->
  triple J (get_table name)
    (fun table s => J s /\ fst (get_table name s) = Ok table) raising.
Proof.
  intros HJ s Hs. unfold get_table, bind, get_database, lift.
  destruct (dict_lookup name _) as [table|e] eqn:E; simpl.
  - split; [exact Hs|reflexivity].
  - split; [apply HJ; exact Hs|reflexivity].
Qed.

Lemma materialize_quiet result view :
  quiet (match materialize result view with
         | (Ok _, filled) => Ok filled
         | (Raise e, _) => Raise e
         end).
Proof.
  pose proof (keeps_materialize result view Logic.I) as H.
  destruct (materialize result view) as [[u|e] filled]; simpl; [exact Logic.I|].
  apply H.
Qed.

Section Nested.

Variable execute_rec : string -> M state rows_result.
Variable P : state -> Prop.

Hypothesis lock_check_read :
  triple P (lock_check Read) (fun _ s => Inv s /\ V s) raising.
Hypothesis execute_rec_query :
  forall statement,
    query_like statement = true ->
    triple (fun s => Inv s /\ V s) (execute_rec statement) (fun _ => Inv) raising.
Hypothesis V_views :
  forall s name table attrs,
    V s -> fst (get_table name s) = Ok table ->
    Table.view table = Some attrs ->
    query_like (Table.statement attrs) = true.

Lemma triple_execute_select tokens :
  triple P (execute_select execute_rec tokens) (fun _ => Ix) raising.
Proof.
  assert (HJ : forall s, Inv s /\ V s -> Ix s) by (intros s [Hs _]; auto).
  unfold execute_select.
  eapply triple_bind; [exact lock_check_read|intros u].
  eapply triple_bind;
    [apply keeps_raising_with; [exact HJ|apply keeps_lift]|intros from_keyword].
  eapply triple_bind;
    [apply keeps_raising_with; [exact HJ|apply keeps_lift]|intros table_name].
  eapply triple_bind; [apply triple_get_table; exact HJ|intros table].
  cbv beta.
  eapply triple_weaken with
    (P' := fun s => fst (get_table table_name s) = Ok table /\ (Inv s /\ V s));
    [|tauto|intros a s H; exact H|intros e s H; exact H].
  eapply triple_bind with (Q := fun _ => Inv).
  - destruct (Table.view table) as [attrs|] eqn:Eview.
    + intros s [Hget [Hs Hv]].
      assert (Hq : query_like (Table.statement attrs) = true)
        by (eapply V_views; eauto).
      revert s Hget Hs Hv.
      assert (G : triple (fun s => Inv s /\ V s)
                    (result <- execute_rec (Table.statement attrs) ;;
                     new_view <- lift (View.init (Table.name table) table_name
                                         (Table.view_columns attrs)
                                         (Table.schema table)
                                         (Table.statement attrs)) ;;
                     new_view <- lift_outcome
                                   (match materialize result new_view with
                                    | (Ok _, filled) => Ok filled
                                    | (Raise e, _) => Raise e
                                    end) ;;
                     on_database (modify (fun db =>
                       Database.set_table db (Table.name new_view) new_view)) ;;;
                     ret new_view)%M (fun _ => Inv) raising).
      { eapply triple_bind; [apply execute_rec_query; exact Hq|intros result].
        apply keeps_triple with (I := Inv); [|auto|intros; split; auto].
        apply keeps_bind; [apply keeps_lift|intros new_view].
        apply keeps_bind;
          [apply keeps_lift_outcome, materialize_quiet|intros filled].
        apply keeps_bind;
          [apply Inv_on_database, keeps_database_modify|intros _].
        apply keeps_ret. }
      intros s Hget Hs Hv. apply G. auto.
    + intros s [Hget [Hs Hv]]. simpl. exact Hs.
  - intros table'. apply keeps_raising.
    apply keeps_bind; [apply keeps_lift|intros aggregate].
    apply keeps_bind; [apply keeps_lift|intros args].
    destruct args as [[[columns distinct_columns] conditions] order].
    apply keeps_bind; [apply keeps_lift|intros query_result].
    apply keeps_bind; [apply keeps_in_autocommit_relinquish|intros _].
    destruct aggregate as [keyword|]; [|apply keeps_ret].
    destruct (String.eqb keyword "MAX").
    { apply keeps_bind; [apply keeps_lift|intros m; apply keeps_ret]. }
    destruct (String.eqb keyword "MIN").
    { apply keeps_bind; [apply keeps_lift|intros m; apply keeps_ret]. }
    apply keeps_ret.
Qed.

Hypothesis lock_check_write : keeps Inv (lock_check Write).
Hypothesis view_statement_query :
  forall statement,
    query_like (str_from statement (str_find "SELECT" statement 0)) = true.

Lemma triple_execute_create_view statement tokens :
  triple P (execute_create_view execute_rec statement tokens)
    (fun _ => Ix) raising.
Proof.
  assert (HJ : forall s, Inv s /\ V s -> Ix s) by (intros s [Hs _]; auto).
  unfold execute_create_view.
  eapply triple_bind; [exact lock_check_read|intros u].
  eapply triple_bind;
    [apply keeps_raising_with; [exact HJ|apply keeps_lift]|intros view_name].
  eapply triple_bind;
    [apply keeps_raising_with; [exact HJ|apply keeps_table_exists]
    |intros present].
  destruct present.
  { intros s [Hs _]. simpl. split; [auto|reflexivity]. }
  eapply triple_bind;
    [apply keeps_raising_with; [exact HJ|apply keeps_lift]|intros from_index].
  eapply triple_bind;
    [apply keeps_raising_with; [exact HJ|apply keeps_lift]|intros select_index].
  eapply triple_bind;
    [apply keeps_raising_with; [exact HJ|apply keeps_lift]|intros table_name].
  eapply triple_bind;
    [apply keeps_raising_with; [exact HJ|apply keeps_lift]|intros over_join].
  eapply triple_bind with (Q := fun _ => Inv).
  - destruct over_join.
    + eapply triple_bind;
        [apply execute_rec_query, view_statement_query|intros result].
      apply keeps_triple with (I := Inv); [|auto|intros; split; auto].
      apply keeps_bind; [apply keeps_get_database|intros db].
      destruct (Database.joined_table db);
        [apply keeps_ret|apply keeps_raise; reflexivity].
    + eapply triple_bind;
        [apply keeps_raising_with; [exact HJ|apply keeps_table_exists]
        |intros known].
      destruct (negb known).
      * intros s [Hs _]. simpl. split; [auto|reflexivity].
      * eapply triple_bind;
          [apply execute_rec_query, view_statement_query|intros result].
        apply keeps_triple with (I := Inv); [|auto|intros; split; auto].
        apply keeps_bind; [apply keeps_get_table|intros table].
        apply keeps_ret.
  - intros viewed. destruct viewed as [[result tname] table_schema].
    apply keeps_raising.
    apply keeps_bind; [exact lock_check_write|intros _].
    apply keeps_bind; [apply keeps_database_method|intros _].
    apply keeps_bind;
      [apply Inv_on_database, keeps_on_table, keeps_materialize|intros _].
    apply keeps_bind;
      [apply Inv_on_database, keeps_database_modify|intros _].
    apply keeps_bind; [apply keeps_in_autocommit_commit|intros _].
    apply keeps_ret.
Qed.

End Nested.

End Branches.

(** *** The tokenizer and the statements stored in views *)

Lemma of_res_quiet {A : Type} (r : res A) : quiet (of_res r).
Proof. destruct r; simpl; auto. Qed.

Lemma of_res_ok {A : Type} (r : res A) (a : A) : of_res r = Ok a -> r = Ok a.
Proof. destruct r; simpl; intros H; inversion H; reflexivity. Qed.

Lemma tokenize_step_quiet c rest tokens : quiet (tokenize_step c rest tokens).
Proof.
  unfold tokenize_step.
  repeat match goal with
         | |- context [if ?b then _ else _] => destruct b
         end; simpl; auto using of_res_quiet.
Qed.

Lemma tokenize_loop_quiet fuel : forall query tokens,
  quiet (tokenize_loop fuel query tokens).
Proof.
  induction fuel as [|fuel IH]; intros query tokens;
    destruct query as [|c rest]; simpl; auto.
  pose proof (tokenize_step_quiet c rest tokens) as Hq.
  destruct (tokenize_step c rest tokens) as [[query' tokens']|e]; auto.
Qed.

(** The tokenizer raises [AssertionError] or a built-in error only. *)
Lemma tokenize_quiet statement : quiet (tokenize statement).
Proof. apply tokenize_loop_quiet. Qed.

Lemma py_index_head {A : Type} (x : A) (l : list A) : py_index (x :: l) 0 = Ok x.
Proof.
  unfold py_index. cbv zeta.
  change (0 <? 0) with false. cbn [orb].
  assert (E : (Z.of_nat (List.length (x :: l)) <=? 0) = false).
  { apply Z.leb_gt. cbn [List.length]. lia. }
  rewrite E. reflexivity.
Qed.

Lemma py_index_last_singleton {A : Type} (x : A) : py_index [x] (-1) = Ok x.
Proof. reflexivity. Qed.

(** A first token of two characters or more stays the first token: the
    tokenizer appends tokens, and extends the last one only when it has
    fewer than two characters. *)
Lemma tokenize_step_head c rest w ts query' tokens' :
  (2 <= String.length w)%nat ->
  tokenize_step c rest (VStr w :: ts) = Ok (query', tokens') ->
  exists ts', tokens' = VStr w :: ts'.
Proof.
  intros Hw. unfold tokenize_step.
  destruct (char_in c whitespace).
  { unfold remove_leading_whitespace. intros H; inversion H; eauto. }
  destruct (char_in c (ascii_letters ++ "_")).
  { unfold remove_word. destruct (String.eqb _ "NULL");
      intros H; inversion H; simpl; eauto. }
  destruct (char_in c "(),;*").
  { intros H; inversion H; simpl; eauto. }
  destruct (Ascii.eqb c "'").
  { unfold remove_text. intros H; inversion H; simpl; eauto. }
  destruct (isnumeric c || char_in c "-").
  { unfold remove_num.
    destruct (if str_contains "." _ then _ else _) as [tok|e]; simpl;
      intros H; inversion H; simpl; eauto. }
  destruct (char_in c "<>=!"); [|discriminate].
  intros H. apply of_res_ok in H. revert H.
  unfold tokenize_operator.
  destruct (py_index (VStr w :: ts) (-1)) as [last_token|e] eqn:Elast;
    cbn [res_bind]; [|discriminate].
  assert (Happ : forall x, exists ts', (VStr w :: ts) ++ [x] = VStr w :: ts')
    by (intros x; simpl; eauto).
  assert (Hext : forall last,
            last_token = VStr last -> (String.length last <? 2)%nat = true ->
            exists ts', extend_last (VStr w :: ts) last c = VStr w :: ts').
  { intros last -> Hshort. unfold extend_last.
    destruct ts as [|t ts].
    - rewrite py_index_last_singleton in Elast. inversion Elast; subst.
      apply Nat.ltb_lt in Hshort. lia.
    - cbn [removelast]. simpl. eauto. }
  destruct last_token as [| | |last|l]; try discriminate.
  - destruct (String.length last <? 2)%nat eqn:Hshort.
    + destruct (str_contains last "!>" && Ascii.eqb c "=").
      { intros H; inversion H. apply Hext; auto. }
      destruct (String.eqb last "=" && Ascii.eqb c "<").
      { intros H; inversion H. apply Hext; auto. }
      intros H; inversion H. apply Happ.
    + intros H; inversion H. apply Happ.
  - destruct (List.length l <? 2)%nat; [discriminate|].
    intros H; inversion H. apply Happ.
Qed.

Lemma tokenize_loop_head fuel : forall query w ts tokens,
  (2 <= String.length w)%nat ->
  tokenize_loop fuel query (VStr w :: ts) = Ok tokens ->
  exists ts', tokens = VStr w :: ts'.
Proof.
  induction fuel as [|fuel IH]; intros query w ts tokens Hw;
    destruct query as [|c rest]; simpl.
  - intros H; inversion H; eauto.
  - discriminate.
  - intros H; inversion H; eauto.
  - destruct (tokenize_step c rest (VStr w :: ts)) as [[query' tokens']|e]
      eqn:Estep; [|discriminate].
    destruct (tokenize_step_head _ _ _ _ _ _ Hw Estep) as [ts' ->].
    apply IH. exact Hw.
Qed.

Lemma prefix_app (p s : string) :
  String.prefix p s = true -> exists s', s = (p ++ s')%string.
Proof.
  revert s. induction p as [|a p IH]; intros s H.
  - exists s. reflexivity.
  - destruct s as [|b s]; [discriminate|]. simpl in H.
    destruct (ascii_dec a b) as [->|]; [|discriminate].
    destruct (IH s H) as [s' ->]. exists s'. reflexivity.
Qed.

(** The tokens of a text that begins with [SELECT] lead to the join
    branch, to the SELECT branch, or nowhere. *)
Lemma select_prefix_query_like statement :
  String.prefix "SELECT" statement = true -> query_like statement = true.
Proof.
  intros H. apply prefix_app in H as [s' ->].
  unfold query_like, tokenize.
  change ("SELECT" ++ s')%string with (String "S" ("ELECT" ++ s')%string).
  cbn [tokenize_loop String.length].
  set (word := collect_characters s' (ascii_letters ++ "_.*" ++ digits)%string).
  assert (Estep : tokenize_step "S" ("ELECT" ++ s')%string []
                  = Ok (str_drop (String.length ("SELECT" ++ word)%string)
                          ("SELECT" ++ s')%string,
                        [VStr ("SELECT" ++ word)%string])).
  { reflexivity. }
  rewrite Estep. clear Estep.
  match goal with
  | |- context [tokenize_loop ?f ?q ?t] =>
      destruct (tokenize_loop f q t) as [tokens|e] eqn:Eloop; [|reflexivity]
  end.
  apply tokenize_loop_head in Eloop as [ts ->]; [|simpl; lia].
  change ("SELECT" ++ word)%string with (String "S" ("ELECT" ++ word)%string).
  unfold Connection.classify, tok_is.
  rewrite py_index_head. cbn [res_bind py_eq String.eqb Ascii.eqb Bool.eqb
                               and_then].
  destruct (py_in (VStr "LEFT") _ && py_in (VStr "OUTER") _
            && py_in (VStr "JOIN") _); [reflexivity|].
  match goal with
  | |- context [if ?b then _ else _] => destruct b
  end; reflexivity.
Qed.

Lemma one_character_query_like (c : ascii) :
  query_like (String c EmptyString) = true.
Proof.
  destruct c as [[] [] [] [] [] [] [] []]; vm_compute; reflexivity.
Qed.

Lemma short_query_like statement :
  (String.length statement <= 1)%nat -> query_like statement = true.
Proof.
  destruct statement as [|c [|d rest]]; simpl; intros H.
  - reflexivity.
  - apply one_character_query_like.
  - lia.
Qed.

Lemma str_drop_length n : forall s,
  String.length (str_drop n s) = (String.length s - n)%nat.
Proof.
  induction n as [|n IH]; intros s; destruct s as [|c s]; simpl; auto.
Qed.

Lemma find_from_spec sub : forall s pos,
  find_from sub s pos = -1 \/
  exists n : nat,
    find_from sub s pos = pos + Z.of_nat n /\
    (n <= String.length s)%nat /\
    String.prefix sub (str_drop n s) = true.
Proof.
  induction s as [|c s IH]; intros pos; cbn [find_from].
  - destruct (String.prefix sub "") eqn:E; [|left; reflexivity].
    right. exists O. simpl. split; [lia|]. split; [lia|exact E].
  - destruct (String.prefix sub (String c s)) eqn:E.
    + right. exists O. split; [simpl; lia|]. split; [simpl; lia|exact E].
    + destruct (IH (pos + 1)) as [H|[n (H & Hn & Hp)]]; [left; exact H|].
      right. exists (S n). split; [rewrite H; lia|].
      split; [simpl; lia|exact Hp].
Qed.

(** The statement that CREATE VIEW stores and executes,
    [statement[statement.find("SELECT"):]], is a query. *)
Lemma view_statement_query_like statement :
  query_like (str_from statement (str_find "SELECT" statement 0)) = true.
Proof.
  unfold str_find.
  assert (E : (str_len statement <? 0) = false)
    by (apply Z.ltb_ge; unfold str_len; lia).
  rewrite E. change (str_drop (Z.to_nat 0) statement) with statement.
  destruct (find_from_spec "SELECT" statement 0) as [H|[n (H & Hn & Hp)]];
    rewrite H; unfold str_from, clamp_index.
  - apply short_query_like. rewrite str_drop_length.
    change (-1 <? 0) with true. cbv iota. unfold str_len. lia.
  - apply select_prefix_query_like.
    assert (E' : (0 + Z.of_nat n <? 0) = false) by (apply Z.ltb_ge; lia).
    rewrite E'.
    replace (Z.to_nat (Z.min (str_len statement)
                         (Z.max 0 (0 + Z.of_nat n)))) with n
      by (unfold str_len; lia).
    exact Hp.
Qed.

(** *** Invariants of a connection *)

Lemma keeps_conj {S A : Type} (J1 J2 : S -> Prop) (m : M S A) :
  keeps J1 m -> keeps J2 m -> keeps (fun s => J1 s /\ J2 s) m.
Proof.
  intros H1 H2 s [Hs1 Hs2]. specialize (H1 s Hs1). specialize (H2 s Hs2).
  destruct (m s) as [[a|e] s']; simpl in *; tauto.
Qed.

Section Views.
Import Connection.

(** The views of all database objects store queries. *)
Definition views_hold (st : state) : Prop := views_ok (globals st).

Lemma views_set_transaction_lock l : keeps views_hold (set_transaction_lock l).
Proof. intros s H. exact H. Qed.

Lemma views_set_database r : keeps views_hold (set_database r).
Proof. intros s H. exact H. Qed.

Lemma views_on_lock_system (A : Type) (m : M LockSystem.t A) :
  keeps anything m -> keeps views_hold (on_lock_system m).
Proof.
  intros Hm s H. unfold on_lock_system.
  specialize (Hm (locksystem_objects (globals s) (lock_system (self s))) I).
  destruct (m _) as [[a|e] ls']; simpl; [exact H|].
  split; [exact H|apply Hm].
Qed.

Lemma views_publish : keeps views_hold publish_database.
Proof. intros s H. exact H. Qed.

Lemma views_deepcopy r : keeps views_hold (deepcopy r).
Proof.
  intros s H. unfold deepcopy. simpl.
  intros r' key table attrs Hin Hview. unfold views_hold in *.
  simpl in Hin. unfold store_set in Hin.
  destruct (Nat.eqb r' (database_count (globals s)));
    eapply H; eauto.
Qed.

Lemma views_lock_check act : keeps views_hold (lock_check act).
Proof.
  apply keeps_lock_check. intros [m|] held.
  - apply keeps_lock_transition_tx;
      auto using views_set_transaction_lock, views_on_lock_system.
  - apply keeps_lock_transition_auto;
      auto using views_set_transaction_lock, views_on_lock_system,
        views_publish, views_set_database, views_deepcopy.
Qed.

Lemma dict_get_in {V : Type} (k : value) (d : dict V) (v : V) :
  dict_get k d = Some v -> exists k', List.In (k', v) d.
Proof.
  induction d as [|[k' v'] d IH]; simpl; [discriminate|].
  destruct (py_eq k' k).
  - intros H; inversion H; subst. eauto.
  - intros H. destruct (IH H) as [k'' Hin]. eauto.
Qed.

(** The statement of a view that [get_table] returns is a query. *)
Lemma views_get_table s name table attrs :
  views_hold s -> fst (get_table name s) = Ok table ->
  Table.view table = Some attrs ->
  query_like (Table.statement attrs) = true.
Proof.
  intros Hv Hget Hview. unfold get_table, bind, get_database, lift in Hget.
  unfold dict_lookup in Hget.
  destruct (dict_get name _) as [t|] eqn:E; simpl in Hget; [|discriminate].
  inversion Hget; subst t.
  apply dict_get_in in E as [k Hin].
  eapply Hv; eauto.
Qed.

End Views.

Section Watched.
Import Connection.

(** Some database objects are watched: [F] tells which, [D0] what they
    hold. *)
Variable F : nat -> Prop.
Variable D0 : nat -> Database.t.

(** The watched objects hold what they held, and a copy is a new
    object. *)
Definition intact (st : state) : Prop :=
  forall r, F r ->
    database_objects (globals st) r = D0 r /\
    (r < database_count (globals st))%nat.

(** Moreover the connection works on an object that is not watched, and,
    when [tx] is set, it is within a transaction. *)
Definition private (tx : bool) (st : state) : Prop :=
  intact st /\ ~ F (database (self st)) /\
  (tx = true -> transaction_mode (self st) <> None).

Lemma intact_set_transaction_lock l : keeps intact (set_transaction_lock l).
Proof. intros s H. exact H. Qed.

Lemma intact_set_database r : keeps intact (set_database r).
Proof. intros s H. exact H. Qed.

Lemma intact_publish : keeps intact publish_database.
Proof. intros s H. exact H. Qed.

Lemma intact_on_lock_system (A : Type) (m : M LockSystem.t A) :
  keeps anything m -> keeps intact (on_lock_system m).
Proof.
  intros Hm s H. unfold on_lock_system.
  specialize (Hm (locksystem_objects (globals s) (lock_system (self s))) I).
  destruct (m _) as [[a|e] ls']; simpl; [exact H|].
  split; [exact H|apply Hm].
Qed.

Lemma intact_deepcopy r : keeps intact (deepcopy r).
Proof.
  intros s H. unfold deepcopy. simpl. intros r' Hr'.
  destruct (H r' Hr') as [Hobj Hlt]. simpl. unfold store_set.
  destruct (Nat.eqb r' (database_count (globals s))) eqn:E.
  - apply Nat.eqb_eq in E. lia.
  - split; [exact Hobj|lia].
Qed.

Lemma private_set_transaction_lock tx l :
  keeps (private tx) (set_transaction_lock l).
Proof. intros s H. exact H. Qed.

Lemma private_publish tx : keeps (private tx) publish_database.
Proof. intros s H. exact H. Qed.

Lemma private_on_lock_system tx (A : Type) (m : M LockSystem.t A) :
  keeps anything m -> keeps (private tx) (on_lock_system m).
Proof.
  intros Hm s H. unfold on_lock_system.
  specialize (Hm (locksystem_objects (globals s) (lock_system (self s))) I).
  destruct (m _) as [[a|e] ls']; simpl; [exact H|].
  split; [exact H|apply Hm].
Qed.

Lemma private_on_database tx (A : Type) (m : M Database.t A) :
  keeps anything m -> keeps (private tx) (on_database m).
Proof.
  intros Hm s (Hi & Hp & Ht). unfold on_database.
  specialize (Hm (database_objects (globals s) (database (self s))) I).
  assert (G : forall db', private tx
                {| self := self s;
                   globals :=
                     {| ALL_DATABASES := ALL_DATABASES (globals s);
                        ALL_DATABASES_LOCKSYSTEMS :=
                          ALL_DATABASES_LOCKSYSTEMS (globals s);
                        database_objects :=
                          store_set (database_objects (globals s))
                            (database (self s)) db';
                        database_count := database_count (globals s);
                        locksystem_objects := locksystem_objects (globals s);
                        locksystem_count := locksystem_count (globals s) |} |}).
  { intros db'. split; [|split; assumption].
    intros r Hr. destruct (Hi r Hr) as [Hobj Hlt]. simpl. unfold store_set.
    destruct (Nat.eqb r (database (self s))) eqn:E.
    - apply Nat.eqb_eq in E. subst r. contradiction.
    - split; assumption. }
  destruct (m _) as [[a|e] db']; simpl; [apply G|].
  split; [apply G|apply Hm].
Qed.

(** Within a transaction every lock check keeps the connection on its
    own database object. *)
Lemma private_lock_check act : keeps (private true) (lock_check act).
Proof.
  intros s H. unfold lock_check, bind at 1, get_transaction_mode.
  cbv beta iota. unfold bind at 1, get_transaction_lock. cbv beta iota.
  destruct (transaction_mode (self s)) as [m|] eqn:Em.
  - apply (keeps_lock_transition_tx (private true)
             (private_set_transaction_lock true)
             (private_on_lock_system true)). exact H.
  - destruct H as (_ & _ & Ht). exfalso. apply Ht; auto.
Qed.

End Watched.

(** *** Statements other than BEGIN, COMMIT and ROLLBACK *)

Section Queries.
Import Connection.

(** An invariant [Inv] that the branches keep, and what is known of the
    views, [V], which the lock check of a reading statement keeps as
    well. *)
Variable Inv V : state -> Prop.
Hypothesis Inv_set_transaction_lock :
  forall l, keeps Inv (set_transaction_lock l).
Hypothesis Inv_on_lock_system :
  forall (A : Type) (m : M LockSystem.t A),
    keeps anything m -> keeps Inv (on_lock_system m).
Hypothesis Inv_on_database :
  forall (A : Type) (m : M Database.t A),
    keeps anything m -> keeps Inv (on_database m).
Hypothesis Inv_publish : keeps Inv publish_database.
Hypothesis lock_check_read :
  keeps (fun s => Inv s /\ V s) (lock_check Read).
Hypothesis lock_check_write : keeps Inv (lock_check Write).
Hypothesis V_views :
  forall s name table attrs,
    V s -> fst (get_table name s) = Ok table ->
    Table.view table = Some attrs ->
    query_like (Table.statement attrs) = true.

Let known (s : state) : Prop := Inv s /\ V s.

Lemma known_Inv : forall s, known s -> Inv s.
Proof. intros s [H _]. exact H. Qed.

Lemma lock_check_read_known :
  triple known (lock_check Read) (fun _ s => Inv s /\ V s) (raising Inv).
Proof.
  eapply triple_weaken; [exact lock_check_read|auto|auto|].
  intros e s [[Hs _] He]. split; assumption.
Qed.

Lemma lock_check_read_Inv :
  triple known (lock_check Read) (fun _ => Inv) (raising Inv).
Proof.
  eapply triple_weaken; [exact lock_check_read|auto|intros a s [Hs _]; auto|].
  intros e s [[Hs _] He]. split; assumption.
Qed.

Lemma lock_check_write_known :
  triple known (lock_check Write) (fun _ => Inv) (raising Inv).
Proof.
  eapply triple_weaken; [exact lock_check_write|exact known_Inv|auto|].
  intros e s [Hs He]. split; assumption.
Qed.

(** A branch that is neither BEGIN, COMMIT nor ROLLBACK keeps the
    invariant, provided that the calls of [execute] on queries do. *)
Lemma triple_run_branch execute_rec statement tokens kind :
  (forall statement,
     query_like statement = true ->
     triple known (execute_rec statement) (fun _ => Inv) (raising Inv)) ->
  match kind with KBegin | KCommit | KRollback => False | _ => True end ->
  triple known (run_branch execute_rec statement tokens kind)
    (fun _ => Inv) (raising Inv).
Proof.
  intros Hrec Hkind.
  destruct kind; try contradiction; cbn [run_branch].
  - apply (triple_execute_create_table Inv); auto using lock_check_write_known.
  - apply (triple_execute_create_view Inv) with (V := V);
      auto using lock_check_read_known, view_statement_query_like.
  - apply (triple_execute_drop_table Inv); auto using lock_check_write_known.
  - apply (triple_execute_insert Inv); auto using lock_check_write_known.
  - apply (triple_execute_delete Inv); auto using lock_check_write_known.
  - apply (triple_execute_update Inv); auto using lock_check_write_known.
  - apply (triple_execute_join Inv); auto using lock_check_read_Inv.
  - apply (triple_execute_select Inv) with (V := V);
      auto using lock_check_read_known.
  - intros s [Hs _]. simpl. exact Hs.
Qed.

(** Executing a query keeps the invariant, at any depth. *)
Lemma execute_query fuel : forall statement,
  query_like statement = true ->
  triple known (execute fuel statement) (fun _ => Inv) (raising Inv).
Proof.
  induction fuel as [|fuel IH]; intros statement Hq.
  - intros s [Hs _]. simpl. split; [exact Hs|reflexivity].
  - cbn [execute].
    eapply triple_bind.
    { eapply triple_weaken;
        [apply (triple_lift_outcome known), tokenize_quiet
        |auto|intros a s H; exact H|].
      intros e s [[Hs _] He]. split; assumption. }
    intros tokens. apply triple_assume. intros Htokens.
    destruct (unterminated tokens).
    { intros s [Hs _]. simpl. split; [exact Hs|reflexivity]. }
    eapply triple_bind.
    { eapply triple_weaken;
        [apply (triple_lift known)|auto|intros a s H; exact H|].
      intros e s [[Hs _] He]. split; assumption. }
    intros kind. apply triple_assume. intros Hkind.
    apply triple_run_branch; [exact IH|].
    unfold query_like in Hq. rewrite Htokens, Hkind in Hq.
    destruct kind; try discriminate; exact Logic.I.
Qed.

End Queries.

(** ** Transaction-state errors *)

(** The modes that BEGIN supports, TRANSACTION being what the token after
    BEGIN is when no mode is named. *)
Definition supported_mode (m : value) : bool :=
  py_eq m (VStr "DEFERRED") || py_eq m (VStr "TRANSACTION")
  || py_eq m (VStr "IMMEDIATE") || py_eq m (VStr "EXCLUSIVE").

(** The token at index [i] is the word [word]. *)
Definition names (tokens : list value) (i : Z) (word : string) : bool :=
  match py_index tokens i with
  | Ok token => py_eq token (VStr word)
  | Raise _ => false
  end.

(** [BEGIN ... TRANSACTION], [COMMIT TRANSACTION] and [ROLLBACK
    TRANSACTION], as token lists. *)
Definition begins (tokens : list value) : bool :=
  names tokens 0 "BEGIN" && names tokens (-2) "TRANSACTION".

Definition commits (tokens : list value) : bool :=
  names tokens 0 "COMMIT" && names tokens 1 "TRANSACTION".

Definition rolls_back (tokens : list value) : bool :=
  names tokens 0 "ROLLBACK" && names tokens 1 "TRANSACTION".

(** The token after BEGIN is a mode that BEGIN supports. *)
Definition names_supported_mode (tokens : list value) : bool :=
  match py_index tokens 1 with
  | Ok m => supported_mode m
  | Raise _ => false
  end.

(** The three misuses of the transaction statements, for a connection
    whose transaction mode is [tmode]: BEGIN ... TRANSACTION within a
    transaction, BEGIN with a mode that is not supported, COMMIT
    TRANSACTION and ROLLBACK TRANSACTION without a transaction. *)
Definition transaction_misuse (statement : string) (tmode : option mode)
  : bool :=
  match tokenize statement with
  | Raise _ => false
  | Ok tokens =>
      negb (Connection.unterminated tokens) &&
      (if begins tokens then
         match tmode with
         | Some _ => true
         | None => negb (names_supported_mode tokens)
         end
       else if commits tokens || rolls_back tokens then
         match tmode with
         | Some _ => false
         | None => true
         end
       else false)
  end.

Section TransactionState.
Import Connection.

Lemma anything_modify (f : state -> state) : keeps anything (modify f).
Proof. apply keeps_modify. intros; exact Logic.I. Qed.

Lemma anything_on_lock_system (A : Type) (m : M LockSystem.t A) :
  keeps anything m -> keeps anything (on_lock_system m).
Proof.
  intros Hm. apply keeps_anything. intros s. unfold on_lock_system.
  specialize (Hm (locksystem_objects (globals s) (lock_system (self s)))
                Logic.I).
  destruct (m _) as [[a|e] ls']; simpl; [exact Logic.I|apply Hm].
Qed.

Lemma anything_on_database (A : Type) (m : M Database.t A) :
  keeps anything m -> keeps anything (on_database m).
Proof.
  intros Hm. apply keeps_anything. intros s. unfold on_database.
  specialize (Hm (database_objects (globals s) (database (self s))) Logic.I).
  destruct (m _) as [[a|e] db']; simpl; [exact Logic.I|apply Hm].
Qed.

Lemma anything_deepcopy r : keeps anything (deepcopy r).
Proof. apply keeps_anything. intros s. exact Logic.I. Qed.

Lemma anything_lock_check act : keeps anything (lock_check act).
Proof.
  apply keeps_lock_check. intros [m|] held.
  - apply keeps_lock_transition_tx;
      auto using anything_on_lock_system; intros; apply anything_modify.
  - apply keeps_lock_transition_auto;
      auto using anything_on_lock_system, anything_deepcopy;
      intros; apply anything_modify.
Qed.

Lemma anything_add_lock l held : keeps anything (add_lock l held).
Proof.
  apply keeps_add_lock. exact anything_on_lock_system.
Qed.

Lemma anything_remove_lock held : keeps anything (remove_lock held).
Proof.
  apply keeps_remove_lock. exact anything_on_lock_system.
Qed.

End TransactionState.

(** *** BEGIN, COMMIT and ROLLBACK *)

Section Control.
Import Connection.

(** What BEGIN, COMMIT and ROLLBACK do when they are not misused keeps
    every invariant that the steps they are made of keep. *)
Variable Inv : state -> Prop.
Hypothesis Inv_set_transaction_lock :
  forall l, keeps Inv (set_transaction_lock l).
Hypothesis Inv_set_transaction_mode :
  forall m, keeps Inv (set_transaction_mode m).
Hypothesis Inv_set_database : forall r, keeps Inv (set_database r).
Hypothesis Inv_deepcopy : forall r, keeps Inv (deepcopy r).
Hypothesis Inv_on_lock_system :
  forall (A : Type) (m : M LockSystem.t A),
    keeps anything m -> keeps Inv (on_lock_system m).
Hypothesis Inv_publish : keeps Inv publish_database.

Lemma keeps_begin_with tmode lock_type :
  keeps Inv (begin_with tmode lock_type).
Proof.
  unfold begin_with.
  apply keeps_bind; [apply keeps_committed_database|intros r].
  apply keeps_bind; [apply Inv_deepcopy|intros r'].
  apply keeps_bind; [apply Inv_set_database|intros _].
  apply keeps_bind; [apply Inv_set_transaction_mode|intros _].
  apply keeps_bind; [|intros _; apply keeps_ret].
  destruct lock_type as [l|]; [|apply Inv_set_transaction_lock].
  apply keeps_bind; [apply keeps_add_lock, Inv_on_lock_system|intros ok].
  apply keeps_when, Inv_set_transaction_lock.
Qed.

Lemma keeps_commit_transaction : keeps Inv commit_transaction.
Proof.
  unfold commit_transaction.
  apply keeps_bind; [apply keeps_get_transaction_lock|intros held].
  apply keeps_bind; [|intros _; apply keeps_ret].
  destruct held as [[| |]|].
  - apply keeps_bind; [apply keeps_remove_lock, Inv_on_lock_system|intros _].
    apply keeps_bind; [apply Inv_set_transaction_lock|intros _].
    apply keeps_bind; [apply Inv_set_transaction_mode|intros _].
    apply keeps_bind; [apply keeps_committed_database|intros r].
    apply Inv_set_database.
  - apply keeps_bind; [apply keeps_add_lock, Inv_on_lock_system|intros ok].
    apply keeps_when.
    apply keeps_bind; [apply Inv_set_transaction_lock|intros _].
    apply keeps_bind; [apply keeps_remove_lock, Inv_on_lock_system|intros _].
    apply keeps_bind; [apply Inv_set_transaction_lock|intros _].
    apply keeps_bind; [apply Inv_set_transaction_mode|intros _].
    apply Inv_publish.
  - apply keeps_bind; [apply keeps_remove_lock, Inv_on_lock_system|intros _].
    apply keeps_bind; [apply Inv_set_transaction_lock|intros _].
    apply keeps_bind; [apply Inv_set_transaction_mode|intros _].
    apply Inv_publish.
  - apply keeps_bind; [apply Inv_set_transaction_mode|intros _].
    apply keeps_bind; [apply keeps_committed_database|intros r].
    apply Inv_set_database.
Qed.

Lemma keeps_rollback_transaction : keeps Inv rollback_transaction.
Proof.
  unfold rollback_transaction.
  apply keeps_bind; [apply keeps_get_transaction_lock|intros held].
  apply keeps_bind; [apply keeps_remove_lock, Inv_on_lock_system|intros _].
  apply keeps_bind; [apply Inv_set_transaction_lock|intros _].
  apply keeps_bind; [apply Inv_set_transaction_mode|intros _].
  apply keeps_bind; [apply keeps_committed_database|intros r].
  apply keeps_bind; [apply Inv_set_database|intros _].
  apply keeps_ret.
Qed.

End Control.

Section ControlQuiet.
Import Connection.

(** In particular they raise no transaction-state error. *)
Lemma anything_begin_with tmode lock_type :
  keeps anything (begin_with tmode lock_type).
Proof.
  apply keeps_begin_with;
    auto using anything_on_lock_system, anything_deepcopy;
    intros; apply anything_modify.
Qed.

Lemma anything_commit_transaction : keeps anything commit_transaction.
Proof.
  apply keeps_commit_transaction;
    auto using anything_on_lock_system; intros; apply anything_modify.
Qed.

Lemma anything_rollback_transaction : keeps anything rollback_transaction.
Proof.
  apply keeps_rollback_transaction;
    auto using anything_on_lock_system; intros; apply anything_modify.
Qed.

End ControlQuiet.

Section TransactionErrors.
Import Connection.

Lemma anything_views_lock_check act :
  keeps (fun s => anything s /\ views_hold s) (lock_check act).
Proof.
  apply keeps_conj; [apply anything_lock_check|apply views_lock_check].
Qed.

(** A query raises no transaction-state error, whatever the views it goes
    through. *)
Lemma execute_query_quiet fuel statement st :
  views_hold st -> query_like statement = true ->
  quiet (fst (execute fuel statement st)).
Proof.
  intros Hv Hq.
  pose proof (execute_query anything views_hold
                (fun l => anything_modify _) anything_on_lock_system
                anything_on_database (anything_modify _)
                (anything_views_lock_check Read) (anything_lock_check Write)
                views_get_table fuel statement Hq st (conj Logic.I Hv)) as H.
  destruct (execute fuel statement st) as [[a|e] s']; simpl;
    [exact Logic.I|apply H].
Qed.

(** Nor does any branch but those of BEGIN, COMMIT and ROLLBACK. *)
Lemma run_branch_quiet fuel statement tokens kind st :
  views_hold st ->
  match kind with KBegin | KCommit | KRollback => False | _ => True end ->
  quiet (fst (run_branch (execute fuel) statement tokens kind st)).
Proof.
  intros Hv Hkind.
  pose proof (triple_run_branch anything views_hold
                (fun l => anything_modify _) anything_on_lock_system
                anything_on_database (anything_modify _)
                (anything_views_lock_check Read) (anything_lock_check Write)
                views_get_table (execute fuel) statement tokens kind) as H.
  assert (Hrec : forall statement,
            query_like statement = true ->
            triple (fun s => anything s /\ views_hold s)
              (execute fuel statement) (fun _ => anything)
              (raising anything)).
  { intros stmt Hq.
    exact (execute_query anything views_hold
             (fun l => anything_modify _) anything_on_lock_system
             anything_on_database (anything_modify _)
             (anything_views_lock_check Read) (anything_lock_check Write)
             views_get_table fuel stmt Hq). }
  specialize (H Hrec Hkind st (conj Logic.I Hv)).
  destruct (run_branch _ _ _ _ st) as [[a|e] s']; simpl;
    [exact Logic.I|apply H].
Qed.

(** A computation that keeps no invariant in particular, run. *)
Lemma keeps_anything_quiet {A : Type} (m : M state A) st :
  keeps anything m -> quiet (fst (m st)).
Proof.
  intros H. specialize (H st Logic.I).
  destruct (m st) as [[a|e] s']; simpl; [exact Logic.I|apply H].
Qed.

Lemma quiet_not_error {A : Type} (r : outcome A) :
  quiet r ->
  ~ exists e, r = Raise e /\ transaction_state_error e = true.
Proof.
  intros Hq [e [E He]]. subst r. simpl in Hq. congruence.
Qed.

End TransactionErrors.

Section Misuse.
Import Connection.

(** [execute], one step unfolded. *)
Lemma execute_step fuel statement st :
  execute (S fuel) statement st =
  match tokenize statement with
  | Raise e => (Raise e, st)
  | Ok tokens =>
      if unterminated tokens then
        (Raise (AssertionError "Statement is not a valid SQL statement!"), st)
      else
        match classify tokens with
        | Raise e => (Raise (Builtin e), st)
        | Ok kind => run_branch (execute fuel) statement tokens kind st
        end
  end.
Proof.
  cbn [execute]. unfold bind at 1, lift_outcome.
  destruct (tokenize statement) as [tokens|e]; [|reflexivity].
  destruct (unterminated tokens); [reflexivity|].
  unfold bind at 1, lift.
  destruct (classify tokens) as [kind|e]; reflexivity.
Qed.

(** The BEGIN, COMMIT and ROLLBACK branches, by the transaction mode of
    the connection. *)
Lemma execute_begin_unfold tokens st :
  execute_begin tokens st =
  match transaction_mode (self st) with
  | Some _ =>
      (Raise (Exception
         "Beginning transaction attempted within an open transaction!"), st)
  | None =>
      match py_index tokens 1 with
      | Raise e => (Raise (Builtin e), st)
      | Ok m =>
          (if py_eq m (VStr "DEFERRED") || py_eq m (VStr "TRANSACTION")
           then begin_with DEFERRED None
           else if py_eq m (VStr "IMMEDIATE")
           then begin_with IMMEDIATE (Some LReserved)
           else if py_eq m (VStr "EXCLUSIVE")
           then begin_with EXCLUSIVE (Some LExclusive)
           else raise (Exception
                  "Transaction mode attempted is one not supported!")) st
      end
  end.
Proof.
  unfold execute_begin, bind at 1, get_transaction_mode.
  destruct (transaction_mode (self st)) as [m|]; [reflexivity|].
  unfold bind at 1, lift.
  destruct (py_index tokens 1) as [m|e]; reflexivity.
Qed.

Lemma execute_commit_unfold st :
  execute_commit st =
  match transaction_mode (self st) with
  | Some _ => commit_transaction st
  | None =>
      (Raise (Exception
         "Committing transaction attempted without a prior BEGIN TRANSACTION"),
       st)
  end.
Proof.
  unfold execute_commit, bind at 1, get_transaction_mode.
  destruct (transaction_mode (self st)); reflexivity.
Qed.

Lemma execute_rollback_unfold st :
  execute_rollback st =
  match transaction_mode (self st) with
  | Some _ => rollback_transaction st
  | None =>
      (Raise (Exception
         "Rolling back transaction attempted outside of manual transaction"),
       st)
  end.
Proof.
  unfold execute_rollback, bind at 1, get_transaction_mode.
  destruct (transaction_mode (self st)); reflexivity.
Qed.

(** Each of them raises its transaction-state error and leaves the state
    as it is, or raises none. *)
Lemma execute_begin_cases tokens st :
  match transaction_mode (self st) with
  | Some _ =>
      execute_begin tokens st =
      (Raise (Exception
         "Beginning transaction attempted within an open transaction!"), st)
  | None =>
      match py_index tokens 1 with
      | Raise e => execute_begin tokens st = (Raise (Builtin e), st)
      | Ok m =>
          if supported_mode m then quiet (fst (execute_begin tokens st))
          else execute_begin tokens st =
               (Raise (Exception
                  "Transaction mode attempted is one not supported!"), st)
      end
  end.
Proof.
  rewrite execute_begin_unfold.
  destruct (transaction_mode (self st)) as [m|]; [reflexivity|].
  destruct (py_index tokens 1) as [m|e]; [|reflexivity].
  unfold supported_mode.
  destruct (py_eq m (VStr "DEFERRED") || py_eq m (VStr "TRANSACTION")).
  { cbn [orb]. apply keeps_anything_quiet, anything_begin_with. }
  cbn [orb].
  destruct (py_eq m (VStr "IMMEDIATE")).
  { cbn [orb]. apply keeps_anything_quiet, anything_begin_with. }
  cbn [orb].
  destruct (py_eq m (VStr "EXCLUSIVE")).
  { apply keeps_anything_quiet, anything_begin_with. }
  reflexivity.
Qed.

Lemma execute_commit_cases st :
  match transaction_mode (self st) with
  | Some _ => quiet (fst (execute_commit st))
  | None =>
      execute_commit st =
      (Raise (Exception
         "Committing transaction attempted without a prior BEGIN TRANSACTION"),
       st)
  end.
Proof.
  rewrite execute_commit_unfold.
  destruct (transaction_mode (self st)) as [m|]; [|reflexivity].
  apply keeps_anything_quiet, anything_commit_transaction.
Qed.

Lemma execute_rollback_cases st :
  match transaction_mode (self st) with
  | Some _ => quiet (fst (execute_rollback st))
  | None =>
      execute_rollback st =
      (Raise (Exception
         "Rolling back transaction attempted outside of manual transaction"),
       st)
  end.
Proof.
  rewrite execute_rollback_unfold.
  destruct (transaction_mode (self st)) as [m|]; [|reflexivity].
  apply keeps_anything_quiet, anything_rollback_transaction.
Qed.

(** A token that is one word is no other word. *)
Lemma py_eq_word token (a b : string) :
  py_eq token (VStr a) = true -> py_eq token (VStr b) = String.eqb a b.
Proof.
  destruct token; simpl; try discriminate.
  intros H. apply String.eqb_eq in H. subst. reflexivity.
Qed.

(** A list with a token before the last has a second token. *)
Lemma py_index_second {A : Type} (l : list A) (x : A) :
  py_index l (-2) = Ok x -> exists y, py_index l 1 = Ok y.
Proof.
  unfold py_index. cbv zeta.
  change (-2 <? 0) with true. change (1 <? 0) with false. cbv iota.
  destruct ((Z.of_nat (List.length l) + -2 <? 0)
            || (Z.of_nat (List.length l) <=? Z.of_nat (List.length l) + -2))
    eqn:E; [discriminate|].
  intros _. apply orb_false_iff in E as [E _]. apply Z.ltb_ge in E.
  destruct l as [|a [|b l]]; cbn [List.length] in E; try lia.
  exists b.
  assert (E' : (1 <? 0) || (Z.of_nat (List.length (a :: b :: l)) <=? 1)
               = false).
  { apply orb_false_iff. split; [reflexivity|].
    apply Z.leb_gt. cbn [List.length]. lia. }
  rewrite E'. reflexivity.
Qed.

(** The chain of tests of [execute] takes a statement for BEGIN, COMMIT or
    ROLLBACK exactly when its tokens are those of the statement. *)
Lemma classify_control tokens :
  match classify tokens with
  | Ok KBegin => begins tokens = true
  | Ok KCommit => begins tokens = false /\ commits tokens = true
  | Ok KRollback =>
      begins tokens = false /\ commits tokens = false /\
      rolls_back tokens = true
  | _ =>
      begins tokens = false /\ commits tokens = false /\
      rolls_back tokens = false
  end.
Proof.
  unfold classify, begins, commits, rolls_back, names, and_then, tok_is.
  destruct (py_index tokens 0) as [t0|e0]; cbn [res_bind];
    [|repeat split; reflexivity].
  destruct (py_eq t0 (VStr "BEGIN")) eqn:Eb.
  { rewrite (py_eq_word _ _ "COMMIT" Eb), (py_eq_word _ _ "ROLLBACK" Eb).
    cbn [String.eqb Ascii.eqb Bool.eqb andb].
    destruct (py_index tokens (-2)) as [t|e]; cbn [res_bind];
      [|repeat split; reflexivity].
    destruct (py_eq t (VStr "TRANSACTION")); [reflexivity|].
    rewrite (py_eq_word _ _ "CREATE" Eb), (py_eq_word _ _ "DROP" Eb),
      (py_eq_word _ _ "INSERT" Eb), (py_eq_word _ _ "DELETE" Eb),
      (py_eq_word _ _ "UPDATE" Eb), (py_eq_word _ _ "SELECT" Eb).
    cbn [String.eqb Ascii.eqb Bool.eqb andb res_bind].
    destruct (_ && _); repeat split; reflexivity. }
  cbn [andb].
  destruct (py_eq t0 (VStr "COMMIT")) eqn:Ec.
  { rewrite (py_eq_word _ _ "ROLLBACK" Ec).
    cbn [String.eqb Ascii.eqb Bool.eqb andb].
    destruct (py_index tokens 1) as [t1|e1]; cbn [res_bind];
      [|repeat split; reflexivity].
    destruct (py_eq t1 (VStr "TRANSACTION")); [split; reflexivity|].
    rewrite (py_eq_word _ _ "CREATE" Ec), (py_eq_word _ _ "DROP" Ec),
      (py_eq_word _ _ "INSERT" Ec), (py_eq_word _ _ "DELETE" Ec),
      (py_eq_word _ _ "UPDATE" Ec), (py_eq_word _ _ "SELECT" Ec).
    cbn [String.eqb Ascii.eqb Bool.eqb andb res_bind].
    destruct (_ && _); repeat split; reflexivity. }
  cbn [andb].
  destruct (py_eq t0 (VStr "ROLLBACK")) eqn:Er.
  { destruct (py_index tokens 1) as [t1|e1]; cbn [res_bind];
      [|repeat split; reflexivity].
    destruct (py_eq t1 (VStr "TRANSACTION")); [repeat split; reflexivity|].
    rewrite (py_eq_word _ _ "CREATE" Er), (py_eq_word _ _ "DROP" Er),
      (py_eq_word _ _ "INSERT" Er), (py_eq_word _ _ "DELETE" Er),
      (py_eq_word _ _ "UPDATE" Er), (py_eq_word _ _ "SELECT" Er).
    cbn [String.eqb Ascii.eqb Bool.eqb andb res_bind].
    destruct (_ && _); repeat split; reflexivity. }
  cbn [andb].
  repeat match goal with
         | |- context [res_bind ?r _] =>
             match r with
             | Ok _ => cbn [res_bind]
             | _ => destruct r; cbn [res_bind]
             end
         | |- context [if ?c then _ else _] => destruct c
         end; repeat split; reflexivity.
Qed.

(** A misused transaction statement raises a transaction-state error and
    leaves everything as it was; any other statement raises no such
    error. *)
Lemma execute_by_misuse fuel statement st :
  views_ok (globals st) ->
  if transaction_misuse statement (transaction_mode (self st)) then
    exists e, execute (S fuel) statement st = (Raise e, st) /\
              transaction_state_error e = true
  else quiet (fst (execute (S fuel) statement st)).
Proof.
  intros Hv. rewrite execute_step. unfold transaction_misuse.
  pose proof (tokenize_quiet statement) as Htok.
  destruct (tokenize statement) as [tokens|e]; [|exact Htok].
  destruct (unterminated tokens); [reflexivity|]. cbn [negb andb].
  pose proof (classify_control tokens) as Hc.
  destruct (classify tokens) as [kind|e].
  2: { destruct Hc as (-> & -> & ->). reflexivity. }
  destruct kind;
    try (destruct Hc as (-> & -> & ->);
         apply run_branch_quiet; [exact Hv|exact Logic.I]).
  - rewrite Hc. cbn [run_branch].
    pose proof (execute_begin_cases tokens st) as H.
    destruct (transaction_mode (self st)) as [m|].
    + rewrite H. eexists; split; reflexivity.
    + unfold names_supported_mode.
      unfold begins, names in Hc. apply andb_true_iff in Hc as [_ Hc].
      destruct (py_index tokens (-2)) as [t|e] eqn:E2; [|discriminate].
      destruct (py_index_second _ _ E2) as [m Em]. rewrite Em in *.
      destruct (supported_mode m); cbn [negb]; [exact H|].
      rewrite H. eexists; split; reflexivity.
  - destruct Hc as (-> & ->). cbn [orb run_branch].
    pose proof (execute_commit_cases st) as H.
    destruct (transaction_mode (self st)) as [m|]; [exact H|].
    rewrite H. eexists; split; reflexivity.
  - destruct Hc as (-> & -> & ->). cbn [orb run_branch].
    pose proof (execute_rollback_cases st) as H.
    destruct (transaction_mode (self st)) as [m|]; [exact H|].
    rewrite H. eexists; split; reflexivity.
Qed.

End Misuse.

(** ** The statements of the views are queries *)

(** [views_ok] is an invariant of [execute]: tables are made without a
    statement, views with the text from the first [SELECT] on of the
    statement that makes them, and nothing changes the statement of a
    view. *)

(** An invariant [J] is kept by a computation that raises no
    transaction-state error and leaves the state in [J]. *)
Lemma keeps_from_parts {S A : Type} (J : S -> Prop) (m : M S A) :
  keeps anything m -> (forall s, J s -> J (snd (m s))) -> keeps J m.
Proof.
  intros Hq HJ s Hs. specialize (Hq s Logic.I). specialize (HJ s Hs).
  destruct (m s) as [[a|e] s']; simpl in *; [exact HJ|].
  split; [exact HJ|apply Hq].
Qed.

(** *** Tables *)

(** What a table is as a view. *)
Definition viewing (v : option Table.view_attrs) (table : Table.t) : Prop :=
  Table.view table = v.

Lemma insert_row_view table values columns table' :
  Table.insert_row table values columns = Ok table' ->
  Table.view table' = Table.view table.
Proof.
  unfold Table.insert_row. destruct values as [d|values].
  - intros [= <-]. reflexivity.
  - destruct (_ >? _); [intros [= <-]; reflexivity|].
    destruct (match columns with Some _ => _ | None => _ end) as [vs|e];
      [|discriminate].
    cbn [res_bind].
    destruct (Table.types_ok _ _); intros [= <-]; reflexivity.
Qed.

Lemma viewing_table_method v (f : Table.t -> res Table.t) :
  (forall table table', f table = Ok table' ->
                        Table.view table' = Table.view table) ->
  keeps (viewing v) (Connection.table_method f).
Proof.
  intros Hf. apply keeps_from_parts; [apply keeps_table_method|].
  intros table Hv. unfold Connection.table_method.
  destruct (f table) as [table'|e] eqn:E; simpl; [|exact Hv].
  unfold viewing in *. rewrite (Hf _ _ E). exact Hv.
Qed.

Lemma viewing_insert_row v values columns :
  keeps (viewing v)
    (Connection.table_method
       (fun table => Table.insert_row table values columns)).
Proof.
  apply viewing_table_method. intros table table'. apply insert_row_view.
Qed.

Lemma viewing_materialize v result :
  keeps (viewing v) (Connection.materialize result).
Proof.
  unfold Connection.materialize. destruct result as [result|].
  - apply keeps_for_each. intros row.
    apply keeps_bind; [apply keeps_lift|intros l; apply viewing_insert_row].
  - apply keeps_raise. reflexivity.
Qed.

Lemma viewing_insert_entries v (fuel : nat) :
  forall tokens columns values_end entry_start entry_end,
    keeps (viewing v)
      (Connection.insert_entries fuel tokens columns values_end
         entry_start entry_end).
Proof.
  induction fuel as [|fuel IH]; intros; cbn [Connection.insert_entries].
  - apply keeps_raise. reflexivity.
  - destruct (entry_start <? values_end); [|apply keeps_ret].
    apply keeps_bind; [apply viewing_insert_row|intros _].
    destruct (negb _); [apply keeps_ret|].
    apply keeps_bind; [apply keeps_lift|intros a].
    apply keeps_bind; [apply keeps_lift|intros b].
    apply IH.
Qed.

Lemma viewing_insert_into v (tokens : list value) :
  keeps (viewing v) (Connection.insert_into tokens).
Proof.
  unfold Connection.insert_into.
  apply keeps_bind; [apply keeps_lift|intros values_index].
  apply keeps_bind; [apply keeps_lift|intros before].
  destruct (py_eq before (VStr "DEFAULT")); [apply viewing_insert_row|].
  apply keeps_bind; [|intros columns].
  { destruct (negb _); keeps_auto. }
  apply keeps_bind; [apply keeps_lift|intros values_end].
  apply keeps_bind; [apply keeps_lift|intros at_open].
  apply keeps_bind; [apply keeps_lift|intros entry_end].
  apply viewing_insert_entries.
Qed.

Lemma viewing_update_table v values conditions :
  keeps (viewing v) (Connection.update_table values conditions).
Proof.
  apply keeps_from_parts; [apply keeps_update_table|].
  intros table Hv. unfold Connection.update_table.
  destruct (Table.size table =? 0); [exact Hv|].
  destruct (match conditions with Some _ => _ | None => _ end) as [marks|e];
    [|exact Hv].
  destruct (Connection.assign_rows _ _ _ _) as [r rows']. exact Hv.
Qed.

Lemma remove_row_view table row :
  Table.view (Table.remove_row table row) = Table.view table.
Proof.
  unfold Table.remove_row. destruct (Table.size table =? 0); [reflexivity|].
  destruct (Table.remove_first row (Table.rows table)); reflexivity.
Qed.

Lemma remove_rows_view rows : forall table,
  Table.view (fold_left Table.remove_row rows table) = Table.view table.
Proof.
  induction rows as [|row rows IH]; intros table; simpl; [reflexivity|].
  rewrite IH. apply remove_row_view.
Qed.

Lemma viewing_delete_from v conditions :
  keeps (viewing v) (Connection.delete_from conditions).
Proof.
  apply keeps_from_parts; [apply keeps_delete_from|].
  intros table Hv. unfold Connection.delete_from.
  destruct (Table.size table =? 0); [exact Hv|].
  destruct conditions as [conditions|]; [|exact Hv].
  destruct (Connection.condition_marks table conditions) as [marks|e];
    [|exact Hv].
  simpl. unfold viewing in *. rewrite remove_rows_view. exact Hv.
Qed.

Lemma viewing_update_with v (tokens : list value) :
  keeps (viewing v) (Connection.update_with tokens).
Proof.
  unfold Connection.update_with.
  apply keeps_bind; [apply keeps_lift|intros end_index].
  apply keeps_bind; [apply keeps_ret|intros has_where].
  apply keeps_bind; [destruct has_where; keeps_auto|intros where_index].
  apply keeps_bind; [destruct has_where; keeps_auto|intros conditions].
  apply keeps_bind; [|intros set_values; apply viewing_update_table].
  destruct (py_in _ _); keeps_auto.
Qed.

(** *** Databases *)

(** A table that is a view stores a query. *)
Definition table_ok (table : Table.t) : Prop :=
  forall attrs, Table.view table = Some attrs ->
                query_like (Table.statement attrs) = true.

Definition tables_ok (db : Database.t) : Prop :=
  forall key table, List.In (key, table) (Database.tables db) -> table_ok table.

Lemma views_ok_tables w :
  views_ok w <-> forall r, tables_ok (database_objects w r).
Proof.
  split.
  - intros H r key table Hin attrs Hview. eapply H; eauto.
  - intros H r key table attrs Hin Hview. eapply H; eauto.
Qed.

Lemma dict_set_in {V : Type} (key k : value) (v x : V) (d : dict V) :
  List.In (k, x) (dict_set key v d) -> x = v \/ List.In (k, x) d.
Proof.
  induction d as [|[k' v'] d IH]; simpl.
  - intros [H|[]]. inversion H. auto.
  - destruct (py_eq k' key); simpl.
    + intros [H|H]; [inversion H; auto|auto].
    + intros [H|H]; [auto|]. destruct (IH H); auto.
Qed.

Lemma dict_remove_in {V : Type} (key k : value) (x : V) (d : dict V) :
  List.In (k, x) (dict_remove key d) -> List.In (k, x) d.
Proof.
  induction d as [|[k' v'] d IH]; simpl; [auto|].
  destruct (py_eq k' key); simpl; [auto|].
  intros [H|H]; auto.
Qed.

Lemma tables_ok_set_table db key table :
  tables_ok db -> table_ok table ->
  tables_ok (Database.set_table db key table).
Proof.
  intros Hdb Ht k x Hin. simpl in Hin.
  apply dict_set_in in Hin as [->|Hin]; [exact Ht|eauto].
Qed.

Lemma tables_ok_get db key table :
  tables_ok db -> dict_get key (Database.tables db) = Some table ->
  table_ok table.
Proof.
  intros Hdb Hget. apply dict_get_in in Hget as [k Hin]. eauto.
Qed.

Lemma tables_on_table {A : Type} (table_name : value) (m : M Table.t A) :
  (forall v, keeps (viewing v) m) ->
  keeps tables_ok (on_table table_name m).
Proof.
  intros Hm db Hdb. unfold on_table.
  destruct (dict_get table_name (Database.tables db)) as [table|] eqn:E.
  - pose proof (tables_ok_get _ _ _ Hdb E) as Ht.
    specialize (Hm (Table.view table) table eq_refl).
    destruct (m table) as [[a|e] table'].
    + apply tables_ok_set_table; [exact Hdb|].
      unfold table_ok, viewing in *. rewrite Hm. exact Ht.
    + destruct Hm as [Hm He]. split; [|exact He].
      apply tables_ok_set_table; [exact Hdb|].
      unfold table_ok, viewing in *. rewrite Hm. exact Ht.
  - split; [exact Hdb|reflexivity].
Qed.

Lemma table_init_view table_name values table :
  Table.init table_name values = Ok table -> Table.view table = None.
Proof.
  unfold Table.init.
  destruct (match values with [] => _ | _ => _ end) as [schema|e];
    [|discriminate].
  cbn [res_bind].
  destruct (Table.read_defaults values) as [defaults|e]; [|discriminate].
  cbn [res_bind]. intros [= <-]. reflexivity.
Qed.

Lemma view_init_view view_name table_name view_columns table_schema
    statement table :
  View.init view_name table_name view_columns table_schema statement
    = Ok table ->
  Table.statement <$> Table.view table = Some statement.
Proof.
  unfold View.init.
  destruct (View.unqualify _ _ _) as [unqualified_schema|e]; [|discriminate].
  cbn [res_bind].
  destruct (Table.init view_name []) as [base|e]; [|discriminate].
  cbn [res_bind]. intros [= <-]. reflexivity.
Qed.

Lemma view_init_ok view_name table_name view_columns table_schema
    statement table :
  query_like statement = true ->
  View.init view_name table_name view_columns table_schema statement
    = Ok table ->
  table_ok table.
Proof.
  intros Hq Hinit attrs Hview. apply view_init_view in Hinit.
  rewrite Hview in Hinit. simpl in Hinit. inversion Hinit. congruence.
Qed.

Lemma tables_ok_add_table db table_name values db' :
  tables_ok db -> Database.add_table db table_name values = Ok db' ->
  tables_ok db'.
Proof.
  intros Hdb. unfold Database.add_table.
  destruct (Table.init table_name values) as [table|e] eqn:E; [|discriminate].
  cbn [res_bind]. intros [= <-] k x Hin. simpl in Hin.
  apply dict_set_in in Hin as [->|Hin]; [|eauto].
  intros attrs Hview. rewrite (table_init_view _ _ _ E) in Hview.
  discriminate.
Qed.

Lemma tables_ok_remove_table db table_name db' :
  tables_ok db -> Database.remove_table db table_name = Ok db' ->
  tables_ok db'.
Proof.
  intros Hdb. unfold Database.remove_table.
  destruct (dict_mem _ _); [|discriminate].
  intros [= <-] k x Hin. simpl in Hin. apply dict_remove_in in Hin. eauto.
Qed.

Lemma tables_ok_add_view db view_name table_name view_columns schema
    statement db' :
  query_like statement = true -> tables_ok db ->
  Database.add_view db view_name table_name view_columns schema statement
    = Ok db' ->
  tables_ok db'.
Proof.
  intros Hq Hdb. unfold Database.add_view.
  destruct (View.init _ _ _ _ _) as [view|e] eqn:E; [|discriminate].
  cbn [res_bind]. intros [= <-] k x Hin. simpl in Hin.
  apply dict_set_in in Hin as [->|Hin]; [|eauto].
  eapply view_init_ok; eauto.
Qed.

(** *** Connections *)

Section ViewsKept.
Import Connection.

Lemma views_on_database {A : Type} (m : M Database.t A) :
  keeps tables_ok m -> keeps views_hold (on_database m).
Proof.
  intros Hm s Hv. unfold on_database.
  assert (Hdb : forall r, tables_ok (database_objects (globals s) r))
    by (apply views_ok_tables; exact Hv).
  specialize (Hm _ (Hdb (database (self s)))).
  assert (G : forall db', tables_ok db' ->
            views_hold
              {| self := self s;
                 globals :=
                   {| ALL_DATABASES := ALL_DATABASES (globals s);
                      ALL_DATABASES_LOCKSYSTEMS :=
                        ALL_DATABASES_LOCKSYSTEMS (globals s);
                      database_objects :=
                        store_set (database_objects (globals s))
                          (database (self s)) db';
                      database_count := database_count (globals s);
                      locksystem_objects := locksystem_objects (globals s);
                      locksystem_count := locksystem_count (globals s) |} |}).
  { intros db' Hdb'. apply views_ok_tables. intros r. simpl.
    unfold store_set. destruct (Nat.eqb r (database (self s))); auto. }
  destruct (m _) as [[a|e] db']; simpl.
  - apply G. exact Hm.
  - destruct Hm as [Hm He]. split; [apply G; exact Hm|exact He].
Qed.

Lemma views_database_method (f : Database.t -> res Database.t) :
  (forall db db', tables_ok db -> f db = Ok db' -> tables_ok db') ->
  keeps views_hold (database_method f).
Proof.
  intros Hf. unfold database_method. apply views_on_database.
  intros db Hdb. destruct (f db) as [db'|e] eqn:E; simpl.
  - eapply Hf; eauto.
  - split; [exact Hdb|reflexivity].
Qed.

Lemma views_in_autocommit act : keeps views_hold (in_autocommit act).
Proof.
  unfold in_autocommit.
  apply keeps_bind; [apply keeps_get_transaction_mode|intros tmode].
  destruct tmode; [apply keeps_ret|apply views_lock_check].
Qed.

Lemma tables_ok_set_joined_table joined :
  keeps tables_ok (modify (fun db => Database.set_joined_table db joined)).
Proof. apply keeps_modify. intros db Hdb. exact Hdb. Qed.

End ViewsKept.

(** Splits a goal [keeps views_hold m] along the structure of [m], as far
    as the steps are lock checks, reads and pure computations. *)
Ltac views_step :=
  match goal with
  | |- keeps _ (bind _ _) => apply keeps_bind; [|intros ?]
  | |- keeps _ (ret _) => apply keeps_ret
  | |- keeps _ (lift _) => apply keeps_lift
  | |- keeps _ (raise _) => apply keeps_raise; reflexivity
  | |- keeps _ (Connection.lock_check _) => apply views_lock_check
  | |- keeps _ (Connection.in_autocommit _) => apply views_in_autocommit
  | |- keeps _ (Connection.table_exists _) => apply keeps_table_exists
  | |- keeps _ (Connection.get_table _) => apply keeps_get_table
  | |- keeps _ Connection.get_database => apply keeps_get_database
  | |- keeps _ (if ?c then _ else _) => destruct c
  | |- keeps _ (match ?x with _ => _ end) => destruct x
  | |- keeps _ (let '(_, _) := ?x in _) => destruct x
  end.

Section ViewsBranches.
Import Connection.

Lemma views_execute_create_table tokens :
  keeps views_hold (execute_create_table tokens).
Proof.
  unfold execute_create_table. repeat views_step.
  apply views_database_method. intros db db' Hdb.
  apply tables_ok_add_table. exact Hdb.
Qed.

Lemma views_execute_drop_table tokens :
  keeps views_hold (execute_drop_table tokens).
Proof.
  unfold execute_drop_table. repeat views_step.
  apply views_database_method. intros db db' Hdb.
  apply tables_ok_remove_table. exact Hdb.
Qed.

Lemma views_execute_insert tokens :
  keeps views_hold (execute_insert tokens).
Proof.
  unfold execute_insert. repeat views_step.
  apply views_on_database, tables_on_table. intros v.
  apply viewing_insert_into.
Qed.

Lemma views_execute_delete tokens :
  keeps views_hold (execute_delete tokens).
Proof.
  unfold execute_delete. repeat views_step;
    apply views_on_database, tables_on_table; intros v;
    apply viewing_delete_from.
Qed.

Lemma views_execute_update tokens :
  keeps views_hold (execute_update tokens).
Proof.
  unfold execute_update. repeat views_step.
  apply views_on_database, tables_on_table. intros v.
  apply viewing_update_with.
Qed.

Lemma views_execute_join tokens :
  keeps views_hold (execute_join tokens).
Proof.
  unfold execute_join. repeat views_step.
  apply views_on_database, tables_ok_set_joined_table.
Qed.

(** The view that SELECT puts in the place of the one it reads stores the
    same statement. *)
Lemma materialize_table_ok result new_view filled :
  table_ok new_view ->
  match materialize result new_view with
  | (Ok _, filled) => Ok filled
  | (Raise e, _) => Raise e
  end = Ok filled ->
  table_ok filled.
Proof.
  intros Hok.
  pose proof (viewing_materialize (Table.view new_view) result new_view
                eq_refl) as H.
  destruct (materialize result new_view) as [[u|e] t]; [|discriminate].
  intros [= <-]. unfold table_ok, viewing in *. rewrite H. exact Hok.
Qed.

Lemma views_execute_select execute_rec tokens :
  (forall statement,
     query_like statement = true ->
     keeps views_hold (execute_rec statement)) ->
  keeps views_hold (execute_select execute_rec tokens).
Proof.
  intros Hrec. unfold execute_select.
  apply keeps_bind; [apply views_lock_check|intros _].
  apply keeps_bind; [apply keeps_lift|intros from_keyword].
  apply keeps_bind; [apply keeps_lift|intros table_name].
  unfold keeps.
  eapply triple_bind;
    [apply (triple_get_table views_hold views_hold table_name); auto
    |intros table].
  eapply triple_weaken with (P' := fun s => table_ok table /\ views_hold s);
    [apply triple_assume; intros Ht
    |intros s [Hv Hget]; split; [|exact Hv]
    |intros a s H; exact H|intros e s H; exact H].
  2: { intros attrs Hview. eapply views_get_table; eauto. }
  apply keeps_bind; [|intros table'; repeat views_step].
  destruct (Table.view table) as [attrs|] eqn:Eview; [|apply keeps_ret].
  apply keeps_bind; [apply Hrec, Ht; exact Eview|intros result].
  unfold keeps.
  eapply triple_bind; [apply (triple_lift views_hold)|intros new_view].
  apply triple_assume. intros Einit.
  eapply triple_bind;
    [apply (triple_lift_outcome views_hold), materialize_quiet|intros filled].
  apply triple_assume. intros Efill.
  assert (Hfilled : table_ok filled).
  { eapply materialize_table_ok; [|exact Efill].
    eapply view_init_ok; [|exact Einit]. apply Ht. exact Eview. }
  apply keeps_bind; [|intros _; apply keeps_ret].
  apply views_on_database, keeps_modify. intros db Hdb.
  apply tables_ok_set_table; assumption.
Qed.

Lemma views_execute_create_view execute_rec statement tokens :
  (forall statement,
     query_like statement = true ->
     keeps views_hold (execute_rec statement)) ->
  keeps views_hold (execute_create_view execute_rec statement tokens).
Proof.
  intros Hrec. unfold execute_create_view.
  pose proof (Hrec _ (view_statement_query_like statement)) as Hview.
  repeat views_step; try exact Hview.
  - apply views_database_method. intros db db' Hdb.
    apply tables_ok_add_view; [apply view_statement_query_like|exact Hdb].
  - apply views_on_database, tables_on_table. intros v'.
    apply viewing_materialize.
  - apply views_on_database, tables_ok_set_joined_table.
Qed.

(** Executing a query keeps the views as they should be, at any depth. *)
Lemma views_execute_query fuel : forall statement,
  query_like statement = true ->
  keeps views_hold (execute fuel statement).
Proof.
  induction fuel as [|fuel IH]; intros statement Hq.
  - apply keeps_raise. reflexivity.
  - cbn [execute]. unfold keeps.
    eapply triple_bind;
      [apply (triple_lift_outcome views_hold), tokenize_quiet|intros tokens].
    apply triple_assume. intros Htokens.
    destruct (unterminated tokens); [apply keeps_raise; reflexivity|].
    eapply triple_bind; [apply (triple_lift views_hold)|intros kind].
    apply triple_assume. intros Hkind.
    unfold query_like in Hq. rewrite Htokens, Hkind in Hq.
    destruct kind; try discriminate; cbn [run_branch].
    + apply views_execute_join.
    + apply views_execute_select. exact IH.
    + apply keeps_ret.
Qed.

(** Executing any statement does. *)
Theorem execute_views_ok fuel statement st :
  views_ok (globals st) ->
  views_ok (globals (snd (execute fuel statement st))).
Proof.
  intros Hv. destruct fuel as [|fuel]; [exact Hv|].
  rewrite execute_step.
  destruct (tokenize statement) as [tokens|e]; [|exact Hv].
  destruct (unterminated tokens); [exact Hv|].
  destruct (classify tokens) as [kind|e]; [|exact Hv].
  assert (Hk : forall (m : M state rows_result),
            keeps views_hold m -> views_ok (globals (snd (m st)))).
  { intros m Hm. specialize (Hm st Hv).
    destruct (m st) as [[a|e] s']; simpl; [exact Hm|apply Hm]. }
  destruct kind; cbn [run_branch].
  - rewrite execute_begin_unfold.
    destruct (transaction_mode (self st)); [exact Hv|].
    destruct (py_index tokens 1) as [m|e]; [|exact Hv].
    repeat match goal with
           | |- context [if ?c then _ else _] => destruct c
           end;
      try exact Hv;
      (apply Hk, keeps_begin_with;
       auto using views_set_transaction_lock, views_set_database,
         views_deepcopy, views_on_lock_system;
       intros m' s H; exact H).
  - rewrite execute_commit_unfold.
    destruct (transaction_mode (self st)); [|exact Hv].
    apply Hk, keeps_commit_transaction;
      auto using views_set_transaction_lock, views_set_database,
        views_on_lock_system, views_publish;
      intros m' s H; exact H.
  - rewrite execute_rollback_unfold.
    destruct (transaction_mode (self st)); [|exact Hv].
    apply Hk, keeps_rollback_transaction;
      auto using views_set_transaction_lock, views_set_database,
        views_on_lock_system;
      intros m' s H; exact H.
  - apply Hk, views_execute_create_table.
  - apply Hk, views_execute_create_view, views_execute_query.
  - apply Hk, views_execute_drop_table.
  - apply Hk, views_execute_insert.
  - apply Hk, views_execute_delete.
  - apply Hk, views_execute_update.
  - apply Hk, views_execute_join.
  - apply Hk, views_execute_select, views_execute_query.
  - exact Hv.
Qed.

End ViewsBranches.

(** *** Sessions *)

Lemma empty_world_views_ok : views_ok empty_world.
Proof. intros r key table attrs Hin. destruct Hin. Qed.

(** A database read from a file holds tables only, which are no views,
    so that [loaded] satisfies [tables_ok]. *)
Lemma connect_views_ok filename loaded w :
  views_ok w ->
  (forall db, loaded = Some db -> tables_ok db) ->
  views_ok (Connection.globals (connect filename loaded w)).
Proof.
  intros Hw Hloaded. unfold connect, Connection.init. cbn.
  destruct (ALL_DATABASES w !! filename); cbn; [exact Hw|].
  apply views_ok_tables. intros r. cbn. unfold store_set.
  destruct (Nat.eqb r (database_count w)).
  - destruct loaded as [db|]; [apply Hloaded; reflexivity|].
    intros key table Hin. destruct Hin.
  - apply views_ok_tables. exact Hw.
Qed.

Lemma execute_all_views_ok fuel statements : forall st,
  views_ok (Connection.globals st) ->
  views_ok (Connection.globals (execute_all fuel statements st)).
Proof.
  unfold execute_all.
  induction statements as [|statement statements IH]; intros st Hv;
    [exact Hv|].
  cbn [fold_left]. apply IH. apply execute_views_ok. exact Hv.
Qed.

(** So on a first connection to a new file the views store queries
    whatever has been executed. *)
Lemma session_views_ok fuel statements :
  views_ok (Connection.globals (execute_all fuel statements fresh_connection)).
Proof.
  apply execute_all_views_ok. unfold fresh_connection.
  apply connect_views_ok; [apply empty_world_views_ok|discriminate].
Qed.

(** C7: [execute] raises a transaction-state error exactly when the
    statement is a misuse of BEGIN, COMMIT or ROLLBACK: BEGIN ...
    TRANSACTION while the transaction mode of the connection is set, BEGIN
    with a mode other than DEFERRED, IMMEDIATE, EXCLUSIVE and the bare
    TRANSACTION, COMMIT TRANSACTION or ROLLBACK TRANSACTION while no
    transaction is open.  In each of these cases the state after the call,
    that of the connection and of every database object, the committed one
    included, is the state before it.  The views of the database objects
    are taken to store queries, which [execute] keeps true
    ([execute_views_ok]) and which is true of a new connection
    ([connect_views_ok]). *)
Theorem transaction_state_error_iff_misuse
    (fuel : nat) (statement : string) (st : Connection.state) :
  views_ok (Connection.globals st) ->
  ((exists e,
      fst (Connection.execute (S fuel) statement st) = Raise e /\
      transaction_state_error e = true) <->
   transaction_misuse statement
     (Connection.transaction_mode (Connection.self st)) = true) /\
  (transaction_misuse statement
     (Connection.transaction_mode (Connection.self st)) = true ->
   snd (Connection.execute (S fuel) statement st) = st).
Proof.
  intros Hv. pose proof (execute_by_misuse fuel statement st Hv) as H.
  destruct (transaction_misuse statement _).
  - destruct H as [e [E He]]. rewrite E. simpl. split; [|reflexivity].
    split; [reflexivity|]. intros _. exists e. split; [reflexivity|exact He].
  - split; [|discriminate]. split; [|discriminate].
    intros Herr. exfalso. exact (quiet_not_error _ H Herr).
Qed.

Lemma fresh_connection_views_ok :
  views_ok (Connection.globals fresh_connection).
Proof. exact (session_views_ok 0 []). Qed.

Lemma transaction_state_error_iff_misuse_witness :
  ((exists e,
      fst (Connection.execute 1 "COMMIT TRANSACTION;" fresh_connection)
        = Raise e /\
      transaction_state_error e = true) <->
   transaction_misuse "COMMIT TRANSACTION;"
     (Connection.transaction_mode (Connection.self fresh_connection)) = true)
  /\
  (transaction_misuse "COMMIT TRANSACTION;"
     (Connection.transaction_mode (Connection.self fresh_connection)) = true ->
   snd (Connection.execute 1 "COMMIT TRANSACTION;" fresh_connection)
     = fresh_connection).
Proof.
  apply (transaction_state_error_iff_misuse 0 "COMMIT TRANSACTION;"
           fresh_connection).
  exact fresh_connection_views_ok.
Defined.

(** The four errors, on a connection of its own. *)
Example transaction_state_errors :
  last_outcome [] "COMMIT TRANSACTION;"
    = Raise (Exception
        "Committing transaction attempted without a prior BEGIN TRANSACTION")
  /\
  last_outcome [] "ROLLBACK TRANSACTION;"
    = Raise (Exception
        "Rolling back transaction attempted outside of manual transaction")
  /\
  last_outcome [] "BEGIN SHARED TRANSACTION;"
    = Raise (Exception "Transaction mode attempted is one not supported!")
  /\
  last_outcome ["BEGIN TRANSACTION;"] "BEGIN IMMEDIATE TRANSACTION;"
    = Raise (Exception
        "Beginning transaction attempted within an open transaction!").
Proof. repeat split; vm_compute; reflexivity. Qed.

(** ** The committed database *)

(** In auto-commit mode a LEFT OUTER JOIN works on the committed database
    object itself, and stores the joined table in it: the registry names
    the same object before and after, and the object has changed. *)
Lemma join_changes_committed_database_in_place :
  Connection.transaction_mode
    (Connection.self (execute_all 3 scenario_tables fresh_connection)) = None
  /\
  ALL_DATABASES
    (Connection.globals (execute_all 3 scenario_tables fresh_connection))
    !! "test.db" = Some 6%nat
  /\
  ALL_DATABASES
    (Connection.globals
       (execute_all 3
          (scenario_tables ++
           ["SELECT names.name, grades.grade FROM names LEFT OUTER JOIN grades ON names.id = grades.id;"])
          fresh_connection))
    !! "test.db" = Some 6%nat
  /\
  Database.joined_table
    (database_objects
       (Connection.globals (execute_all 3 scenario_tables fresh_connection))
       6) = None
  /\
  Table.name <$>
    Database.joined_table
      (database_objects
         (Connection.globals
            (execute_all 3
               (scenario_tables ++
                ["SELECT names.name, grades.grade FROM names LEFT OUTER JOIN grades ON names.id = grades.id;"])
               fresh_connection))
         6) = Some (VStr "JoinedTable").
Proof. repeat split; vm_compute; reflexivity. Qed.

(** So does a SELECT over a view, which puts the refreshed view in the
    place of the old one. *)
Example select_over_view_changes_committed_database_in_place :
  let statements :=
    ["CREATE TABLE t (a INTEGER);"; "INSERT INTO t VALUES (1);";
     "CREATE VIEW v AS SELECT * FROM t;"; "INSERT INTO t VALUES (2);"] in
  let before := Connection.globals (execute_all 3 statements fresh_connection) in
  let after :=
    Connection.globals
      (execute_all 3 (statements ++ ["SELECT * FROM v;"]) fresh_connection) in
  ALL_DATABASES before !! "test.db" = Some 4%nat /\
  ALL_DATABASES after !! "test.db" = Some 4%nat /\
  (fun view => map Row.data (Table.rows view)) <$>
    dict_get (VStr "v") (Database.tables (database_objects before 4))
    = Some [[VInt 1]] /\
  (fun view => map Row.data (Table.rows view)) <$>
    dict_get (VStr "v") (Database.tables (database_objects after 4))
    = Some [[VInt 1]; [VInt 2]].
Proof. repeat split; vm_compute; reflexivity. Qed.

(** Whether a SELECT names a view of the database [db], with the table
    name found as the SELECT branch finds it. *)
Definition selects_from_view (tokens : list value) (db : Database.t) : bool :=
  match list_index (VStr "FROM") tokens None None with
  | Ok from_keyword =>
      match py_index tokens (from_keyword + 1) with
      | Ok table_name =>
          match dict_lookup table_name (Database.tables db) with
          | Ok table =>
              match Table.view table with Some _ => true | None => false end
          | Raise _ => false
          end
      | Raise _ => false
      end
  | Raise _ => false
  end.

(** The queries that, in auto-commit mode, write to the database object
    that they read, [db] being the committed one: LEFT OUTER JOIN, and
    SELECT over a view. *)
Definition query_works_in_place (statement : string) (db : Database.t)
  : bool :=
  match tokenize statement with
  | Raise _ => false
  | Ok tokens =>
      negb (Connection.unterminated tokens) &&
      match Connection.classify tokens with
      | Ok Connection.KJoin => true
      | Ok Connection.KSelect => selects_from_view tokens db
      | _ => false
      end
  end.

(** The statements that do: these queries, and CREATE VIEW when the query
    that it is given, [statement[statement.find("SELECT"):]], is one of
    them, since CREATE VIEW executes that query before it takes its
    copy. *)
Definition works_in_place (statement : string) (db : Database.t) : bool :=
  match tokenize statement with
  | Raise _ => false
  | Ok tokens =>
      negb (Connection.unterminated tokens) &&
      match Connection.classify tokens with
      | Ok Connection.KJoin => true
      | Ok Connection.KSelect => selects_from_view tokens db
      | Ok Connection.KCreateView =>
          query_works_in_place
            (str_from statement (str_find "SELECT" statement 0)) db
      | _ => false
      end
  end.

(** CREATE VIEW over a join, and over a view, do write to the committed
    object: the join that CREATE VIEW executes stores the joined table in
    it, the SELECT over the view [v] replaces [v] in it; the copy that is
    published afterwards is another object. *)
Example create_view_over_join_changes_committed_database_in_place :
  let statement :=
    "CREATE VIEW v AS SELECT names.name, grades.grade FROM names LEFT OUTER JOIN grades ON names.id = grades.id;" in
  let before := Connection.globals (execute_all 3 scenario_tables fresh_connection) in
  let after :=
    Connection.globals
      (execute_all 3 (scenario_tables ++ [statement]) fresh_connection) in
  ALL_DATABASES before !! "test.db" = Some 6%nat /\
  works_in_place statement (database_objects before 6) = true /\
  Database.joined_table (database_objects before 6) = None /\
  Table.name <$> Database.joined_table (database_objects after 6)
    = Some (VStr "JoinedTable").
Proof. repeat split; vm_compute; reflexivity. Qed.

Example create_view_over_view_changes_committed_database_in_place :
  let statements :=
    ["CREATE TABLE t (a INTEGER);"; "INSERT INTO t VALUES (1);";
     "CREATE VIEW v AS SELECT * FROM t;"; "INSERT INTO t VALUES (2);"] in
  let statement := "CREATE VIEW w AS SELECT * FROM v;" in
  let before := Connection.globals (execute_all 3 statements fresh_connection) in
  let after :=
    Connection.globals
      (execute_all 3 (statements ++ [statement]) fresh_connection) in
  ALL_DATABASES before !! "test.db" = Some 4%nat /\
  works_in_place statement (database_objects before 4) = true /\
  (fun view => map Row.data (Table.rows view)) <$>
    dict_get (VStr "v") (Database.tables (database_objects before 4))
    = Some [[VInt 1]] /\
  (fun view => map Row.data (Table.rows view)) <$>
    dict_get (VStr "v") (Database.tables (database_objects after 4))
    = Some [[VInt 1]; [VInt 2]].
Proof. repeat split; vm_compute; reflexivity. Qed.

Section Committed.
Import Connection.

(** The committed database object, [r0], and what it holds, [D0 r0]. *)
Variable r0 : nat.
Variable D0 : nat -> Database.t.

(** The committed object holds what it held; and the connection works on
    another object. *)
Definition unchanged : state -> Prop := intact (fun r => r = r0) D0.
Definition own (tx : bool) : state -> Prop := private (fun r => r = r0) D0 tx.

Lemma add_lock_true ls lock_type current_lock b ls' :
  LockSystem.add_lock ls lock_type current_lock = Ok (b, ls') -> b = true.
Proof.
  unfold LockSystem.add_lock, LockSystem.add_shared, LockSystem.add_reserved,
    LockSystem.add_exclusive.
  destruct (match current_lock with Some _ => _ | None => _ end);
    [congruence|].
  destruct lock_type;
    repeat match goal with
           | |- context [if ?c then _ else _] => destruct c
           | |- context [match ?x with _ => _ end] => destruct x
           end; congruence.
Qed.

Lemma own_unchanged tx s : own tx s -> unchanged s.
Proof. intros [H _]. exact H. Qed.

Lemma unchanged_set_transaction_mode m :
  keeps unchanged (set_transaction_mode m).
Proof. intros s H. exact H. Qed.

(** In auto-commit mode the lock check of a writing statement leaves the
    connection on a copy of its own. *)
Lemma lock_check_write_auto :
  triple (fun s => unchanged s /\ transaction_mode (self s) = None)
    (lock_check Write) (fun _ => own false) (raising unchanged).
Proof.
  intros s [Hi Hm].
  unfold lock_check, get_transaction_mode, get_transaction_lock, bind.
  rewrite Hm. unfold lock_transition, bind, add_lock, on_lock_system.
  destruct (LockSystem.add_lock _ _ _) as [[b ls']|e] eqn:E.
  - apply add_lock_true in E. subst b. unfold when.
    unfold set_transaction_lock, modify, committed_database. cbn [self globals
      filename ALL_DATABASES].
    destruct (Hi r0 eq_refl) as [Hobj Hlt].
    destruct (ALL_DATABASES (globals s) !! filename (self s)) as [r|].
    + unfold deepcopy, set_database, modify. cbn.
      split; [|split].
      * intros r1 Hr1. subst r1. cbn. unfold store_set.
        destruct (Nat.eqb r0 (database_count (globals s))) eqn:En.
        { apply Nat.eqb_eq in En. lia. }
        split; [exact Hobj|lia].
      * cbn. intros Hr. lia.
      * discriminate.
    + split; [|reflexivity].
      intros r1 Hr1. subst r1. cbn. split; assumption.
  - pose proof (add_lock_quiet
                  (locksystem_objects (globals s) (lock_system (self s)))
                  LExclusive (transaction_lock (self s))) as Hq.
    rewrite E in Hq. split; [|exact Hq].
    intros r1 Hr1. subst r1. cbn. exact (Hi r0 eq_refl).
Qed.

(** That of a reading statement leaves it on the committed object. *)
Lemma lock_check_read_auto :
  triple (fun s => unchanged s /\ transaction_mode (self s) = None /\
                   ALL_DATABASES (globals s) !! filename (self s) = Some r0)
    (lock_check Read)
    (fun _ s => unchanged s /\ database (self s) = r0)
    (raising unchanged).
Proof.
  intros s (Hi & Hm & Hr).
  unfold lock_check, get_transaction_mode, get_transaction_lock, bind.
  rewrite Hm. unfold lock_transition, bind, add_lock, on_lock_system.
  destruct (LockSystem.add_lock _ _ _) as [[b ls']|e] eqn:E.
  - apply add_lock_true in E. subst b. unfold when.
    unfold set_transaction_lock, modify, committed_database.
    cbn [self globals filename ALL_DATABASES]. rewrite Hr.
    unfold set_database, modify. cbn.
    split; [|reflexivity].
    intros r1 Hr1. subst r1. cbn. exact (Hi r0 eq_refl).
  - pose proof (add_lock_quiet
                  (locksystem_objects (globals s) (lock_system (self s)))
                  LShared (transaction_lock (self s))) as Hq.
    rewrite E in Hq. split; [|exact Hq].
    intros r1 Hr1. subst r1. cbn. exact (Hi r0 eq_refl).
Qed.

Lemma triple_lift_raising {A : Type} (J Ix : state -> Prop) (r : res A) :
  (forall s, J s -> Ix s) ->
  triple J (lift r) (fun a s => r = Ok a /\ J s) (raising Ix).
Proof.
  intros HJ. eapply triple_weaken;
    [apply (triple_lift J)|auto|intros a s H; exact H|].
  intros e s [Hs He]. split; auto.
Qed.

Lemma unchanged_in_autocommit_relinquish :
  keeps unchanged (in_autocommit Relinquish).
Proof.
  apply keeps_in_autocommit_relinquish.
  - apply intact_set_transaction_lock.
  - apply intact_on_lock_system.
Qed.

(** A SELECT from a table that is not a view, in auto-commit mode, leaves
    the committed object as it is. *)
Lemma triple_execute_select_auto execute_rec tokens :
  selects_from_view tokens (D0 r0) = false ->
  triple (fun s => unchanged s /\ transaction_mode (self s) = None /\
                   ALL_DATABASES (globals s) !! filename (self s) = Some r0)
    (execute_select execute_rec tokens)
    (fun _ => unchanged) (raising unchanged).
Proof.
  intros Hbase. unfold execute_select.
  set (J := fun s : state => unchanged s /\ database (self s) = r0).
  assert (HJ : forall s, J s -> unchanged s) by (intros s [H _]; exact H).
  eapply triple_bind; [exact lock_check_read_auto|intros u].
  eapply triple_bind; [apply (triple_lift_raising J), HJ|intros from_keyword].
  apply triple_assume. intros Efrom.
  eapply triple_bind; [apply (triple_lift_raising J), HJ|intros table_name].
  apply triple_assume. intros Ename.
  eapply triple_bind;
    [apply (triple_get_table unchanged J table_name), HJ|intros table].
  intros s [[Hu Hd] Hget].
  assert (Hview : Table.view table = None).
  { unfold get_table, bind, get_database, lift in Hget. cbn in Hget.
    rewrite Hd in Hget. destruct (Hu r0 eq_refl) as [Hobj _].
    rewrite Hobj in Hget.
    unfold selects_from_view in Hbase. rewrite Efrom, Ename in Hbase.
    destruct (dict_lookup table_name (Database.tables (D0 r0))) as [t|e];
      [|discriminate].
    cbn in Hget. inversion Hget; subst t.
    destruct (Table.view table); [discriminate|reflexivity]. }
  rewrite Hview. clear Hget Hd. revert s Hu.
  apply (keeps_raising unchanged unchanged (fun s H => H)).
  apply keeps_bind; [apply keeps_ret|intros table'].
  apply keeps_bind; [apply keeps_lift|intros aggregate].
  apply keeps_bind; [apply keeps_lift|intros args].
  destruct args as [[[columns distinct_columns] conditions] order].
  apply keeps_bind; [apply keeps_lift|intros query_result].
  apply keeps_bind; [apply unchanged_in_autocommit_relinquish|intros _].
  destruct aggregate as [keyword|]; [|apply keeps_ret].
  destruct (String.eqb keyword "MAX").
  { apply keeps_bind; [apply keeps_lift|intros m; apply keeps_ret]. }
  destruct (String.eqb keyword "MIN").
  { apply keeps_bind; [apply keeps_lift|intros m; apply keeps_ret]. }
  apply keeps_ret.
Qed.

(** *** CREATE VIEW in auto-commit mode *)

(** The connection is in auto-commit mode; and moreover the registry
    names the committed object for its file. *)
Definition autocommit (s : state) : Prop :=
  unchanged s /\ transaction_mode (self s) = None.

Definition reading (s : state) : Prop :=
  unchanged s /\ transaction_mode (self s) = None /\
  ALL_DATABASES (globals s) !! filename (self s) = Some r0.

Lemma autocommit_set_transaction_lock l :
  keeps autocommit (set_transaction_lock l).
Proof. intros s H. exact H. Qed.

Lemma autocommit_on_lock_system (A : Type) (m : M LockSystem.t A) :
  keeps anything m -> keeps autocommit (on_lock_system m).
Proof.
  intros Hm s H. unfold on_lock_system.
  specialize (Hm (locksystem_objects (globals s) (lock_system (self s)))
                Logic.I).
  destruct (m _) as [[a|e] ls']; simpl; [exact H|].
  split; [exact H|apply Hm].
Qed.

Lemma autocommit_in_autocommit_relinquish :
  keeps autocommit (in_autocommit Relinquish).
Proof.
  apply keeps_in_autocommit_relinquish.
  - apply autocommit_set_transaction_lock.
  - apply autocommit_on_lock_system.
Qed.

(** The lock check of a reading statement leaves the connection on the
    committed object, in auto-commit mode still. *)
Lemma lock_check_read_reading :
  triple reading (lock_check Read)
    (fun _ s => reading s /\ database (self s) = r0) (raising unchanged).
Proof.
  intros s (Hi & Hm & Hr).
  unfold lock_check, get_transaction_mode, get_transaction_lock, bind.
  rewrite Hm. unfold lock_transition, bind, add_lock, on_lock_system.
  destruct (LockSystem.add_lock _ _ _) as [[b ls']|e] eqn:E.
  - apply add_lock_true in E. subst b. unfold when.
    unfold set_transaction_lock, modify, committed_database.
    cbn [self globals filename ALL_DATABASES]. rewrite Hr.
    unfold set_database, modify. cbn.
    split; [|reflexivity]. split; [|split; [exact Hm|exact Hr]].
    intros r1 Hr1. subst r1. cbn. exact (Hi r0 eq_refl).
  - pose proof (add_lock_quiet
                  (locksystem_objects (globals s) (lock_system (self s)))
                  LShared (transaction_lock (self s))) as Hq.
    rewrite E in Hq. split; [|exact Hq].
    intros r1 Hr1. subst r1. cbn. exact (Hi r0 eq_refl).
Qed.

(** A SELECT from a table that is not a view leaves the committed object
    as it is, and the connection in auto-commit mode. *)
Lemma triple_execute_select_reading execute_rec tokens :
  selects_from_view tokens (D0 r0) = false ->
  triple reading (execute_select execute_rec tokens)
    (fun _ => autocommit) (raising unchanged).
Proof.
  intros Hbase. unfold execute_select.
  set (J := fun s : state => reading s /\ database (self s) = r0).
  assert (HJ : forall s, J s -> unchanged s) by (intros s [[H _] _]; exact H).
  eapply triple_bind; [exact lock_check_read_reading|intros u].
  eapply triple_bind; [apply (triple_lift_raising J), HJ|intros from_keyword].
  apply triple_assume. intros Efrom.
  eapply triple_bind; [apply (triple_lift_raising J), HJ|intros table_name].
  apply triple_assume. intros Ename.
  eapply triple_bind;
    [apply (triple_get_table unchanged J table_name), HJ|intros table].
  intros s [[(Hu & Hm & Hr) Hd] Hget].
  assert (Hview : Table.view table = None).
  { unfold get_table, bind, get_database, lift in Hget. cbn in Hget.
    rewrite Hd in Hget. destruct (Hu r0 eq_refl) as [Hobj _].
    rewrite Hobj in Hget.
    unfold selects_from_view in Hbase. rewrite Efrom, Ename in Hbase.
    destruct (dict_lookup table_name (Database.tables (D0 r0))) as [t|e];
      [|discriminate].
    cbn in Hget. inversion Hget; subst t.
    destruct (Table.view table); [discriminate|reflexivity]. }
  rewrite Hview. clear Hget Hd Hr.
  assert (Ha : autocommit s) by (split; assumption).
  clear Hu Hm. revert s Ha.
  apply (keeps_raising_with unchanged autocommit);
    [intros s [H _]; exact H|].
  apply keeps_bind; [apply keeps_ret|intros table'].
  apply keeps_bind; [apply keeps_lift|intros aggregate].
  apply keeps_bind; [apply keeps_lift|intros args].
  destruct args as [[[columns distinct_columns] conditions] order].
  apply keeps_bind; [apply keeps_lift|intros query_result].
  apply keeps_bind; [apply autocommit_in_autocommit_relinquish|intros _].
  destruct aggregate as [keyword|]; [|apply keeps_ret].
  destruct (String.eqb keyword "MAX").
  { apply keeps_bind; [apply keeps_lift|intros m; apply keeps_ret]. }
  destruct (String.eqb keyword "MIN").
  { apply keeps_bind; [apply keeps_lift|intros m; apply keeps_ret]. }
  apply keeps_ret.
Qed.

(** So does a query that does not work in place. *)
Lemma triple_execute_query_reading fuel statement :
  query_like statement = true ->
  query_works_in_place statement (D0 r0) = false ->
  triple reading (execute fuel statement)
    (fun _ => autocommit) (raising unchanged).
Proof.
  intros Hq Hplace s Hs.
  assert (Hu : unchanged s) by apply Hs.
  assert (Ha : autocommit s) by (split; apply Hs).
  destruct fuel as [|fuel]; [split; [exact Hu|reflexivity]|].
  rewrite execute_step.
  unfold query_like in Hq. unfold query_works_in_place in Hplace.
  pose proof (tokenize_quiet statement) as Hquiet.
  destruct (tokenize statement) as [tokens|e]; [|split; [exact Hu|exact Hquiet]].
  destruct (unterminated tokens); [split; [exact Hu|reflexivity]|].
  cbn [negb andb] in Hplace.
  destruct (classify tokens) as [kind|e]; [|split; [exact Hu|reflexivity]].
  destruct kind; try discriminate; cbn [run_branch].
  - exact (triple_execute_select_reading (execute fuel) tokens Hplace s Hs).
  - exact Ha.
Qed.

(** CREATE VIEW executes the query that it is given on the committed
    object, and writes the view to a copy of its own. *)
Lemma triple_execute_create_view_reading execute_rec statement tokens :
  triple reading
    (execute_rec (str_from statement (str_find "SELECT" statement 0)))
    (fun _ => autocommit) (raising unchanged) ->
  triple reading (execute_create_view execute_rec statement tokens)
    (fun _ => unchanged) (raising unchanged).
Proof.
  intros Hrec. unfold execute_create_view.
  set (J := fun s : state => reading s /\ database (self s) = r0).
  assert (HJ : forall s, J s -> unchanged s) by (intros s [[H _] _]; exact H).
  assert (HA : forall s, autocommit s -> unchanged s)
    by (intros s [H _]; exact H).
  assert (Hrec' : forall s, J s ->
            match execute_rec
                    (str_from statement (str_find "SELECT" statement 0)) s
            with
            | (Ok _, s') => autocommit s'
            | (Raise e, s') => raising unchanged e s'
            end) by (intros s [H _]; apply Hrec; exact H).
  eapply triple_bind; [exact lock_check_read_reading|intros u].
  eapply triple_bind;
    [apply keeps_raising_with; [exact HJ|apply keeps_lift]|intros view_name].
  eapply triple_bind;
    [apply keeps_raising_with; [exact HJ|apply keeps_table_exists]
    |intros present].
  destruct present.
  { intros s Hs. simpl. split; [apply HJ; exact Hs|reflexivity]. }
  eapply triple_bind;
    [apply keeps_raising_with; [exact HJ|apply keeps_lift]|intros from_index].
  eapply triple_bind;
    [apply keeps_raising_with; [exact HJ|apply keeps_lift]|intros select_index].
  eapply triple_bind;
    [apply keeps_raising_with; [exact HJ|apply keeps_lift]|intros table_name].
  eapply triple_bind;
    [apply keeps_raising_with; [exact HJ|apply keeps_lift]|intros over_join].
  eapply triple_bind with (Q := fun _ => autocommit).
  - destruct over_join.
    + eapply triple_bind; [exact Hrec'|intros result].
      apply keeps_raising_with; [exact HA|].
      apply keeps_bind; [apply keeps_get_database|intros db].
      destruct (Database.joined_table db);
        [apply keeps_ret|apply keeps_raise; reflexivity].
    + eapply triple_bind;
        [apply keeps_raising_with; [exact HJ|apply keeps_table_exists]
        |intros known].
      destruct (negb known).
      * intros s Hs. simpl. split; [apply HJ; exact Hs|reflexivity].
      * eapply triple_bind; [exact Hrec'|intros result].
        apply keeps_raising_with; [exact HA|].
        apply keeps_bind; [apply keeps_get_table|intros table].
        apply keeps_ret.
  - intros viewed. destruct viewed as [[result tname] table_schema].
    apply (triple_after_lock_check (own false) unchanged (own_unchanged false));
      [exact lock_check_write_auto|].
    apply keeps_bind;
      [apply keeps_database_method, (private_on_database _ _ false)|intros _].
    apply keeps_bind;
      [apply (private_on_database _ _ false), keeps_on_table,
         keeps_materialize|intros _].
    apply keeps_bind;
      [apply (private_on_database _ _ false), keeps_database_modify
      |intros _].
    apply keeps_bind; [|intros _; apply keeps_ret].
    apply keeps_in_autocommit_commit.
    + apply private_set_transaction_lock.
    + apply private_on_lock_system.
    + apply private_publish.
Qed.

(** BEGIN, COMMIT and ROLLBACK copy, publish and pick database objects;
    they write to none. *)
Lemma unchanged_begin_with tmode lock_type :
  keeps unchanged (begin_with tmode lock_type).
Proof.
  unfold unchanged. apply keeps_begin_with;
    auto using intact_set_transaction_lock, unchanged_set_transaction_mode,
      intact_set_database, intact_deepcopy, intact_on_lock_system.
Qed.

Lemma unchanged_commit_transaction : keeps unchanged commit_transaction.
Proof.
  unfold unchanged. apply keeps_commit_transaction;
    auto using intact_set_transaction_lock, unchanged_set_transaction_mode,
      intact_set_database, intact_on_lock_system, intact_publish.
Qed.

Lemma unchanged_rollback_transaction : keeps unchanged rollback_transaction.
Proof.
  unfold unchanged. apply keeps_rollback_transaction;
    auto using intact_set_transaction_lock, unchanged_set_transaction_mode,
      intact_set_database, intact_on_lock_system.
Qed.

(** What a computation leaves behind, from a triple. *)
Lemma triple_snd {A : Type} (P R : state -> Prop) (m : M state A)
    (Q : A -> state -> Prop) (X : exn -> state -> Prop) s :
  triple P m Q X -> P s ->
  (forall a s', Q a s' -> R s') -> (forall e s', X e s' -> R s') ->
  R (snd (m s)).
Proof.
  intros Hm Hs HQ HX. specialize (Hm s Hs).
  destruct (m s) as [[a|e] s']; simpl; eauto.
Qed.

Lemma own_views_lock_check act :
  keeps (fun s => own true s /\ views_hold s) (lock_check act).
Proof.
  apply keeps_conj; [apply private_lock_check|apply views_lock_check].
Qed.

(** Within a transaction, on a database object of its own, no branch
    writes to the committed object. *)
Lemma run_branch_tx fuel statement tokens kind s :
  own true s -> views_hold s ->
  match kind with KBegin | KCommit | KRollback => False | _ => True end ->
  unchanged (snd (run_branch (execute fuel) statement tokens kind s)).
Proof.
  intros Ho Hv Hkind.
  assert (Hrec : forall statement,
            query_like statement = true ->
            triple (fun s => own true s /\ views_hold s)
              (execute fuel statement) (fun _ => own true)
              (raising (own true))).
  { intros stmt Hq.
    exact (execute_query (own true) views_hold
             (private_set_transaction_lock _ _ true)
             (private_on_lock_system _ _ true)
             (private_on_database _ _ true)
             (private_publish _ _ true)
             (own_views_lock_check Read) (private_lock_check _ _ Write)
             views_get_table fuel stmt Hq). }
  apply (triple_snd _ unchanged _ _ _ s
           (triple_run_branch (own true) views_hold
              (private_set_transaction_lock _ _ true)
              (private_on_lock_system _ _ true)
              (private_on_database _ _ true)
              (private_publish _ _ true)
              (own_views_lock_check Read) (private_lock_check _ _ Write)
              views_get_table (execute fuel) statement tokens kind
              Hrec Hkind)).
  - split; assumption.
  - intros a s' H. exact (own_unchanged true s' H).
  - intros e s' [H _]. exact (own_unchanged true s' H).
Qed.

(** In auto-commit mode the branches that write do so on a copy. *)
Lemma run_branch_write_auto execute_rec statement tokens kind s :
  unchanged s -> transaction_mode (self s) = None ->
  match kind with
  | KCreateTable | KDropTable | KInsert | KDelete | KUpdate => True
  | _ => False
  end ->
  unchanged (snd (run_branch execute_rec statement tokens kind s)).
Proof.
  intros Hu Hm Hkind.
  assert (Hx : forall e s', raising unchanged e s' -> unchanged s')
    by (intros e s' [H _]; exact H).
  destruct kind; try contradiction; cbn [run_branch].
  - apply (triple_snd _ unchanged _ _ _ s
             (triple_execute_create_table (own false)
                (private_set_transaction_lock _ _ false)
                (private_on_lock_system _ _ false)
                (private_on_database _ _ false)
                (private_publish _ _ false)
                unchanged (own_unchanged false) _ tokens
                lock_check_write_auto)); auto.
  - apply (triple_snd _ unchanged _ _ _ s
             (triple_execute_drop_table (own false)
                (private_set_transaction_lock _ _ false)
                (private_on_lock_system _ _ false)
                (private_on_database _ _ false)
                (private_publish _ _ false)
                unchanged (own_unchanged false) _ tokens
                lock_check_write_auto)); auto.
  - apply (triple_snd _ unchanged _ _ _ s
             (triple_execute_insert (own false)
                (private_set_transaction_lock _ _ false)
                (private_on_lock_system _ _ false)
                (private_on_database _ _ false)
                (private_publish _ _ false)
                unchanged (own_unchanged false) _ tokens
                lock_check_write_auto)); auto.
  - apply (triple_snd _ unchanged _ _ _ s
             (triple_execute_delete (own false)
                (private_set_transaction_lock _ _ false)
                (private_on_lock_system _ _ false)
                (private_on_database _ _ false)
                (private_publish _ _ false)
                unchanged (own_unchanged false) _ tokens
                lock_check_write_auto)); auto.
  - apply (triple_snd _ unchanged _ _ _ s
             (triple_execute_update (own false)
                (private_set_transaction_lock _ _ false)
                (private_on_lock_system _ _ false)
                (private_on_database _ _ false)
                (private_publish _ _ false)
                unchanged (own_unchanged false) _ tokens
                lock_check_write_auto)); auto.
Qed.

(** The committed object is left as it is by every statement within a
    transaction that works on an object of its own, and, in auto-commit
    mode, by every statement but those that work in place. *)
Lemma execute_unchanged fuel statement s :
  unchanged s -> views_hold s ->
  match transaction_mode (self s) with
  | Some _ => database (self s) <> r0
  | None =>
      ALL_DATABASES (globals s) !! filename (self s) = Some r0 /\
      works_in_place statement (D0 r0) = false
  end ->
  unchanged (snd (execute fuel statement s)).
Proof.
  intros Hu Hv Hmode. destruct fuel as [|fuel]; [exact Hu|].
  rewrite execute_step. unfold works_in_place in Hmode.
  destruct (tokenize statement) as [tokens|e]; [|exact Hu].
  destruct (unterminated tokens); [exact Hu|]. cbn [negb andb] in Hmode.
  destruct (classify tokens) as [kind|e]; [|exact Hu].
  destruct (transaction_mode (self s)) as [m|] eqn:Em.
  - assert (Ho : own true s).
    { split; [exact Hu|split; [exact Hmode|]]. intros _. congruence. }
    destruct kind;
      try (apply run_branch_tx; [exact Ho|exact Hv|exact Logic.I]);
      cbn [run_branch].
    + rewrite execute_begin_unfold, Em. exact Hu.
    + rewrite execute_commit_unfold, Em.
      apply (triple_snd _ unchanged _ _ _ s unchanged_commit_transaction Hu);
        [auto|intros e s' [H _]; exact H].
    + rewrite execute_rollback_unfold, Em.
      apply (triple_snd _ unchanged _ _ _ s unchanged_rollback_transaction Hu);
        [auto|intros e s' [H _]; exact H].
  - destruct Hmode as [Hr Hplace].
    destruct kind;
      try (apply run_branch_write_auto; [exact Hu|exact Em|exact Logic.I]);
      try discriminate; cbn [run_branch].
    + rewrite execute_begin_unfold, Em.
      destruct (py_index tokens 1) as [m|e]; [|exact Hu].
      repeat match goal with
             | |- context [if ?c then _ else _] => destruct c
             end;
        try exact Hu;
        (apply (triple_snd _ unchanged _ _ _ s (unchanged_begin_with _ _) Hu);
         [auto|intros e s' [H _]; exact H]).
    + rewrite execute_commit_unfold, Em. exact Hu.
    + rewrite execute_rollback_unfold, Em. exact Hu.
    + apply (triple_snd _ unchanged _ _ _ s
               (triple_execute_create_view_reading (execute fuel) statement
                  tokens
                  (triple_execute_query_reading fuel _
                     (view_statement_query_like statement) Hplace)));
        [exact (conj Hu (conj Em Hr))|auto|intros e s' [H _]; exact H].
    + apply (triple_snd _ unchanged _ _ _ s
               (triple_execute_select_auto (execute fuel) tokens Hplace));
        [auto|auto|intros e s' [H _]; exact H].
    + exact Hu.
Qed.

End Committed.

(** C1, amended: the committed database object, [r0], is not written to by
    a statement that a connection executes within a transaction, where it
    works on an object of its own, nor, in auto-commit mode, by any
    statement but LEFT OUTER JOIN and SELECT over a view, on their own or
    as the query of a CREATE VIEW: after the statement the object holds
    what it held before, whether the statement returns or raises, and also
    when it publishes another object in its place.  So CREATE VIEW over a
    table that is not a view leaves the committed object as it is.  The
    views of the database objects are taken to store queries, which
    [execute] keeps true ([execute_views_ok]). *)
Theorem committed_database_unchanged
    (fuel : nat) (statement : string) (st : Connection.state) (r0 : nat) :
  ALL_DATABASES (Connection.globals st)
    !! Connection.filename (Connection.self st) = Some r0 ->
  (r0 < database_count (Connection.globals st))%nat ->
  views_ok (Connection.globals st) ->
  match Connection.transaction_mode (Connection.self st) with
  | Some _ => Connection.database (Connection.self st) <> r0
  | None =>
      works_in_place statement
        (database_objects (Connection.globals st) r0) = false
  end ->
  database_objects
    (Connection.globals (snd (Connection.execute fuel statement st))) r0
  = database_objects (Connection.globals st) r0.
Proof.
  intros Hr Hlt Hv Hmode.
  assert (Hu : unchanged r0 (database_objects (Connection.globals st)) st).
  { intros r Er. subst r. split; [reflexivity|exact Hlt]. }
  assert (H : unchanged r0 (database_objects (Connection.globals st))
                (snd (Connection.execute fuel statement st))).
  { apply execute_unchanged; [exact Hu|exact Hv|].
    destruct (Connection.transaction_mode (Connection.self st));
      [exact Hmode|split; [exact Hr|exact Hmode]]. }
  exact (proj1 (H r0 eq_refl)).
Qed.

(** A connection that has made a table and put a row in it. *)
Definition one_table_connection : Connection.state :=
  execute_all 3 ["CREATE TABLE t (a INTEGER);"; "INSERT INTO t VALUES (1);"]
    fresh_connection.

Lemma one_table_connection_views_ok :
  views_ok (Connection.globals one_table_connection).
Proof. apply session_views_ok. Qed.

(** The same connection after it has begun a transaction. *)
Definition open_transaction_connection : Connection.state :=
  execute_all 3 ["BEGIN TRANSACTION;"] one_table_connection.

Lemma committed_database_unchanged_witness :
  database_objects
    (Connection.globals
       (snd (Connection.execute 3 "SELECT * FROM t;" one_table_connection)))
    2
  = database_objects (Connection.globals one_table_connection) 2
  /\
  database_objects
    (Connection.globals
       (snd (Connection.execute 3 "CREATE VIEW v AS SELECT * FROM t;"
               one_table_connection)))
    2
  = database_objects (Connection.globals one_table_connection) 2
  /\
  database_objects
    (Connection.globals
       (snd (Connection.execute 3 "INSERT INTO t VALUES (2);"
               open_transaction_connection)))
    2
  = database_objects (Connection.globals open_transaction_connection) 2.
Proof.
  split; [|split].
  - apply (committed_database_unchanged 3 "SELECT * FROM t;"
             one_table_connection 2).
    + vm_compute. reflexivity.
    + vm_compute. lia.
    + exact one_table_connection_views_ok.
    + vm_compute. reflexivity.
  - apply (committed_database_unchanged 3 "CREATE VIEW v AS SELECT * FROM t;"
             one_table_connection 2).
    + vm_compute. reflexivity.
    + vm_compute. lia.
    + exact one_table_connection_views_ok.
    + vm_compute. reflexivity.
  - apply (committed_database_unchanged 3 "INSERT INTO t VALUES (2);"
             open_transaction_connection 2).
    + vm_compute. reflexivity.
    + vm_compute. lia.
    + apply execute_all_views_ok. exact one_table_connection_views_ok.
    + vm_compute. discriminate.
Defined.

(** ** The loops end within their bounds *)

(** *** The loop of the tokenizer *)

Lemma char_in_app c (a b : string) :
  char_in c (a ++ b)%string = char_in c a || char_in c b.
Proof.
  induction a as [|d a IH]; simpl; [reflexivity|].
  rewrite IH, orb_assoc. reflexivity.
Qed.

Lemma collect_characters_head c rest allowed :
  char_in c allowed = true ->
  (1 <= String.length (collect_characters (String c rest) allowed))%nat.
Proof. intros H. simpl. rewrite H. simpl. lia. Qed.

Lemma str_drop_head n c rest :
  (1 <= n)%nat ->
  (String.length (str_drop n (String c rest)) <= String.length rest)%nat.
Proof. intros H. rewrite str_drop_length. simpl. lia. Qed.

Lemma str_from_length s i :
  (String.length (str_from s i) <= String.length s)%nat.
Proof. unfold str_from. rewrite str_drop_length. lia. Qed.

Lemma py_int_raises s e : py_int s = Raise e -> e = ValueError.
Proof.
  unfold py_int. destruct (strip_minus s) as [neg s1].
  destruct (take_digits s1 0 0) as [[v n] rest].
  destruct n; [congruence|].
  destruct rest; [|congruence].
  destruct (int_max_str_digits <? S n)%nat; congruence.
Qed.

Lemma py_float_raises s e : py_float s = Raise e -> e = ValueError.
Proof.
  unfold py_float. destruct (strip_minus s) as [neg s1].
  destruct (take_digits s1 0 0) as [[ip ni] s2].
  destruct (match s2 with String "." s2' => _ | _ => _ end) as [[d nf] s3].
  destruct (ni + nf)%nat; [congruence|].
  destruct s3 as [|c s4]; [congruence|].
  destruct (Ascii.eqb c "E") eqn:Ec.
  - apply Ascii.eqb_eq in Ec. subst c.
    destruct (strip_minus s4) as [eneg s5].
    destruct (take_digits s5 0 0) as [[ev ne] s6].
    destruct ne; [congruence|]. destruct s6; congruence.
  - destruct c as [[] [] [] [] [] [] [] []]; try congruence; discriminate Ec.
Qed.

(** A literal that starts with a numeric character that is no decimal
    digit is empty, and is refused. *)
Lemma remove_num_shorter c rest tokens query' tokens' :
  remove_num (String c rest) tokens = Ok (query', tokens') ->
  (String.length query' <= String.length rest)%nat.
Proof.
  unfold remove_num.
  destruct (char_in c (digits ++ "-.E")) eqn:Ec.
  - pose proof (collect_characters_head c rest _ Ec) as Hlen.
    destruct (if str_contains "." _ then _ else _) as [tok|e];
      [|discriminate].
    cbn [res_bind]. intros H. inversion H; subst.
    apply str_drop_head. exact Hlen.
  - assert (E : collect_characters (String c rest) (digits ++ "-.E")
                = EmptyString) by (simpl; simpl in Ec; rewrite Ec; reflexivity).
    rewrite E. discriminate.
Qed.

Lemma remove_num_raises query tokens e :
  remove_num query tokens = Raise e -> e = ValueError.
Proof.
  unfold remove_num.
  destruct (str_contains "." _) eqn:Ep.
  - destruct (py_float _) as [tok|e'] eqn:E; [discriminate|].
    cbn [res_bind]. intros H. inversion H; subst.
    eapply py_float_raises; eauto.
  - destruct (py_int _) as [tok|e'] eqn:E; [discriminate|].
    cbn [res_bind]. intros H. inversion H; subst.
    eapply py_int_raises; eauto.
Qed.

Lemma tokenize_operator_result c rest tokens :
  match tokenize_operator c rest tokens with
  | Ok (query', _) => query' = rest
  | Raise e => e = IndexError \/ e = TypeError
  end.
Proof.
  unfold tokenize_operator, py_index.
  destruct (_ || _); [left; reflexivity|].
  destruct (nth_error _ _) as [last_token|]; [|left; reflexivity].
  cbn [res_bind].
  destruct last_token;
    repeat match goal with
           | |- context [if ?b then _ else _] => destruct b
           end; auto.
Qed.

(** Every turn of the loop that does not raise shortens the query. *)
Lemma tokenize_step_shorter c rest tokens query' tokens' :
  tokenize_step c rest tokens = Ok (query', tokens') ->
  (String.length query' <= String.length rest)%nat.
Proof.
  unfold tokenize_step.
  destruct (char_in c whitespace) eqn:Ews.
  { unfold remove_leading_whitespace.
    pose proof (collect_characters_head c rest _ Ews) as Hlen.
    set (ws := collect_characters (String c rest) whitespace) in *.
    clearbody ws. intros [= <- <-]. apply str_drop_head. exact Hlen. }
  destruct (char_in c (ascii_letters ++ "_")) eqn:Eword.
  { unfold remove_word.
    assert (Hin : char_in c (ascii_letters ++ "_.*" ++ digits) = true).
    { rewrite char_in_app in Eword. rewrite char_in_app.
      apply orb_true_iff in Eword as [E|E]; [rewrite E; reflexivity|].
      apply orb_true_iff. right. simpl in E. simpl.
      apply orb_true_iff in E as [E|E]; [rewrite E; reflexivity|discriminate]. }
    pose proof (collect_characters_head c rest _ Hin) as Hlen.
    set (word := collect_characters (String c rest) _) in *.
    clearbody word. intros [= <- <-]. apply str_drop_head. exact Hlen. }
  destruct (char_in c "(),;*").
  { intros H. inversion H; subst. lia. }
  destruct (Ascii.eqb c "'").
  { unfold remove_text. intros [= <- <-].
    change (str_drop 1 (String c rest)) with rest.
    destruct (str_contains "''" rest); apply str_from_length. }
  destruct (isnumeric c || char_in c "-").
  { destruct (remove_num (String c rest) tokens) as [[q t]|e] eqn:E;
      [|discriminate].
    cbn [of_res]. intros H. inversion H; subst.
    eapply remove_num_shorter; eauto. }
  destruct (char_in c "<>=!"); [|discriminate].
  pose proof (tokenize_operator_result c rest tokens) as Hop.
  destruct (tokenize_operator c rest tokens) as [[q t]|e]; [|discriminate].
  cbn [of_res]. intros H. inversion H; subst. lia.
Qed.

(** A turn that raises, raises an exception of the program. *)
Lemma tokenize_step_raises c rest tokens :
  tokenize_step c rest tokens <> Raise (Builtin NonTermination).
Proof.
  unfold tokenize_step.
  destruct (char_in c whitespace); [discriminate|].
  destruct (char_in c (ascii_letters ++ "_")); [discriminate|].
  destruct (char_in c "(),;*"); [discriminate|].
  destruct (Ascii.eqb c "'"); [discriminate|].
  destruct (isnumeric c || char_in c "-").
  { destruct (remove_num (String c rest) tokens) as [[q t]|e] eqn:E;
      [discriminate|].
    apply remove_num_raises in E. subst e. discriminate. }
  destruct (char_in c "<>=!"); [|discriminate].
  pose proof (tokenize_operator_result c rest tokens) as Hop.
  destruct (tokenize_operator c rest tokens) as [[q t]|e]; [discriminate|].
  destruct Hop; subst e; discriminate.
Qed.

(** The bound on the turns of the loop is never reached: with as many
    turns as the query has characters, the loop ends by itself. *)
Lemma tokenize_loop_ends fuel : forall query tokens,
  (String.length query <= fuel)%nat ->
  tokenize_loop fuel query tokens <> Raise (Builtin NonTermination).
Proof.
  induction fuel as [|fuel IH]; intros query tokens Hlen;
    destruct query as [|c rest]; simpl in *; try discriminate; [lia|].
  pose proof (tokenize_step_raises c rest tokens) as Hr.
  destruct (tokenize_step c rest tokens) as [[query' tokens']|e] eqn:E.
  - apply IH. apply tokenize_step_shorter in E. lia.
  - congruence.
Qed.

Lemma tokenize_ends query :
  tokenize query <> Raise (Builtin NonTermination).
Proof. apply tokenize_loop_ends. lia. Qed.

(** More turns change nothing. *)
Lemma tokenize_loop_fuel fuel : forall fuel' query tokens,
  (String.length query <= fuel)%nat -> (String.length query <= fuel')%nat ->
  tokenize_loop fuel query tokens = tokenize_loop fuel' query tokens.
Proof.
  induction fuel as [|fuel IH]; intros fuel' query tokens H H';
    destruct query as [|c rest]; destruct fuel' as [|fuel'];
    simpl in *; try reflexivity; try lia.
  destruct (tokenize_step c rest tokens) as [[query' tokens']|e] eqn:E;
    [|reflexivity].
  apply tokenize_step_shorter in E. apply IH; lia.
Qed.

(** *** The loop of remove_text over doubled quotes *)

Lemma prefix_length (a : string) : forall b : string,
  String.prefix a b = true -> (String.length a <= String.length b)%nat.
Proof.
  induction a as [|c a IH]; intros b H; simpl; [lia|].
  destruct b as [|d b]; simpl in H; [discriminate|].
  destruct (Ascii.ascii_dec c d); [|discriminate].
  apply IH in H. simpl. lia.
Qed.

(** [find] answers [-1] or the index of an occurrence at or after
    [start]. *)
Lemma str_find_bounds sub s start :
  0 <= start ->
  str_find sub s start = -1 \/
  (start <= str_find sub s start /\
   str_find sub s start + str_len sub <= str_len s).
Proof.
  intros Hstart. unfold str_find.
  destruct (str_len s <? start) eqn:E; [left; reflexivity|].
  apply Z.ltb_ge in E.
  destruct (find_from_spec sub (str_drop (Z.to_nat start) s) start)
    as [H|[n (H & Hn & Hp)]]; [left; exact H|right].
  rewrite H. apply prefix_length in Hp.
  rewrite !str_drop_length in Hp. rewrite str_drop_length in Hn.
  unfold str_len in *. lia.
Qed.

(** The bound on the turns of the loop is not reached: each turn moves
    [escape_index] two characters forward at least, to another doubled
    quote, and more turns than half the characters that are left change
    nothing. *)
Lemma escape_loop_fuel query fuel : forall fuel' end_quote_index escape_index,
  (escape_index = -1 \/
   (0 <= escape_index /\ escape_index + 2 <= str_len query)) ->
  (escape_index <> -1 ->
   str_len query - escape_index <= 2 * Z.of_nat fuel + 1) ->
  (escape_index <> -1 ->
   str_len query - escape_index <= 2 * Z.of_nat fuel' + 1) ->
  escape_loop fuel query end_quote_index escape_index
  = escape_loop fuel' query end_quote_index escape_index.
Proof.
  induction fuel as [|fuel IH]; intros fuel' e i Hi Hf Hf';
    destruct fuel' as [|fuel']; cbn [escape_loop]; try reflexivity.
  - destruct ((i =? e) && negb (i =? -1)) eqn:Ec; [|reflexivity].
    apply andb_true_iff in Ec as [_ Ec]. apply negb_true_iff, Z.eqb_neq in Ec.
    specialize (Hf Ec). lia.
  - destruct ((i =? e) && negb (i =? -1)) eqn:Ec; [|reflexivity].
    apply andb_true_iff in Ec as [_ Ec]. apply negb_true_iff, Z.eqb_neq in Ec.
    specialize (Hf' Ec). lia.
  - destruct ((i =? e) && negb (i =? -1)) eqn:Ec; [|reflexivity].
    apply andb_true_iff in Ec as [_ Ec]. apply negb_true_iff, Z.eqb_neq in Ec.
    specialize (Hf Ec). specialize (Hf' Ec).
    assert (Hi0 : 0 <= i) by lia.
    assert (Hb : str_find "''" query (i + 2) = -1 \/
                 (i + 2 <= str_find "''" query (i + 2) /\
                  str_find "''" query (i + 2) + str_len "''"
                    <= str_len query))
      by (apply str_find_bounds; lia).
    change (str_len "''") with 2 in Hb.
    apply IH; lia.
Qed.

(** In particular more turns than [remove_text] allows for change
    nothing. *)
Lemma escape_loop_ends query end_quote_index (more : nat) :
  escape_loop (String.length query + more) query end_quote_index
    (str_find "''" query 0)
  = escape_loop (String.length query) query end_quote_index
      (str_find "''" query 0).
Proof.
  assert (Hb : str_find "''" query 0 = -1 \/
               (0 <= str_find "''" query 0 /\
                str_find "''" query 0 + str_len "''" <= str_len query))
    by (apply str_find_bounds; lia).
  change (str_len "''") with 2 in Hb.
  apply escape_loop_fuel; [lia| |]; intros _; unfold str_len in *; lia.
Qed.

(** *** The loop of INSERT over the entries *)

Lemma index_from_bounds x : forall l pos i,
  index_from x l pos = Ok i ->
  pos <= i < pos + Z.of_nat (List.length l) /\
  exists y, nth_error l (Z.to_nat (i - pos)) = Some y /\ py_eq y x = true.
Proof.
  induction l as [|y l IH]; intros pos i H; simpl in H; [discriminate|].
  destruct (py_eq y x) eqn:E.
  - inversion H; subst. cbn [List.length]. split; [lia|].
    exists y. rewrite Z.sub_diag. simpl. auto.
  - apply IH in H as [Hb [z [Hz Ez]]]. cbn [List.length]. split; [lia|].
    exists z. split; [|exact Ez].
    replace (Z.to_nat (i - pos)) with (S (Z.to_nat (i - (pos + 1)))) by lia.
    exact Hz.
Qed.

(** [l.index(x, start)] answers an index at or after [start] that holds
    [x]. *)
Lemma list_index_bounds x l start i :
  0 <= start ->
  list_index x l (Some start) None = Ok i ->
  start <= i < Z.of_nat (List.length l) /\
  exists y, nth_error l (Z.to_nat i) = Some y /\ py_eq y x = true.
Proof.
  intros Hstart. unfold list_index, py_slice, clamp_index.
  assert (E : (start <? 0) = false) by (apply Z.ltb_ge; lia).
  rewrite E.
  set (a := Z.to_nat (Z.min (Z.of_nat (List.length l)) (Z.max 0 start))).
  intros H. apply index_from_bounds in H as [Hb [y [Hy Ey]]].
  rewrite List.firstn_all2 in Hb, Hy by (rewrite List.length_skipn; lia).
  rewrite List.length_skipn in Hb.
  rewrite List.nth_error_skipn in Hy.
  assert (Ha : Z.of_nat a = Z.min (Z.of_nat (List.length l)) start)
    by (unfold a; lia).
  split; [lia|].
  exists y. split; [|exact Ey].
  replace (Z.to_nat i) with (a + Z.to_nat (i - Z.of_nat a))%nat by lia.
  exact Hy.
Qed.

Lemma py_eq_parentheses y :
  py_eq y (VStr "(") = true -> py_eq y (VStr ")") = true -> False.
Proof.
  destruct y; simpl; try discriminate.
  intros H1 H2. apply String.eqb_eq in H1. subst. discriminate.
Qed.

(** The bound on the turns of the loop is not reached: each turn moves
    [entry_end] to a later token, and more turns than there are tokens
    after it change nothing. *)
Lemma insert_entries_fuel tokens columns values_end fuel :
  forall fuel' entry_start entry_end table,
    0 <= entry_end ->
    Z.max 0 (Z.of_nat (List.length tokens) - entry_end) < Z.of_nat fuel ->
    Z.max 0 (Z.of_nat (List.length tokens) - entry_end) < Z.of_nat fuel' ->
    Connection.insert_entries fuel tokens columns values_end
      entry_start entry_end table
    = Connection.insert_entries fuel' tokens columns values_end
        entry_start entry_end table.
Proof.
  induction fuel as [|fuel IH]; intros fuel' entry_start entry_end table
    Hend Hf Hf'; [lia|].
  destruct fuel' as [|fuel']; [lia|].
  cbn [Connection.insert_entries].
  destruct (entry_start <? values_end); [|reflexivity].
  unfold bind, lift.
  destruct (Connection.table_method _ table) as [[u|e] table1];
    [|reflexivity].
  destruct (negb _); [reflexivity|].
  destruct (list_index (VStr "(") tokens (Some entry_end) None)
    as [entry_start'|e] eqn:E1; [|reflexivity].
  cbn [of_res].
  destruct (list_index (VStr ")") tokens (Some entry_start') None)
    as [entry_end'|e] eqn:E2; [|reflexivity].
  cbn [of_res].
  apply list_index_bounds in E1 as [Hb1 [y1 [Hy1 Ey1]]]; [|exact Hend].
  apply list_index_bounds in E2 as [Hb2 [y2 [Hy2 Ey2]]]; [|lia].
  assert (Hne : entry_end' <> entry_start').
  { intros Heq. subst entry_end'. rewrite Hy1 in Hy2.
    inversion Hy2; subst y2. exact (py_eq_parentheses y1 Ey1 Ey2). }
  apply IH; lia.
Qed.

Lemma list_index_nonneg x l start stop i :
  list_index x l start stop = Ok i -> 0 <= i.
Proof.
  unfold list_index. intros H.
  apply index_from_bounds in H as [Hb _]. lia.
Qed.

(** In particular more turns than [insert_into] allows for change nothing,
    [entry_end] being an index that [index] has answered. *)
Lemma insert_entries_ends tokens columns values_end entry_start entry_end
    table (more : nat) :
  0 <= entry_end ->
  Connection.insert_entries (S (List.length tokens) + more) tokens columns
    values_end entry_start entry_end table
  = Connection.insert_entries (S (List.length tokens)) tokens columns
      values_end entry_start entry_end table.
Proof. intros H. apply insert_entries_fuel; lia. Qed.

(** * Further properties *)

(** ** The lock system: which requests are granted *)

(** Whether the lock system can grant [requested] to a caller that passes
    [current_lock] as the lock it holds: a shared lock unless somebody
    holds the exclusive one; a reserved lock when nobody holds a reserved
    or the exclusive one; the exclusive lock when nobody holds a lock,
    save for a reserved lock that the caller holds itself.  A request for
    the lock that the caller holds is granted at once. *)
Definition compatible (ls : LockSystem.t) (requested : lock)
    (current_lock : option lock) : bool :=
  match current_lock, requested with
  | Some LShared, LShared | Some LReserved, LReserved
  | Some LExclusive, LExclusive => true
  | _, LShared => LockSystem.exclusive ls =? 0
  | _, LReserved =>
      (LockSystem.reserved ls =? 0) && (LockSystem.exclusive ls =? 0)
  | Some LReserved, LExclusive =>
      (LockSystem.exclusive ls =? 0) && (LockSystem.shared ls =? 0)
  | _, LExclusive =>
      (LockSystem.exclusive ls =? 0) && (LockSystem.shared ls =? 0)
      && (LockSystem.reserved ls =? 0)
  end.

(** X1. [add_lock] grants exactly the compatible requests, and never answers
    [False]: it returns [True] or raises an exception of the program. *)
Theorem add_lock_grants_compatible :
  forall (ls : LockSystem.t) (requested : lock) (current_lock : option lock),
    if compatible ls requested current_lock
    then exists ls', LockSystem.add_lock ls requested current_lock
                     = Ok (true, ls')
    else exists msg, LockSystem.add_lock ls requested current_lock
                     = Raise (Exception msg).
Proof.
  intros ls requested current_lock.
  unfold compatible, LockSystem.add_lock, LockSystem.add_shared,
    LockSystem.add_reserved, LockSystem.add_exclusive,
    LockSystem.has_shared, LockSystem.has_reserved, LockSystem.has_exclusive.
  destruct current_lock as [[| |]|], requested; cbn [lock_eqb];
    destruct (LockSystem.exclusive ls =? 0);
    destruct (LockSystem.shared ls =? 0);
    destruct (LockSystem.reserved ls =? 0);
    cbn [negb andb]; eauto.
Qed.

(** Whether [requested] is the next lock after the one held: any lock for
    a caller that holds none, reserved after shared, exclusive after
    reserved. *)
Definition steps_up (current_lock : option lock) (requested : lock) : bool :=
  match current_lock, requested with
  | None, _ | Some LShared, LReserved | Some LReserved, LExclusive => true
  | _, _ => false
  end.

(** The count of the lock that a caller holds is not zero. *)
Definition counted (ls : LockSystem.t) (current_lock : option lock) : Prop :=
  match current_lock with
  | Some LShared => LockSystem.shared ls <> 0
  | Some LReserved => LockSystem.reserved ls <> 0
  | Some LExclusive => LockSystem.exclusive ls <> 0
  | None => True
  end.

(** X2. Taking the next lock and giving it back leaves the lock system as
    giving back the lock held before does: the step up hands the old lock
    in.  For a caller that held no lock the lock system is as it was. *)
Theorem add_lock_then_remove_lock :
  forall (ls ls' : LockSystem.t) (requested : lock)
         (current_lock : option lock) (granted : bool),
    steps_up current_lock requested = true ->
    counted ls current_lock ->
    LockSystem.add_lock ls requested current_lock = Ok (granted, ls') ->
    LockSystem.remove_lock ls' (Some requested)
    = LockSystem.remove_lock ls current_lock.
Proof.
  intros ls ls' requested current_lock granted Hup Hheld.
  unfold LockSystem.add_lock, LockSystem.add_shared,
    LockSystem.add_reserved, LockSystem.add_exclusive,
    LockSystem.has_shared, LockSystem.has_reserved, LockSystem.has_exclusive.
  destruct ls as [name shared reserved exclusive].
  destruct current_lock as [[| |]|], requested; try discriminate Hup;
    cbn [lock_eqb LockSystem.exclusive LockSystem.shared LockSystem.reserved]
      in *;
    repeat match goal with
           | |- context [if ?c then _ else _] => destruct c eqn:?
           end;
    try discriminate;
    intros [= <- <-];
    unfold LockSystem.remove_lock, LockSystem.remove_shared,
      LockSystem.remove_reserved, LockSystem.remove_exclusive,
      LockSystem.set_shared, LockSystem.set_reserved,
      LockSystem.set_exclusive;
    cbn; try (f_equal; lia).
  rewrite negb_false_iff in *.
  match goal with H : (reserved =? 0) = true |- _ =>
    apply Z.eqb_eq in H; contradiction
  end.
Qed.

Lemma add_lock_then_remove_lock_witness :
  LockSystem.remove_lock
    {| LockSystem.name := "test.db"; LockSystem.shared := 1;
       LockSystem.reserved := 1; LockSystem.exclusive := 0 |}
    (Some LReserved)
  = LockSystem.remove_lock
      {| LockSystem.name := "test.db"; LockSystem.shared := 2;
         LockSystem.reserved := 0; LockSystem.exclusive := 0 |}
      (Some LShared).
Proof.
  apply (add_lock_then_remove_lock
           {| LockSystem.name := "test.db"; LockSystem.shared := 2;
              LockSystem.reserved := 0; LockSystem.exclusive := 0 |}
           _ LReserved (Some LShared) true).
  - reflexivity.
  - simpl. lia.
  - reflexivity.
Defined.

(** ** The tokenizer: blank queries and text literals *)

(** All the characters of [s] are among [allowed]. *)
Fixpoint all_in (s allowed : string) : bool :=
  match s with
  | EmptyString => true
  | String c s' => char_in c allowed && all_in s' allowed
  end.

Lemma collect_characters_all s allowed :
  all_in s allowed = true -> collect_characters s allowed = s.
Proof.
  induction s as [|c s IH]; simpl; [reflexivity|].
  intros H. apply andb_true_iff in H as [Hc Hs].
  rewrite Hc, IH by exact Hs. reflexivity.
Qed.

Lemma str_drop_all s : str_drop (String.length s) s = EmptyString.
Proof. induction s as [|c s IH]; simpl; [reflexivity|exact IH]. Qed.

Lemma tokenize_blank s : all_in s whitespace = true -> tokenize s = Ok [].
Proof.
  intros H. unfold tokenize. destruct s as [|c s]; [reflexivity|].
  cbn [String.length tokenize_loop]. unfold tokenize_step.
  pose proof H as H'. cbn [all_in] in H'.
  apply andb_true_iff in H' as [Hc _]. rewrite Hc.
  unfold remove_leading_whitespace.
  rewrite (collect_characters_all _ _ H), str_drop_all.
  destruct (String.length s); reflexivity.
Qed.

(** X3. A statement made of white space only, the empty statement included,
    has no token: [execute] raises [AssertionError] and leaves the state
    as it is. *)
Theorem execute_blank_statement :
  forall (fuel : nat) (statement : string) (st : Connection.state),
    all_in statement whitespace = true ->
    Connection.execute (S fuel) statement st
    = (Raise (AssertionError "Statement is not a valid SQL statement!"), st).
Proof.
  intros fuel statement st H.
  rewrite execute_step, (tokenize_blank _ H). reflexivity.
Qed.

Lemma execute_blank_statement_witness :
  Connection.execute 1 (String " " (String "010" " ")) fresh_connection
  = (Raise (AssertionError "Statement is not a valid SQL statement!"),
     fresh_connection).
Proof.
  apply (execute_blank_statement 0 (String " " (String "010" " "))
           fresh_connection).
  reflexivity.
Defined.

(** The text [s] as it is written between quotes: every quote doubled. *)
Fixpoint double_quotes (s : string) : string :=
  match s with
  | EmptyString => EmptyString
  | String c s' =>
      if Ascii.eqb c "'" then String "'" (String "'" (double_quotes s'))
      else String c (double_quotes s')
  end.

Lemma str_replace_double_quotes s :
  str_replace "''" "'" (double_quotes s) = s.
Proof.
  unfold str_replace. induction s as [|c s IH]; [reflexivity|].
  cbn [double_quotes]. destruct (Ascii.eqb c "'") eqn:Ec.
  - apply Ascii.eqb_eq in Ec. subst c.
    assert (E : String.prefix "''" (String "'" (String "'" (double_quotes s)))
                = true)
      by (cbn; destruct (double_quotes s); reflexivity).
    cbn [str_replace_from]. rewrite E.
    cbn [String.length Nat.sub str_replace_from String.append].
    rewrite IH. reflexivity.
  - assert (E : String.prefix "''" (String c (double_quotes s)) = false).
    { cbn [String.prefix]. destruct (Ascii.ascii_dec "'" c) as [E|_];
        [|reflexivity].
      subst c. rewrite Ascii.eqb_refl in Ec. discriminate. }
    cbn [str_replace_from]. rewrite E, IH. reflexivity.
Qed.

Lemma str_drop_app (a b : string) :
  str_drop (String.length a) (a ++ b) = b.
Proof. induction a as [|c a IH]; simpl; [reflexivity|exact IH]. Qed.

Lemma str_take_app (a b : string) :
  str_take (String.length a) (a ++ b) = a.
Proof.
  induction a as [|c a IH]; simpl; [destruct b; reflexivity|].
  rewrite IH. reflexivity.
Qed.

Lemma string_app_length (a b : string) :
  String.length (a ++ b) = (String.length a + String.length b)%nat.
Proof. induction a as [|c a IH]; simpl; [reflexivity|]. rewrite IH. lia. Qed.

Lemma prefix_empty (s : string) : String.prefix "" s = true.
Proof. destruct s; reflexivity. Qed.

Lemma find_from_here sub s pos :
  String.prefix sub s = true -> find_from sub s pos = pos.
Proof. intros H. destruct s; cbn [find_from]; rewrite H; reflexivity. Qed.

Lemma find_from_next sub c s pos :
  String.prefix sub (String c s) = false ->
  find_from sub (String c s) pos = find_from sub s (pos + 1).
Proof. intros H. cbn [find_from]. rewrite H. reflexivity. Qed.

Lemma str_contains_find sub : forall s pos,
  str_contains sub s = false -> find_from sub s pos = -1.
Proof.
  induction s as [|c s IH]; intros pos H; cbn [str_contains] in H;
    apply orb_false_iff in H as [Hp Hs]; cbn [find_from]; rewrite Hp;
    [reflexivity|apply IH; exact Hs].
Qed.

Lemma str_drop_next n : forall q c x,
  str_drop n q = String c x -> str_drop (S n) q = x.
Proof.
  induction n as [|n IH]; intros q c x H.
  - simpl in H. subst q. reflexivity.
  - destruct q as [|d q]; [discriminate|]. simpl in H. simpl.
    destruct n; [simpl in H; subst q; reflexivity|].
    exact (IH _ _ _ H).
Qed.

Lemma str_drop_app_next (a : string) c (b : string) :
  str_drop (S (String.length a)) (a ++ String c b) = b.
Proof. apply (str_drop_next _ _ c), str_drop_app. Qed.

Lemma double_quotes_length s :
  (String.length s <= String.length (double_quotes s))%nat.
Proof.
  induction s as [|c s IH]; simpl; [lia|].
  destruct (Ascii.eqb c "'"); simpl; lia.
Qed.

Lemma string_app_cons c (a b : string) :
  (String c a ++ b)%string = String c (a ++ b).
Proof. reflexivity. Qed.

Section TextLiteral.

(** What follows the closing quote does not start with a quote. *)
Variable rest : string.
Hypothesis rest_no_quote : String.prefix "'" rest = false.

(** The loop of [remove_text] stops at the closing quote: from a place in
    the query where a part of the text is left, it steps over the doubled
    quotes of that part and no further. *)
Lemma escape_loop_closing_quote (query : string) : forall s (n fuel : nat),
  str_drop n query = (double_quotes s ++ String "'" rest)%string ->
  (String.length s < fuel)%nat ->
  escape_loop fuel query
    (find_from "'" (double_quotes s ++ String "'" rest) (Z.of_nat n))
    (find_from "''" (double_quotes s ++ String "'" rest) (Z.of_nat n))
  = Z.of_nat n + Z.of_nat (String.length (double_quotes s)).
Proof.
  induction s as [|c s IH]; intros n fuel Hq Hfuel.
  - cbn [double_quotes String.length].
    change ("" ++ String "'" rest)%string with (String "'" rest).
    rewrite (find_from_here "'" (String "'" rest))
      by (cbn; first [reflexivity|apply prefix_empty]).
    rewrite (find_from_next "''" "'" rest)
      by (cbn [String.prefix]; exact rest_no_quote).
    destruct fuel as [|fuel]; [lia|]. cbn [escape_loop].
    destruct (find_from_spec "''" rest (Z.of_nat n + 1)) as [H|[k [H _]]];
      rewrite H.
    + replace (-1 =? Z.of_nat n) with false by (symmetry; apply Z.eqb_neq; lia).
      cbn [andb]. lia.
    + replace (Z.of_nat n + 1 + Z.of_nat k =? Z.of_nat n) with false
        by (symmetry; apply Z.eqb_neq; lia).
      cbn [andb]. lia.
  - cbn [double_quotes] in *. destruct (Ascii.eqb c "'") eqn:Ec.
    + apply Ascii.eqb_eq in Ec. subst c.
      rewrite !string_app_cons in *.
      set (tail := (double_quotes s ++ String "'" rest)%string) in *.
      rewrite (find_from_here "'" (String "'" (String "'" tail)))
        by (cbn; first [reflexivity|apply prefix_empty]).
      rewrite (find_from_here "''" (String "'" (String "'" tail)))
        by (cbn; first [reflexivity|apply prefix_empty]).
      destruct fuel as [|fuel]; [simpl in Hfuel; lia|]. cbn [escape_loop].
      rewrite Z.eqb_refl.
      replace (Z.of_nat n =? -1) with false by (symmetry; apply Z.eqb_neq; lia).
      cbn [andb negb].
      assert (Hlen : (n + 2 <= String.length query)%nat).
      { pose proof (str_drop_length n query) as Hl. rewrite Hq in Hl.
        cbn [String.length] in Hl. lia. }
      assert (Hdrop : str_drop (S (S n)) query = tail).
      { apply (str_drop_next _ _ "'"), (str_drop_next _ _ "'"). exact Hq. }
      unfold str_find.
      replace (str_len query <? Z.of_nat n + 2) with false
        by (symmetry; apply Z.ltb_ge; unfold str_len; lia).
      replace (Z.to_nat (Z.of_nat n + 2)) with (S (S n)) by lia.
      rewrite Hdrop.
      replace (Z.of_nat n + 2) with (Z.of_nat (S (S n))) by lia.
      unfold tail. rewrite IH; [|exact Hdrop|simpl in Hfuel; lia].
      cbn [String.length]. lia.
    + rewrite !string_app_cons in *.
      set (tail := (double_quotes s ++ String "'" rest)%string) in *.
      assert (Hc : forall sub, String.prefix (String "'" sub) (String c tail)
                               = false).
      { intros sub. cbn [String.prefix].
        destruct (Ascii.ascii_dec "'" c) as [E|_]; [|reflexivity].
        subst c. rewrite Ascii.eqb_refl in Ec. discriminate. }
      rewrite !find_from_next by apply Hc.
      replace (Z.of_nat n + 1) with (Z.of_nat (S n)) by lia.
      unfold tail. rewrite IH;
        [|apply (str_drop_next _ _ c); exact Hq|simpl in Hfuel; lia].
      cbn [String.length]. lia.
Qed.

(** X4. A text literal is read back as the text: [remove_text] undoes the
    doubling of the quotes, and leaves what follows the closing quote. *)
Theorem remove_text_double_quotes :
  forall (s : string) (tokens : list value),
    remove_text (String "'" (double_quotes s ++ String "'" rest)) tokens
    = (rest, tokens ++ [VStr s]).
Proof.
  intros s tokens. unfold remove_text.
  change (str_drop 1 (String "'" (double_quotes s ++ String "'" rest)))
    with (double_quotes s ++ String "'" rest)%string.
  set (query := (double_quotes s ++ String "'" rest)%string).
  assert (Hfind : forall sub, str_find sub query 0 = find_from sub query 0).
  { intros sub. unfold str_find.
    replace (str_len query <? 0) with false
      by (symmetry; apply Z.ltb_ge; unfold str_len; lia).
    reflexivity. }
  assert (Hlen : (String.length s < String.length query)%nat).
  { unfold query. rewrite string_app_length. cbn [String.length].
    pose proof (double_quotes_length s). lia. }
  pose proof (escape_loop_closing_quote query s 0 (String.length query)
                eq_refl Hlen) as Hloop.
  change (Z.of_nat 0) with 0 in Hloop. fold query in Hloop.
  assert (Hend : (if str_contains "''" query
                  then escape_loop (String.length query) query
                         (str_find "'" query 0) (str_find "''" query 0)
                  else str_find "'" query 0)
                 = Z.of_nat (String.length (double_quotes s))).
  { rewrite !Hfind. destruct (str_contains "''" query) eqn:Ec.
    - rewrite Hloop. lia.
    - rewrite (str_contains_find _ _ 0 Ec) in Hloop.
      destruct (String.length query); cbn [escape_loop] in Hloop.
      + rewrite Hloop. lia.
      + replace (-1 =? find_from "'" query 0) with false in Hloop.
        * cbn [andb] in Hloop. rewrite Hloop. lia.
        * symmetry. apply Z.eqb_neq. intros E.
          destruct (-1 =? find_from "'" query 0) eqn:E'; [|
            apply Z.eqb_neq in E'; contradiction].
          cbn [andb negb] in Hloop. rewrite Z.eqb_refl in Hloop.
          cbn [negb andb] in Hloop. lia. }
  rewrite Hend.
  assert (Hclamp : forall k : nat,
            (k <= String.length query)%nat ->
            clamp_index (str_len query) (Z.of_nat k) = k).
  { intros k Hk. unfold clamp_index, str_len.
    replace (Z.of_nat k <? 0) with false by (symmetry; apply Z.ltb_ge; lia).
    lia. }
  unfold str_upto, str_from.
  replace (Z.of_nat (String.length (double_quotes s)) + 1)
    with (Z.of_nat (S (String.length (double_quotes s)))) by lia.
  rewrite !Hclamp
    by (unfold query; rewrite string_app_length; cbn [String.length]; lia).
  unfold query.
  rewrite str_take_app, str_drop_app_next, str_replace_double_quotes.
  reflexivity.
Qed.

End TextLiteral.

Lemma remove_text_double_quotes_witness :
  remove_text "'it''s' , 1" [VStr "x"] = (" , 1", [VStr "x"; VStr "it's"]).
Proof.
  apply (remove_text_double_quotes " , 1" eq_refl "it's" [VStr "x"]).
Defined.

(** ** Tables: the counts of rows and columns *)

(** A row records the number of its cells, and has no more cells than the
    table has columns. *)
Definition row_ok (table : Table.t) (row : Row.t) : Prop :=
  Row.size row = Z.of_nat (List.length (Row.data row)) /\
  Z.of_nat (List.length (Row.data row)) <= Table.column_size table.

(** A table records the number of its columns and the number of its rows,
    and its rows are as above. *)
Definition table_wf (table : Table.t) : Prop :=
  Table.column_size table = Z.of_nat (List.length (Table.column_names table)) /\
  Table.size table = Z.of_nat (List.length (Table.rows table)) /\
  List.Forall (row_ok table) (Table.rows table).

Lemma reorganize_length self insertion_columns cols_to_values :
  forall column_names values,
    Table.reorganize self column_names insertion_columns cols_to_values
      = Ok values ->
    List.length values = List.length column_names.
Proof.
  induction column_names as [|name column_names IH]; intros values; cbn [Table.reorganize].
  - intros [= <-]. reflexivity.
  - destruct (if py_in name insertion_columns then _ else _) as [v|e];
      [|discriminate].
    cbn [res_bind].
    destruct (Table.reorganize self column_names insertion_columns
                cols_to_values) as [rest|e]; [|discriminate].
    cbn [res_bind]. intros [= <-]. cbn [List.length]. rewrite (IH rest eq_refl).
    reflexivity.
Qed.

Lemma append_row_wf table values :
  table_wf table ->
  Z.of_nat (List.length values) <= Table.column_size table ->
  table_wf (Table.append_row table (Row.init values)).
Proof.
  intros (Hc & Hs & Hr) Hlen. unfold Table.append_row, Table.with_rows.
  split; [exact Hc|]. split; cbn.
  - rewrite List.length_app. cbn. lia.
  - apply List.Forall_app. split; [exact Hr|].
    constructor; [|constructor]. split; [reflexivity|exact Hlen].
Qed.

(** [insert_row], whatever it is given, keeps the counts right: it stores
    no row that is wider than the table. *)
Lemma insert_row_wf table values insertion_columns table' :
  table_wf table ->
  Table.insert_row table values insertion_columns = Ok table' ->
  table_wf table'.
Proof.
  intros Hwf. pose proof Hwf as (Hc & Hs & Hr).
  unfold Table.insert_row. destruct values as [d|values].
  - intros [= <-]. apply append_row_wf; [exact Hwf|].
    rewrite List.length_map. lia.
  - destruct (Z.of_nat (List.length values) >? Table.column_size table) eqn:E;
      [intros [= <-]; exact Hwf|].
    rewrite Z.gtb_ltb in E. apply Z.ltb_ge in E.
    destruct insertion_columns as [insertion_columns|].
    + destruct (Table.reorganize _ _ _ _) as [vs|e] eqn:Er; [|discriminate].
      cbn [res_bind]. apply reorganize_length in Er.
      destruct (Table.types_ok _ _); intros [= <-]; [|exact Hwf].
      apply append_row_wf; [exact Hwf|]. rewrite Er. lia.
    + destruct (Z.of_nat (List.length values) <? Table.column_size table).
      * unfold Table.pad_to_width.
        destruct (_ >? 0); [discriminate|]. cbn [res_bind].
        destruct (Table.types_ok _ _); intros [= <-]; [|exact Hwf].
        apply append_row_wf; assumption.
      * cbn [res_bind].
        destruct (Table.types_ok _ _); intros [= <-]; [|exact Hwf].
        apply append_row_wf; assumption.
Qed.

Lemma remove_first_length row : forall rows rows',
  Table.remove_first row rows = Some rows' ->
  List.length rows = S (List.length rows') /\
  forall P : Row.t -> Prop, List.Forall P rows -> List.Forall P rows'.
Proof.
  induction rows as [|record rows IH]; intros rows'; cbn [Table.remove_first];
    [discriminate|].
  destruct (Row.eq row record).
  - intros [= <-]. split; [reflexivity|].
    intros P H. inversion H; assumption.
  - destruct (Table.remove_first row rows) as [l|]; [|discriminate].
    intros [= <-]. destruct (IH l eq_refl) as [Hl HP].
    split; [cbn; lia|].
    intros P H. inversion H; subst. constructor; auto.
Qed.

Lemma remove_row_wf table row :
  table_wf table -> table_wf (Table.remove_row table row).
Proof.
  intros Hwf. pose proof Hwf as (Hc & Hs & Hr). unfold Table.remove_row.
  destruct (Table.size table =? 0); [exact Hwf|].
  destruct (Table.remove_first row (Table.rows table)) as [rows'|] eqn:E;
    [|exact Hwf].
  apply remove_first_length in E as [Hl HP].
  split; [exact Hc|]. split; cbn; [lia|].
  apply HP. exact Hr.
Qed.

Lemma remove_rows_wf rows : forall table,
  table_wf table -> table_wf (fold_left Table.remove_row rows table).
Proof.
  induction rows as [|row rows IH]; intros table Hwf; cbn; [exact Hwf|].
  apply IH, remove_row_wf, Hwf.
Qed.

Lemma update_row_ok table row column_index val row' :
  row_ok table row -> Row.update_row row column_index val = Ok row' ->
  row_ok table row'.
Proof.
  intros [Hs Hl]. unfold Row.update_row. cbv zeta.
  destruct (_ || _); [discriminate|]. intros [= <-]. unfold row_ok. cbn.
  rewrite length_insert. split; assumption.
Qed.

Lemma assign_values_ok table' table values row :
  row_ok table' row ->
  row_ok table' (snd (Connection.assign_values table values row)).
Proof.
  unfold Connection.assign_values. destruct values as [values|];
    [|intros H; exact H].
  revert row. induction values as [|v values IH]; intros row Hrow;
    cbn [for_each]; [exact Hrow|].
  unfold bind at 1. unfold bind at 1. unfold lift at 1.
  destruct (Table.get_column_index table (fst v)) as [index|e];
    [|exact Hrow].
  cbn [of_res].
  destruct (Row.update_row row index (snd v)) as [row1|e] eqn:E;
    [|exact Hrow].
  apply IH. eapply update_row_ok; eauto.
Qed.

Lemma assign_rows_ok table' table values : forall marks rows,
  List.Forall (row_ok table') rows ->
  List.length (snd (Connection.assign_rows table values marks rows))
  = List.length rows /\
  List.Forall (row_ok table')
    (snd (Connection.assign_rows table values marks rows)).
Proof.
  intros marks rows. revert marks.
  induction rows as [|row rows IH]; intros marks Hrows.
  - destruct marks; cbn; auto.
  - destruct marks as [|mark marks]; [cbn; auto|].
    inversion Hrows as [|? ? Hrow Hrest]; subst.
    destruct (IH marks Hrest) as [Hl Hf].
    pose proof (assign_values_ok table' table values row Hrow) as Hv.
    cbn [Connection.assign_rows]. destruct mark.
    + destruct (Connection.assign_values table values row) as [[u|e] row1];
        cbn [snd] in Hv.
      * destruct (Connection.assign_rows table values marks rows)
          as [r rows1]. cbn [snd] in *. split; [cbn; lia|]. constructor; auto.
      * cbn. split; [reflexivity|]. constructor; auto.
    + destruct (Connection.assign_rows table values marks rows) as [r rows1].
      cbn [snd] in *. split; [cbn; lia|]. constructor; auto.
Qed.

Lemma update_table_wf values conditions table :
  table_wf table ->
  table_wf (snd (Connection.update_table values conditions table)).
Proof.
  intros Hwf. pose proof Hwf as (Hc & Hs & Hr). unfold Connection.update_table.
  destruct (Table.size table =? 0); [exact Hwf|].
  destruct (match conditions with Some _ => _ | None => _ end) as [marks|e];
    [|exact Hwf].
  destruct (assign_rows_ok table table values marks (Table.rows table) Hr)
    as [Hl Hf].
  destruct (Connection.assign_rows table values marks (Table.rows table))
    as [r rows']. cbn [snd] in *.
  split; [exact Hc|]. split; cbn; [lia|exact Hf].
Qed.

Lemma delete_from_wf conditions table :
  table_wf table ->
  table_wf (snd (Connection.delete_from conditions table)).
Proof.
  intros Hwf. pose proof Hwf as (Hc & Hs & Hr). unfold Connection.delete_from.
  destruct (Table.size table =? 0); [exact Hwf|].
  destruct conditions as [conditions|].
  - destruct (Connection.condition_marks table conditions) as [marks|e];
      [|exact Hwf].
    cbn [snd]. apply remove_rows_wf. exact Hwf.
  - cbn. split; [exact Hc|]. split; [reflexivity|constructor].
Qed.

Lemma table_init_wf table_name values table :
  Table.init table_name values = Ok table -> table_wf table.
Proof.
  unfold Table.init.
  destruct (match values with [] => _ | _ => _ end) as [schema|e];
    [|discriminate].
  cbn [res_bind].
  destruct (Table.read_defaults values) as [defaults|e]; [|discriminate].
  cbn [res_bind]. intros [= <-].
  split; [reflexivity|]. split; [reflexivity|constructor].
Qed.

Lemma view_init_wf view_name table_name view_columns table_schema
    statement table :
  View.init view_name table_name view_columns table_schema statement
    = Ok table ->
  table_wf table.
Proof.
  unfold View.init.
  destruct (View.unqualify _ _ _) as [unqualified_schema|e]; [|discriminate].
  cbn [res_bind].
  destruct (Table.init view_name []) as [base|e] eqn:E; [|discriminate].
  cbn [res_bind]. intros [= <-].
  cbn in E. inversion E; subst base.
  split; [reflexivity|]. split; [reflexivity|constructor].
Qed.

(** *** The counts stay right whatever is executed *)

Definition tables_wf (db : Database.t) : Prop :=
  forall key table, List.In (key, table) (Database.tables db) -> table_wf table.

(** All the tables of all the database objects are as above. *)
Definition world_wf (w : world) : Prop :=
  forall r, tables_wf (database_objects w r).

Definition state_wf (st : Connection.state) : Prop :=
  world_wf (Connection.globals st).

Lemma wf_table_method (f : Table.t -> res Table.t) :
  (forall table table', table_wf table -> f table = Ok table' ->
                        table_wf table') ->
  keeps table_wf (Connection.table_method f).
Proof.
  intros Hf. apply keeps_from_parts; [apply keeps_table_method|].
  intros table Hwf. unfold Connection.table_method.
  destruct (f table) as [table'|e] eqn:E; simpl; [|exact Hwf].
  eapply Hf; eauto.
Qed.

Lemma wf_insert_row values columns :
  keeps table_wf
    (Connection.table_method
       (fun table => Table.insert_row table values columns)).
Proof.
  apply wf_table_method. intros table table'. apply insert_row_wf.
Qed.

Lemma wf_materialize result :
  keeps table_wf (Connection.materialize result).
Proof.
  unfold Connection.materialize. destruct result as [result|].
  - apply keeps_for_each. intros row.
    apply keeps_bind; [apply keeps_lift|intros l; apply wf_insert_row].
  - apply keeps_raise. reflexivity.
Qed.

Lemma wf_insert_entries (fuel : nat) :
  forall tokens columns values_end entry_start entry_end,
    keeps table_wf
      (Connection.insert_entries fuel tokens columns values_end
         entry_start entry_end).
Proof.
  induction fuel as [|fuel IH]; intros; cbn [Connection.insert_entries].
  - apply keeps_raise. reflexivity.
  - destruct (entry_start <? values_end); [|apply keeps_ret].
    apply keeps_bind; [apply wf_insert_row|intros _].
    destruct (negb _); [apply keeps_ret|].
    apply keeps_bind; [apply keeps_lift|intros a].
    apply keeps_bind; [apply keeps_lift|intros b].
    apply IH.
Qed.

Lemma wf_insert_into (tokens : list value) :
  keeps table_wf (Connection.insert_into tokens).
Proof.
  unfold Connection.insert_into.
  apply keeps_bind; [apply keeps_lift|intros values_index].
  apply keeps_bind; [apply keeps_lift|intros before].
  destruct (py_eq before (VStr "DEFAULT")); [apply wf_insert_row|].
  apply keeps_bind; [|intros columns].
  { destruct (negb _); keeps_auto. }
  apply keeps_bind; [apply keeps_lift|intros values_end].
  apply keeps_bind; [apply keeps_lift|intros at_open].
  apply keeps_bind; [apply keeps_lift|intros entry_end].
  apply wf_insert_entries.
Qed.

Lemma wf_update_table values conditions :
  keeps table_wf (Connection.update_table values conditions).
Proof.
  apply keeps_from_parts; [apply keeps_update_table|].
  intros table. apply update_table_wf.
Qed.

Lemma wf_delete_from conditions :
  keeps table_wf (Connection.delete_from conditions).
Proof.
  apply keeps_from_parts; [apply keeps_delete_from|].
  intros table. apply delete_from_wf.
Qed.

Lemma wf_update_with (tokens : list value) :
  keeps table_wf (Connection.update_with tokens).
Proof.
  unfold Connection.update_with.
  apply keeps_bind; [apply keeps_lift|intros end_index].
  apply keeps_bind; [apply keeps_ret|intros has_where].
  apply keeps_bind; [destruct has_where; keeps_auto|intros where_index].
  apply keeps_bind; [destruct has_where; keeps_auto|intros conditions].
  apply keeps_bind; [|intros set_values; apply wf_update_table].
  destruct (py_in _ _); keeps_auto.
Qed.

Lemma tables_wf_set_table db key table :
  tables_wf db -> table_wf table ->
  tables_wf (Database.set_table db key table).
Proof.
  intros Hdb Ht k x Hin. simpl in Hin.
  apply dict_set_in in Hin as [->|Hin]; [exact Ht|eauto].
Qed.

Lemma tables_wf_on_table {A : Type} (table_name : value) (m : M Table.t A) :
  keeps table_wf m -> keeps tables_wf (on_table table_name m).
Proof.
  intros Hm db Hdb. unfold on_table.
  destruct (dict_get table_name (Database.tables db)) as [table|] eqn:E.
  - assert (Ht : table_wf table).
    { apply dict_get_in in E as [k Hin]. eauto. }
    specialize (Hm table Ht).
    destruct (m table) as [[a|e] table'].
    + apply tables_wf_set_table; assumption.
    + destruct Hm as [Hm He]. split; [|exact He].
      apply tables_wf_set_table; assumption.
  - split; [exact Hdb|reflexivity].
Qed.

Lemma tables_wf_add_table db table_name values db' :
  tables_wf db -> Database.add_table db table_name values = Ok db' ->
  tables_wf db'.
Proof.
  intros Hdb. unfold Database.add_table.
  destruct (Table.init table_name values) as [table|e] eqn:E; [|discriminate].
  cbn [res_bind]. intros [= <-] k x Hin. simpl in Hin.
  apply dict_set_in in Hin as [->|Hin]; [|eauto].
  eapply table_init_wf; eauto.
Qed.

Lemma tables_wf_remove_table db table_name db' :
  tables_wf db -> Database.remove_table db table_name = Ok db' ->
  tables_wf db'.
Proof.
  intros Hdb. unfold Database.remove_table.
  destruct (dict_mem _ _); [|discriminate].
  intros [= <-] k x Hin. simpl in Hin. apply dict_remove_in in Hin. eauto.
Qed.

Lemma tables_wf_add_view db view_name table_name view_columns schema
    statement db' :
  tables_wf db ->
  Database.add_view db view_name table_name view_columns schema statement
    = Ok db' ->
  tables_wf db'.
Proof.
  intros Hdb. unfold Database.add_view.
  destruct (View.init _ _ _ _ _) as [view|e] eqn:E; [|discriminate].
  cbn [res_bind]. intros [= <-] k x Hin. simpl in Hin.
  apply dict_set_in in Hin as [->|Hin]; [|eauto].
  eapply view_init_wf; eauto.
Qed.

Section CountsKept.
Import Connection.

Lemma wf_on_database {A : Type} (m : M Database.t A) :
  keeps tables_wf m -> keeps state_wf (on_database m).
Proof.
  intros Hm s Hv. unfold on_database.
  specialize (Hm _ (Hv (database (self s)))).
  assert (G : forall db', tables_wf db' ->
            state_wf
              {| self := self s;
                 globals :=
                   {| ALL_DATABASES := ALL_DATABASES (globals s);
                      ALL_DATABASES_LOCKSYSTEMS :=
                        ALL_DATABASES_LOCKSYSTEMS (globals s);
                      database_objects :=
                        store_set (database_objects (globals s))
                          (database (self s)) db';
                      database_count := database_count (globals s);
                      locksystem_objects := locksystem_objects (globals s);
                      locksystem_count := locksystem_count (globals s) |} |}).
  { intros db' Hdb' r. simpl. unfold store_set.
    destruct (Nat.eqb r (database (self s))); [exact Hdb'|apply Hv]. }
  destruct (m _) as [[a|e] db']; simpl.
  - apply G. exact Hm.
  - destruct Hm as [Hm He]. split; [apply G; exact Hm|exact He].
Qed.

Lemma wf_database_method (f : Database.t -> res Database.t) :
  (forall db db', tables_wf db -> f db = Ok db' -> tables_wf db') ->
  keeps state_wf (database_method f).
Proof.
  intros Hf. unfold database_method. apply wf_on_database.
  intros db Hdb. destruct (f db) as [db'|e] eqn:E; simpl.
  - eapply Hf; eauto.
  - split; [exact Hdb|reflexivity].
Qed.

Lemma wf_set_transaction_lock l : keeps state_wf (set_transaction_lock l).
Proof. intros s H. exact H. Qed.

Lemma wf_set_transaction_mode m : keeps state_wf (set_transaction_mode m).
Proof. intros s H. exact H. Qed.

Lemma wf_set_database r : keeps state_wf (set_database r).
Proof. intros s H. exact H. Qed.

Lemma wf_publish : keeps state_wf publish_database.
Proof. intros s H. exact H. Qed.

Lemma wf_on_lock_system (A : Type) (m : M LockSystem.t A) :
  keeps anything m -> keeps state_wf (on_lock_system m).
Proof.
  intros Hm s H. unfold on_lock_system.
  specialize (Hm (locksystem_objects (globals s) (lock_system (self s)))
                Logic.I).
  destruct (m _) as [[a|e] ls']; simpl; [exact H|].
  split; [exact H|apply Hm].
Qed.

Lemma wf_deepcopy r : keeps state_wf (deepcopy r).
Proof.
  intros s H. unfold deepcopy. simpl. intros r'. simpl. unfold store_set.
  destruct (Nat.eqb r' (database_count (globals s))); apply H.
Qed.

Lemma wf_lock_check act : keeps state_wf (lock_check act).
Proof.
  apply keeps_lock_check. intros [m|] held.
  - apply keeps_lock_transition_tx;
      auto using wf_set_transaction_lock, wf_on_lock_system.
  - apply keeps_lock_transition_auto;
      auto using wf_set_transaction_lock, wf_on_lock_system,
        wf_publish, wf_set_database, wf_deepcopy.
Qed.

Lemma wf_in_autocommit act : keeps state_wf (in_autocommit act).
Proof.
  unfold in_autocommit.
  apply keeps_bind; [apply keeps_get_transaction_mode|intros tmode].
  destruct tmode; [apply keeps_ret|apply wf_lock_check].
Qed.

Lemma tables_wf_set_joined_table joined :
  keeps tables_wf (modify (fun db => Database.set_joined_table db joined)).
Proof. apply keeps_modify. intros db Hdb. exact Hdb. Qed.

End CountsKept.

Ltac wf_step :=
  match goal with
  | |- keeps _ (bind _ _) => apply keeps_bind; [|intros ?]
  | |- keeps _ (ret _) => apply keeps_ret
  | |- keeps _ (lift _) => apply keeps_lift
  | |- keeps _ (raise _) => apply keeps_raise; reflexivity
  | |- keeps _ (Connection.lock_check _) => apply wf_lock_check
  | |- keeps _ (Connection.in_autocommit _) => apply wf_in_autocommit
  | |- keeps _ (Connection.table_exists _) => apply keeps_table_exists
  | |- keeps _ (Connection.get_table _) => apply keeps_get_table
  | |- keeps _ Connection.get_database => apply keeps_get_database
  | |- keeps _ (if ?c then _ else _) => destruct c
  | |- keeps _ (match ?x with _ => _ end) => destruct x
  | |- keeps _ (let '(_, _) := ?x in _) => destruct x
  end.

Section CountsBranches.
Import Connection.

Lemma wf_execute_create_table tokens :
  keeps state_wf (execute_create_table tokens).
Proof.
  unfold execute_create_table. repeat wf_step.
  apply wf_database_method. intros db db' Hdb.
  apply tables_wf_add_table. exact Hdb.
Qed.

Lemma wf_execute_drop_table tokens :
  keeps state_wf (execute_drop_table tokens).
Proof.
  unfold execute_drop_table. repeat wf_step.
  apply wf_database_method. intros db db' Hdb.
  apply tables_wf_remove_table. exact Hdb.
Qed.

Lemma wf_execute_insert tokens : keeps state_wf (execute_insert tokens).
Proof.
  unfold execute_insert. repeat wf_step.
  apply wf_on_database, tables_wf_on_table, wf_insert_into.
Qed.

Lemma wf_execute_delete tokens : keeps state_wf (execute_delete tokens).
Proof.
  unfold execute_delete. repeat wf_step;
    apply wf_on_database, tables_wf_on_table, wf_delete_from.
Qed.

Lemma wf_execute_update tokens : keeps state_wf (execute_update tokens).
Proof.
  unfold execute_update. repeat wf_step.
  apply wf_on_database, tables_wf_on_table, wf_update_with.
Qed.

Lemma wf_execute_join tokens : keeps state_wf (execute_join tokens).
Proof.
  unfold execute_join. repeat wf_step.
  apply wf_on_database, tables_wf_set_joined_table.
Qed.

Lemma materialize_table_wf result new_view filled :
  table_wf new_view ->
  match materialize result new_view with
  | (Ok _, filled) => Ok filled
  | (Raise e, _) => Raise e
  end = Ok filled ->
  table_wf filled.
Proof.
  intros Hwf. pose proof (wf_materialize result new_view Hwf) as H.
  destruct (materialize result new_view) as [[u|e] t]; [|discriminate].
  intros [= <-]. exact H.
Qed.

(** The views store queries and the counts are right. *)
Definition sound (st : state) : Prop := views_hold st /\ state_wf st.

Lemma sound_lock_check act : keeps sound (lock_check act).
Proof. apply keeps_conj; [apply views_lock_check|apply wf_lock_check]. Qed.

Lemma sound_in_autocommit act : keeps sound (in_autocommit act).
Proof.
  apply keeps_conj; [apply views_in_autocommit|apply wf_in_autocommit].
Qed.

Lemma sound_on_database {A : Type} (m : M Database.t A) :
  keeps tables_ok m -> keeps tables_wf m -> keeps sound (on_database m).
Proof.
  intros H1 H2.
  apply keeps_conj; [apply views_on_database|apply wf_on_database];
    assumption.
Qed.

Lemma sound_execute_select execute_rec tokens :
  (forall statement,
     query_like statement = true -> keeps sound (execute_rec statement)) ->
  keeps sound (execute_select execute_rec tokens).
Proof.
  intros Hrec. unfold execute_select.
  apply keeps_bind; [apply sound_lock_check|intros _].
  apply keeps_bind; [apply keeps_lift|intros from_keyword].
  apply keeps_bind; [apply keeps_lift|intros table_name].
  unfold keeps.
  eapply triple_bind;
    [apply (triple_get_table sound sound table_name); auto|intros table].
  eapply triple_weaken with (P' := fun s => table_ok table /\ sound s);
    [apply triple_assume; intros Ht
    |intros s [Hv Hget]; split; [|exact Hv]
    |intros a s H; exact H|intros e s H; exact H].
  2: { intros attrs Hview. destruct Hv as [Hv _].
       eapply views_get_table; eauto. }
  apply keeps_bind.
  2: { intros table'.
       repeat first [apply sound_in_autocommit | wf_step]. }
  destruct (Table.view table) as [attrs|] eqn:Eview; [|apply keeps_ret].
  apply keeps_bind; [apply Hrec, Ht; exact Eview|intros result].
  unfold keeps.
  eapply triple_bind; [apply (triple_lift sound)|intros new_view].
  apply triple_assume. intros Einit.
  eapply triple_bind;
    [apply (triple_lift_outcome sound), materialize_quiet|intros filled].
  apply triple_assume. intros Efill.
  assert (Hok : table_ok filled).
  { eapply materialize_table_ok; [|exact Efill].
    eapply view_init_ok; [|exact Einit]. apply Ht. exact Eview. }
  assert (Hwf : table_wf filled).
  { eapply materialize_table_wf; [|exact Efill].
    eapply view_init_wf; exact Einit. }
  apply keeps_bind; [|intros _; apply keeps_ret].
  apply sound_on_database; apply keeps_modify; intros db Hdb.
  - apply tables_ok_set_table; assumption.
  - apply tables_wf_set_table; assumption.
Qed.

Lemma sound_execute_create_view execute_rec statement tokens :
  (forall statement,
     query_like statement = true -> keeps sound (execute_rec statement)) ->
  keeps sound (execute_create_view execute_rec statement tokens).
Proof.
  intros Hrec. unfold execute_create_view.
  pose proof (Hrec _ (view_statement_query_like statement)) as Hview.
  repeat first [apply sound_lock_check | apply sound_in_autocommit | wf_step];
    try exact Hview.
  - apply keeps_conj.
    + apply views_database_method. intros db db' Hdb.
      apply tables_ok_add_view;
        [apply view_statement_query_like|exact Hdb].
    + apply wf_database_method. intros db db' Hdb.
      apply tables_wf_add_view. exact Hdb.
  - apply sound_on_database.
    + apply tables_on_table. intros v'. apply viewing_materialize.
    + apply tables_wf_on_table, wf_materialize.
  - apply sound_on_database.
    + apply tables_ok_set_joined_table.
    + apply tables_wf_set_joined_table.
Qed.

(** Executing a query keeps both, at any depth. *)
Lemma sound_execute_query fuel : forall statement,
  query_like statement = true ->
  keeps sound (execute fuel statement).
Proof.
  induction fuel as [|fuel IH]; intros statement Hq.
  - apply keeps_raise. reflexivity.
  - cbn [execute]. unfold keeps.
    eapply triple_bind;
      [apply (triple_lift_outcome sound), tokenize_quiet|intros tokens].
    apply triple_assume. intros Htokens.
    destruct (unterminated tokens); [apply keeps_raise; reflexivity|].
    eapply triple_bind; [apply (triple_lift sound)|intros kind].
    apply triple_assume. intros Hkind.
    unfold query_like in Hq. rewrite Htokens, Hkind in Hq.
    destruct kind; try discriminate; cbn [run_branch].
    + apply keeps_conj; [apply views_execute_join|apply wf_execute_join].
    + apply sound_execute_select. exact IH.
    + apply keeps_ret.
Qed.

End CountsBranches.

Lemma execute_counts_kept :
  forall (fuel : nat) (statement : string) (st : Connection.state),
    views_ok (Connection.globals st) ->
    world_wf (Connection.globals st) ->
    world_wf (Connection.globals (snd (Connection.execute fuel statement st))).
Proof.
  intros fuel statement st Hv Hw. destruct fuel as [|fuel]; [exact Hw|].
  rewrite execute_step.
  destruct (tokenize statement) as [tokens|e]; [|exact Hw].
  destruct (Connection.unterminated tokens); [exact Hw|].
  destruct (Connection.classify tokens) as [kind|e]; [|exact Hw].
  assert (Hk : forall (m : M Connection.state Connection.rows_result),
            keeps state_wf m ->
            world_wf (Connection.globals (snd (m st)))).
  { intros m Hm. specialize (Hm st Hw).
    destruct (m st) as [[a|e] s']; simpl; [exact Hm|apply Hm]. }
  assert (Hs : forall (m : M Connection.state Connection.rows_result),
            keeps sound m ->
            world_wf (Connection.globals (snd (m st)))).
  { intros m Hm. specialize (Hm st (conj Hv Hw)).
    destruct (m st) as [[a|e] s']; simpl; [apply Hm|apply Hm]. }
  destruct kind; cbn [Connection.run_branch].
  - rewrite execute_begin_unfold.
    destruct (Connection.transaction_mode (Connection.self st)); [exact Hw|].
    destruct (py_index tokens 1) as [m|e]; [|exact Hw].
    repeat match goal with
           | |- context [if ?c then _ else _] => destruct c
           end;
      try exact Hw;
      (apply Hk, keeps_begin_with;
       auto using wf_set_transaction_lock, wf_set_transaction_mode,
         wf_set_database, wf_deepcopy, wf_on_lock_system).
  - rewrite execute_commit_unfold.
    destruct (Connection.transaction_mode (Connection.self st)); [|exact Hw].
    apply Hk, keeps_commit_transaction;
      auto using wf_set_transaction_lock, wf_set_transaction_mode,
        wf_set_database, wf_on_lock_system, wf_publish.
  - rewrite execute_rollback_unfold.
    destruct (Connection.transaction_mode (Connection.self st)); [|exact Hw].
    apply Hk, keeps_rollback_transaction;
      auto using wf_set_transaction_lock, wf_set_transaction_mode,
        wf_set_database, wf_on_lock_system.
  - apply Hk, wf_execute_create_table.
  - apply Hs, sound_execute_create_view, sound_execute_query.
  - apply Hk, wf_execute_drop_table.
  - apply Hk, wf_execute_insert.
  - apply Hk, wf_execute_delete.
  - apply Hk, wf_execute_update.
  - apply Hk, wf_execute_join.
  - apply Hs, sound_execute_select, sound_execute_query.
  - exact Hw.
Qed.

Lemma empty_world_wf : world_wf empty_world.
Proof. intros r key table Hin. destruct Hin. Qed.

Lemma connect_wf filename w :
  world_wf w -> world_wf (Connection.globals (connect filename None w)).
Proof.
  intros Hw. unfold connect, Connection.init. cbn.
  destruct (ALL_DATABASES w !! filename); cbn; [exact Hw|].
  intros r. cbn. unfold store_set.
  destruct (Nat.eqb r (database_count w)); [|apply Hw].
  intros key table Hin. destruct Hin.
Qed.

(** So they are right on a connection to a new file, whatever has been
    executed. *)
Lemma session_wf fuel statements :
  world_wf (Connection.globals (execute_all fuel statements fresh_connection)).
Proof.
  assert (G : forall st,
            views_ok (Connection.globals st) ->
            world_wf (Connection.globals st) ->
            world_wf (Connection.globals (execute_all fuel statements st))).
  { unfold execute_all.
    induction statements as [|statement statements IH]; intros st Hv Hw;
      [exact Hw|].
    cbn [fold_left]. apply IH.
    - apply execute_views_ok. exact Hv.
    - apply execute_counts_kept; assumption. }
  apply G.
  - exact fresh_connection_views_ok.
  - apply connect_wf, empty_world_wf.
Qed.

(** X5. Whatever a connection executes, in every database object every table
    still records the number of its columns and of its rows, and no row
    has more cells than its table has columns; the views are taken to
    store queries, which [execute] keeps true as well. *)
Theorem execute_keeps_counts :
  forall (fuel : nat) (statement : string) (st : Connection.state),
    views_ok (Connection.globals st) ->
    world_wf (Connection.globals st) ->
    world_wf (Connection.globals (snd (Connection.execute fuel statement st))).
Proof. exact execute_counts_kept. Qed.

Lemma execute_keeps_counts_witness :
  world_wf
    (Connection.globals
       (snd (Connection.execute 3 "INSERT INTO t VALUES (2, 3), (4);"
               one_table_connection))).
Proof.
  apply (execute_keeps_counts 3 "INSERT INTO t VALUES (2, 3), (4);"
           one_table_connection).
  - exact one_table_connection_views_ok.
  - exact (session_wf 3 _).
Defined.

(** ** What the statements other than BEGIN, COMMIT and ROLLBACK keep *)

(** A statement that is BEGIN ... TRANSACTION, COMMIT TRANSACTION or
    ROLLBACK TRANSACTION, by its tokens. *)
Definition controls_transaction (statement : string) : bool :=
  match tokenize statement with
  | Raise _ => false
  | Ok tokens =>
      negb (Connection.unterminated tokens) &&
      (begins tokens || commits tokens || rolls_back tokens)
  end.

(** One that is COMMIT TRANSACTION or ROLLBACK TRANSACTION. *)
Definition ends_transaction (statement : string) : bool :=
  match tokenize statement with
  | Raise _ => false
  | Ok tokens =>
      negb (Connection.unterminated tokens) &&
      (commits tokens || rolls_back tokens)
  end.

Section Statements.
Import Connection.

(** An invariant [J] that tells that the views store queries, and that
    the lock checks keep, as do the writes to the database object of the
    connection that leave it views that store queries. *)
Variable J : state -> Prop.
Hypothesis J_views : forall s, J s -> views_hold s.
Hypothesis J_lock_check : forall act, keeps J (lock_check act).
Hypothesis J_in_autocommit : forall act, keeps J (in_autocommit act).
Hypothesis J_on_database :
  forall (A : Type) (m : M Database.t A),
    keeps tables_ok m -> keeps J (on_database m).

Lemma kept_database_method (f : Database.t -> res Database.t) :
  (forall db db', tables_ok db -> f db = Ok db' -> tables_ok db') ->
  keeps J (database_method f).
Proof.
  intros Hf. unfold database_method. apply J_on_database.
  intros db Hdb. destruct (f db) as [db'|e] eqn:E; simpl.
  - eapply Hf; eauto.
  - split; [exact Hdb|reflexivity].
Qed.

Ltac kept_step :=
  match goal with
  | |- keeps _ (bind _ _) => apply keeps_bind; [|intros ?]
  | |- keeps _ (ret _) => apply keeps_ret
  | |- keeps _ (lift _) => apply keeps_lift
  | |- keeps _ (raise _) => apply keeps_raise; reflexivity
  | |- keeps _ (lock_check _) => apply J_lock_check
  | |- keeps _ (in_autocommit _) => apply J_in_autocommit
  | |- keeps _ (table_exists _) => apply keeps_table_exists
  | |- keeps _ (get_table _) => apply keeps_get_table
  | |- keeps _ get_database => apply keeps_get_database
  | |- keeps _ (if ?c then _ else _) => destruct c
  | |- keeps _ (match ?x with _ => _ end) => destruct x
  | |- keeps _ (let '(_, _) := ?x in _) => destruct x
  end.

Lemma kept_execute_create_table tokens :
  keeps J (execute_create_table tokens).
Proof.
  unfold execute_create_table. repeat kept_step.
  apply kept_database_method. intros db db' Hdb.
  apply tables_ok_add_table. exact Hdb.
Qed.

Lemma kept_execute_drop_table tokens : keeps J (execute_drop_table tokens).
Proof.
  unfold execute_drop_table. repeat kept_step.
  apply kept_database_method. intros db db' Hdb.
  apply tables_ok_remove_table. exact Hdb.
Qed.

Lemma kept_execute_insert tokens : keeps J (execute_insert tokens).
Proof.
  unfold execute_insert. repeat kept_step.
  apply J_on_database, tables_on_table. intros v.
  apply viewing_insert_into.
Qed.

Lemma kept_execute_delete tokens : keeps J (execute_delete tokens).
Proof.
  unfold execute_delete. repeat kept_step;
    apply J_on_database, tables_on_table; intros v;
    apply viewing_delete_from.
Qed.

Lemma kept_execute_update tokens : keeps J (execute_update tokens).
Proof.
  unfold execute_update. repeat kept_step.
  apply J_on_database, tables_on_table. intros v.
  apply viewing_update_with.
Qed.

Lemma kept_execute_join tokens : keeps J (execute_join tokens).
Proof.
  unfold execute_join. repeat kept_step.
  apply J_on_database, tables_ok_set_joined_table.
Qed.

Lemma kept_execute_select execute_rec tokens :
  (forall statement,
     query_like statement = true -> keeps J (execute_rec statement)) ->
  keeps J (execute_select execute_rec tokens).
Proof.
  intros Hrec. unfold execute_select.
  apply keeps_bind; [apply J_lock_check|intros _].
  apply keeps_bind; [apply keeps_lift|intros from_keyword].
  apply keeps_bind; [apply keeps_lift|intros table_name].
  unfold keeps.
  eapply triple_bind;
    [apply (triple_get_table J J table_name); auto|intros table].
  eapply triple_weaken with (P' := fun s => table_ok table /\ J s);
    [apply triple_assume; intros Ht
    |intros s [Hv Hget]; split; [|exact Hv]
    |intros a s H; exact H|intros e s H; exact H].
  2: { intros attrs Hview. eapply views_get_table; eauto. }
  apply keeps_bind; [|intros table'; repeat kept_step].
  destruct (Table.view table) as [attrs|] eqn:Eview; [|apply keeps_ret].
  apply keeps_bind; [apply Hrec, Ht; exact Eview|intros result].
  unfold keeps.
  eapply triple_bind; [apply (triple_lift J)|intros new_view].
  apply triple_assume. intros Einit.
  eapply triple_bind;
    [apply (triple_lift_outcome J), materialize_quiet|intros filled].
  apply triple_assume. intros Efill.
  assert (Hfilled : table_ok filled).
  { eapply materialize_table_ok; [|exact Efill].
    eapply view_init_ok; [|exact Einit]. apply Ht. exact Eview. }
  apply keeps_bind; [|intros _; apply keeps_ret].
  apply J_on_database, keeps_modify. intros db Hdb.
  apply tables_ok_set_table; assumption.
Qed.

Lemma kept_execute_create_view execute_rec statement tokens :
  (forall statement,
     query_like statement = true -> keeps J (execute_rec statement)) ->
  keeps J (execute_create_view execute_rec statement tokens).
Proof.
  intros Hrec. unfold execute_create_view.
  pose proof (Hrec _ (view_statement_query_like statement)) as Hview.
  repeat kept_step; try exact Hview.
  - apply kept_database_method. intros db db' Hdb.
    apply tables_ok_add_view; [apply view_statement_query_like|exact Hdb].
  - apply J_on_database, tables_on_table. intros v'.
    apply viewing_materialize.
  - apply J_on_database, tables_ok_set_joined_table.
Qed.

(** Executing a query keeps the invariant, at any depth. *)
Lemma kept_execute_query fuel : forall statement,
  query_like statement = true ->
  keeps J (execute fuel statement).
Proof.
  induction fuel as [|fuel IH]; intros statement Hq.
  - apply keeps_raise. reflexivity.
  - cbn [execute]. unfold keeps.
    eapply triple_bind;
      [apply (triple_lift_outcome J), tokenize_quiet|intros tokens].
    apply triple_assume. intros Htokens.
    destruct (unterminated tokens); [apply keeps_raise; reflexivity|].
    eapply triple_bind; [apply (triple_lift J)|intros kind].
    apply triple_assume. intros Hkind.
    unfold query_like in Hq. rewrite Htokens, Hkind in Hq.
    destruct kind; try discriminate; cbn [run_branch].
    + apply kept_execute_join.
    + apply kept_execute_select. exact IH.
    + apply keeps_ret.
Qed.

(** So does every branch but those of BEGIN, COMMIT and ROLLBACK. *)
Lemma kept_run_branch fuel statement tokens kind :
  match kind with KBegin | KCommit | KRollback => False | _ => True end ->
  keeps J (run_branch (execute fuel) statement tokens kind).
Proof.
  intros Hkind. destruct kind; try contradiction; cbn [run_branch].
  - apply kept_execute_create_table.
  - apply kept_execute_create_view, kept_execute_query.
  - apply kept_execute_drop_table.
  - apply kept_execute_insert.
  - apply kept_execute_delete.
  - apply kept_execute_update.
  - apply kept_execute_join.
  - apply kept_execute_select, kept_execute_query.
  - apply keeps_ret.
Qed.

(** And so does every statement but those three. *)
Lemma kept_execute fuel statement :
  controls_transaction statement = false ->
  keeps J (execute fuel statement).
Proof.
  intros Hc s Hs. destruct fuel as [|fuel]; [simpl; auto|].
  rewrite execute_step. unfold controls_transaction in Hc.
  destruct (tokenize statement) as [tokens|e] eqn:Et.
  2: { pose proof (tokenize_quiet statement) as Hq. rewrite Et in Hq.
       simpl. auto. }
  destruct (unterminated tokens); [simpl; auto|]. cbn [negb andb] in Hc.
  pose proof (classify_control tokens) as Hk.
  destruct (classify tokens) as [kind|e]; [|simpl; auto].
  apply kept_run_branch; [|exact Hs].
  destruct kind; try exact Logic.I; exfalso.
  - rewrite Hk in Hc. discriminate.
  - destruct Hk as [H1 H2]. rewrite H1, H2 in Hc. discriminate.
  - destruct Hk as (H1 & H2 & H3). rewrite H1, H2, H3 in Hc. discriminate.
Qed.

End Statements.

(** ** Within a transaction *)

(** What a statement within a transaction leaves as it was in [s0]: the
    connection but for the lock that it remembers, the registries, the
    number of the objects, every database object but the one the
    connection works on, and every lock system but its own. *)
Definition same_but_own (s0 s : Connection.state) : Prop :=
  Connection.filename (Connection.self s)
  = Connection.filename (Connection.self s0) /\
  Connection.database (Connection.self s)
  = Connection.database (Connection.self s0) /\
  Connection.transaction_mode (Connection.self s)
  = Connection.transaction_mode (Connection.self s0) /\
  Connection.lock_system (Connection.self s)
  = Connection.lock_system (Connection.self s0) /\
  ALL_DATABASES (Connection.globals s)
  = ALL_DATABASES (Connection.globals s0) /\
  ALL_DATABASES_LOCKSYSTEMS (Connection.globals s)
  = ALL_DATABASES_LOCKSYSTEMS (Connection.globals s0) /\
  database_count (Connection.globals s)
  = database_count (Connection.globals s0) /\
  locksystem_count (Connection.globals s)
  = locksystem_count (Connection.globals s0) /\
  (forall r, r <> Connection.database (Connection.self s0) ->
     database_objects (Connection.globals s) r
     = database_objects (Connection.globals s0) r) /\
  (forall r, r <> Connection.lock_system (Connection.self s0) ->
     locksystem_objects (Connection.globals s) r
     = locksystem_objects (Connection.globals s0) r).

Lemma same_but_own_refl s : same_but_own s s.
Proof. unfold same_but_own. repeat split; reflexivity. Qed.

Lemma same_but_own_trans s0 s1 s2 :
  same_but_own s0 s1 -> same_but_own s1 s2 -> same_but_own s0 s2.
Proof.
  unfold same_but_own.
  intros (F1 & D1 & M1 & L1 & R1 & RL1 & C1 & CL1 & O1 & OL1)
         (F2 & D2 & M2 & L2 & R2 & RL2 & C2 & CL2 & O2 & OL2).
  rewrite D1 in O2. rewrite L1 in OL2.
  repeat split; try congruence.
  - intros r Hr. rewrite O2, O1; auto.
  - intros r Hr. rewrite OL2, OL1; auto.
Qed.

Section Transaction.
Import Connection.

(** The state [s0] is within a transaction. *)
Variable s0 : state.
Hypothesis s0_transaction : transaction_mode (self s0) <> None.

Definition framed : state -> Prop := same_but_own s0.

Lemma framed_set_transaction_lock l : keeps framed (set_transaction_lock l).
Proof. intros s H. exact H. Qed.

Lemma framed_on_lock_system (A : Type) (m : M LockSystem.t A) :
  keeps anything m -> keeps framed (on_lock_system m).
Proof.
  intros Hm s H. unfold on_lock_system.
  specialize (Hm (locksystem_objects (globals s) (lock_system (self s)))
                Logic.I).
  assert (G : forall ls', framed
                {| self := self s;
                   globals :=
                     {| ALL_DATABASES := ALL_DATABASES (globals s);
                        ALL_DATABASES_LOCKSYSTEMS :=
                          ALL_DATABASES_LOCKSYSTEMS (globals s);
                        database_objects := database_objects (globals s);
                        database_count := database_count (globals s);
                        locksystem_objects :=
                          store_set (locksystem_objects (globals s))
                            (lock_system (self s)) ls';
                        locksystem_count := locksystem_count (globals s) |} |}).
  { intros ls'.
    destruct H as (F1 & D1 & M1 & L1 & R1 & RL1 & C1 & CL1 & O1 & OL1).
    unfold framed, same_but_own. cbn.
    repeat split; try assumption.
    intros r Hr. unfold store_set. rewrite L1.
    destruct (Nat.eqb r (lock_system (self s0))) eqn:E;
      [apply Nat.eqb_eq in E; contradiction|auto]. }
  destruct (m _) as [[a|e] ls']; simpl; [apply G|].
  split; [apply G|apply Hm].
Qed.

Lemma framed_lock_check act : keeps framed (lock_check act).
Proof.
  intros s H. unfold lock_check, bind at 1, get_transaction_mode.
  cbv beta iota. unfold bind at 1, get_transaction_lock. cbv beta iota.
  destruct (transaction_mode (self s)) as [m|] eqn:Em.
  - apply (keeps_lock_transition_tx framed framed_set_transaction_lock
             framed_on_lock_system). exact H.
  - exfalso. apply s0_transaction.
    destruct H as (_ & _ & M1 & _). congruence.
Qed.

Lemma framed_in_autocommit act : keeps framed (in_autocommit act).
Proof.
  unfold in_autocommit.
  apply keeps_bind; [apply keeps_get_transaction_mode|intros tmode].
  destruct tmode; [apply keeps_ret|apply framed_lock_check].
Qed.

(** The views store queries, and the state is as [s0] but for what the
    connection owns. *)
Definition within (s : state) : Prop := views_hold s /\ framed s.

Lemma within_views s : within s -> views_hold s.
Proof. intros [H _]. exact H. Qed.

Lemma within_lock_check act : keeps within (lock_check act).
Proof.
  apply keeps_conj; [apply views_lock_check|apply framed_lock_check].
Qed.

Lemma within_in_autocommit act : keeps within (in_autocommit act).
Proof.
  apply keeps_conj; [apply views_in_autocommit|apply framed_in_autocommit].
Qed.

Lemma within_on_database (A : Type) (m : M Database.t A) :
  keeps tables_ok m -> keeps within (on_database m).
Proof.
  intros Hm s [Hv Hf].
  pose proof (views_on_database m Hm s Hv) as Hviews.
  unfold on_database in *.
  assert (G : forall db', framed
                {| self := self s;
                   globals :=
                     {| ALL_DATABASES := ALL_DATABASES (globals s);
                        ALL_DATABASES_LOCKSYSTEMS :=
                          ALL_DATABASES_LOCKSYSTEMS (globals s);
                        database_objects :=
                          store_set (database_objects (globals s))
                            (database (self s)) db';
                        database_count := database_count (globals s);
                        locksystem_objects := locksystem_objects (globals s);
                        locksystem_count := locksystem_count (globals s) |} |}).
  { intros db'.
    destruct Hf as (F1 & D1 & M1 & L1 & R1 & RL1 & C1 & CL1 & O1 & OL1).
    unfold framed, same_but_own. cbn.
    repeat split; try assumption.
    intros r Hr. unfold store_set. rewrite D1.
    destruct (Nat.eqb r (database (self s0))) eqn:E;
      [apply Nat.eqb_eq in E; contradiction|auto]. }
  destruct (m _) as [[a|e] db']; simpl in *.
  - split; [exact Hviews|apply G].
  - destruct Hviews as [Hviews He]. split; [split|]; auto.
Qed.

(** Within a transaction a statement other than COMMIT and ROLLBACK
    leaves all that as it was. *)
Lemma execute_framed fuel statement :
  views_hold s0 ->
  ends_transaction statement = false ->
  framed (snd (execute fuel statement s0)).
Proof.
  intros Hv Hends.
  destruct (controls_transaction statement) eqn:Hc.
  - (* BEGIN within a transaction raises *)
    destruct fuel as [|fuel]; [apply same_but_own_refl|].
    rewrite execute_step.
    unfold controls_transaction in Hc. unfold ends_transaction in Hends.
    destruct (tokenize statement) as [tokens|e]; [|discriminate].
    destruct (unterminated tokens); [discriminate|].
    cbn [negb andb] in Hc, Hends.
    pose proof (classify_control tokens) as Hk.
    destruct (classify tokens) as [kind|e]; [|apply same_but_own_refl].
    apply orb_false_iff in Hends as [Hcommit Hroll].
    rewrite Hcommit, Hroll, !orb_false_r in Hc.
    destruct kind; try (rewrite (proj1 Hk) in Hc; discriminate).
    cbn [run_branch]. rewrite execute_begin_unfold.
    destruct (transaction_mode (self s0)) eqn:Em;
      [apply same_but_own_refl|contradiction].
  - pose proof (kept_execute within within_views within_lock_check
                  within_in_autocommit within_on_database fuel statement Hc
                  s0 (conj Hv (same_but_own_refl s0))) as H.
    destruct (execute fuel statement s0) as [[a|e] s']; simpl in *;
      [apply H|apply H].
Qed.

End Transaction.

(** X6. Within a transaction, a statement other than COMMIT TRANSACTION
    and ROLLBACK TRANSACTION changes nothing but the database object
    that the connection works on, the lock system of the connection and
    the lock that the connection remembers: the registries, the other
    database objects (the committed one among them), the other lock
    systems, and the file name, database object, transaction mode and
    lock system of the connection are as they were, whether the
    statement returns or raises. *)
Theorem transaction_statement_changes_own_objects_only :
  forall (fuel : nat) (statement : string) (st : Connection.state),
    views_ok (Connection.globals st) ->
    Connection.transaction_mode (Connection.self st) <> None ->
    ends_transaction statement = false ->
    same_but_own st (snd (Connection.execute fuel statement st)).
Proof.
  intros fuel statement st Hv Hm Hends.
  apply execute_framed; assumption.
Qed.

Lemma transaction_statement_changes_own_objects_only_witness :
  same_but_own open_transaction_connection
    (snd (Connection.execute 3 "INSERT INTO t VALUES (2);"
            open_transaction_connection)).
Proof.
  apply (transaction_statement_changes_own_objects_only 3
           "INSERT INTO t VALUES (2);" open_transaction_connection).
  - apply execute_all_views_ok. exact one_table_connection_views_ok.
  - vm_compute. discriminate.
  - vm_compute. reflexivity.
Defined.

(** *** BEGIN, ROLLBACK and COMMIT *)

Lemma names_word tokens i (a b : string) :
  names tokens i a = true -> names tokens i b = String.eqb a b.
Proof.
  unfold names. destruct (py_index tokens i); [|discriminate].
  apply py_eq_word.
Qed.

Lemma classify_begins tokens :
  begins tokens = true -> Connection.classify tokens = Ok Connection.KBegin.
Proof.
  intros H. pose proof (classify_control tokens) as Hk.
  destruct (Connection.classify tokens) as [[]|];
    try reflexivity; rewrite (proj1 Hk) in H; discriminate.
Qed.

Lemma classify_commits tokens :
  commits tokens = true -> Connection.classify tokens = Ok Connection.KCommit.
Proof.
  intros H. pose proof (classify_control tokens) as Hk.
  destruct (Connection.classify tokens) as [[]|];
    try reflexivity;
    try (rewrite (proj1 (proj2 Hk)) in H; discriminate).
  unfold begins, commits in *.
  apply andb_true_iff in H as [H _]. apply andb_true_iff in Hk as [Hk _].
  rewrite (names_word _ _ _ _ H) in Hk. discriminate.
Qed.

Lemma classify_rolls_back tokens :
  rolls_back tokens = true ->
  Connection.classify tokens = Ok Connection.KRollback.
Proof.
  intros H. pose proof (classify_control tokens) as Hk.
  destruct (Connection.classify tokens) as [[]|];
    try reflexivity;
    try (rewrite (proj2 (proj2 Hk)) in H; discriminate).
  - unfold begins, rolls_back in *.
    apply andb_true_iff in H as [H _]. apply andb_true_iff in Hk as [Hk _].
    rewrite (names_word _ _ _ _ H) in Hk. discriminate.
  - destruct Hk as [_ Hk]. unfold commits, rolls_back in *.
    apply andb_true_iff in H as [H _]. apply andb_true_iff in Hk as [Hk _].
    rewrite (names_word _ _ _ _ H) in Hk. discriminate.
Qed.

(** A statement BEGIN ... TRANSACTION with a mode that BEGIN supports. *)
Definition opens_transaction (statement : string) : bool :=
  match tokenize statement with
  | Raise _ => false
  | Ok tokens =>
      negb (Connection.unterminated tokens) &&
      begins tokens && names_supported_mode tokens
  end.

(** A statement ROLLBACK TRANSACTION, and a statement COMMIT
    TRANSACTION. *)
Definition rolls_back_transaction (statement : string) : bool :=
  match tokenize statement with
  | Raise _ => false
  | Ok tokens => negb (Connection.unterminated tokens) && rolls_back tokens
  end.

Definition commits_transaction (statement : string) : bool :=
  match tokenize statement with
  | Raise _ => false
  | Ok tokens => negb (Connection.unterminated tokens) && commits tokens
  end.

(** What BEGIN leaves when the committed database is the object [r0]:
    the connection is within a transaction and works on a new object,
    which holds what [r0] holds. *)
Definition snapshot_of (r0 : nat) (st st' : Connection.state) : Prop :=
  Connection.transaction_mode (Connection.self st') <> None /\
  Connection.filename (Connection.self st')
  = Connection.filename (Connection.self st) /\
  Connection.database (Connection.self st')
  = database_count (Connection.globals st) /\
  database_objects (Connection.globals st')
    (database_count (Connection.globals st))
  = database_objects (Connection.globals st) r0 /\
  ALL_DATABASES (Connection.globals st')
  = ALL_DATABASES (Connection.globals st) /\
  (forall r, (r < database_count (Connection.globals st))%nat ->
     database_objects (Connection.globals st') r
     = database_objects (Connection.globals st) r).

(** [add_lock] writes to the lock system only. *)
Lemma add_lock_leaves lock_type current_lock st :
  let st' := snd (Connection.add_lock lock_type current_lock st) in
  Connection.self st' = Connection.self st /\
  ALL_DATABASES (Connection.globals st')
  = ALL_DATABASES (Connection.globals st) /\
  database_objects (Connection.globals st')
  = database_objects (Connection.globals st) /\
  database_count (Connection.globals st')
  = database_count (Connection.globals st).
Proof.
  unfold Connection.add_lock, Connection.on_lock_system.
  destruct (LockSystem.add_lock _ lock_type current_lock) as [[b ls']|e];
    cbn; auto.
Qed.

Lemma begin_with_snapshot tmode lock_type st r0 :
  ALL_DATABASES (Connection.globals st)
    !! Connection.filename (Connection.self st) = Some r0 ->
  snapshot_of r0 st (snd (Connection.begin_with tmode lock_type st)).
Proof.
  intros Hr.
  assert (Hstore : forall r,
            (r < database_count (Connection.globals st))%nat ->
            store_set (database_objects (Connection.globals st))
              (database_count (Connection.globals st))
              (database_objects (Connection.globals st) r0) r
            = database_objects (Connection.globals st) r).
  { intros r Hlt. unfold store_set.
    destruct (Nat.eqb r (database_count (Connection.globals st))) eqn:E;
      [apply Nat.eqb_eq in E; lia|reflexivity]. }
  assert (Hnew : store_set (database_objects (Connection.globals st))
                   (database_count (Connection.globals st))
                   (database_objects (Connection.globals st) r0)
                   (database_count (Connection.globals st))
                 = database_objects (Connection.globals st) r0).
  { unfold store_set. rewrite Nat.eqb_refl. reflexivity. }
  unfold Connection.begin_with, bind, Connection.committed_database.
  rewrite Hr. cbn.
  destruct lock_type as [l|].
  - cbn.
    match goal with
    | |- context [Connection.add_lock l None ?s] =>
        pose proof (add_lock_leaves l None s) as H;
        destruct (Connection.add_lock l None s) as [[[|]|e] s1]
    end;
      cbn in H; destruct H as (Hs & Hreg & Hobj & Hcount);
      unfold snapshot_of; cbn; rewrite ?Hs, ?Hreg, ?Hobj; cbn;
      (split; [discriminate|]); repeat split; auto.
  - cbn. split; [discriminate|]. repeat split; auto.
Qed.

Lemma execute_all_framed fuel statements : forall st,
  views_ok (Connection.globals st) ->
  Connection.transaction_mode (Connection.self st) <> None ->
  Forall (fun statement => ends_transaction statement = false) statements ->
  same_but_own st (execute_all fuel statements st) /\
  views_ok (Connection.globals (execute_all fuel statements st)).
Proof.
  induction statements as [|statement statements IH]; intros st Hv Hm Hall.
  - split; [apply same_but_own_refl|exact Hv].
  - inversion Hall as [|? ? Hs Hrest]; subst.
    unfold execute_all in *. cbn [fold_left].
    pose proof (execute_framed st Hm fuel statement Hv Hs) as Hf.
    pose proof (execute_views_ok fuel statement st Hv) as Hv'.
    assert (Hm' : Connection.transaction_mode
                    (Connection.self
                       (snd (Connection.execute fuel statement st))) <> None).
    { destruct Hf as (_ & _ & M & _). rewrite M. exact Hm. }
    destruct (IH _ Hv' Hm' Hrest) as [Hf' Hv''].
    split; [|exact Hv''].
    eapply same_but_own_trans; [exact Hf|exact Hf'].
Qed.

Lemma execute_opens fuel opening st r0 :
  opens_transaction opening = true ->
  Connection.transaction_mode (Connection.self st) = None ->
  ALL_DATABASES (Connection.globals st)
    !! Connection.filename (Connection.self st) = Some r0 ->
  snapshot_of r0 st (snd (Connection.execute (S fuel) opening st)).
Proof.
  intros Ho Hm Hr. rewrite execute_step. unfold opens_transaction in Ho.
  destruct (tokenize opening) as [tokens|e]; [|discriminate].
  destruct (Connection.unterminated tokens); [discriminate|].
  cbn [negb andb] in Ho. apply andb_true_iff in Ho as [Hb Hs].
  rewrite (classify_begins _ Hb). cbn [Connection.run_branch].
  rewrite execute_begin_unfold, Hm.
  unfold names_supported_mode in Hs.
  destruct (py_index tokens 1) as [m|e]; [|discriminate].
  unfold supported_mode in Hs.
  destruct (py_eq m (VStr "DEFERRED") || py_eq m (VStr "TRANSACTION")) eqn:E1;
    [apply begin_with_snapshot; exact Hr|].
  destruct (py_eq m (VStr "IMMEDIATE")) eqn:E2;
    [apply begin_with_snapshot; exact Hr|].
  destruct (py_eq m (VStr "EXCLUSIVE")) eqn:E3;
    [apply begin_with_snapshot; exact Hr|].
  cbn in Hs. discriminate.
Qed.

Lemma execute_rolls_back fuel closing st :
  rolls_back_transaction closing = true ->
  Connection.transaction_mode (Connection.self st) <> None ->
  Connection.execute (S fuel) closing st = Connection.rollback_transaction st.
Proof.
  intros Hc Hm. rewrite execute_step. unfold rolls_back_transaction in Hc.
  destruct (tokenize closing) as [tokens|e]; [|discriminate].
  destruct (Connection.unterminated tokens); [discriminate|].
  cbn [negb andb] in Hc.
  rewrite (classify_rolls_back _ Hc). cbn [Connection.run_branch].
  rewrite execute_rollback_unfold.
  destruct (Connection.transaction_mode (Connection.self st));
    [reflexivity|contradiction].
Qed.

Lemma execute_commits fuel closing st :
  commits_transaction closing = true ->
  Connection.transaction_mode (Connection.self st) <> None ->
  Connection.execute (S fuel) closing st = Connection.commit_transaction st.
Proof.
  intros Hc Hm. rewrite execute_step. unfold commits_transaction in Hc.
  destruct (tokenize closing) as [tokens|e]; [|discriminate].
  destruct (Connection.unterminated tokens); [discriminate|].
  cbn [negb andb] in Hc.
  rewrite (classify_commits _ Hc). cbn [Connection.run_branch].
  rewrite execute_commit_unfold.
  destruct (Connection.transaction_mode (Connection.self st));
    [reflexivity|contradiction].
Qed.

(** X7. BEGIN with a mode that it supports, in auto-commit mode, puts the
    connection within a transaction on a new database object, which
    holds a copy of the committed one; the objects that existed and the
    registry are as they were.  This is so even when the lock that BEGIN
    IMMEDIATE or BEGIN EXCLUSIVE asks for is refused and the statement
    raises. *)
Theorem begin_works_on_copy :
  forall (fuel : nat) (opening : string) (st : Connection.state) (r0 : nat),
    opens_transaction opening = true ->
    Connection.transaction_mode (Connection.self st) = None ->
    ALL_DATABASES (Connection.globals st)
      !! Connection.filename (Connection.self st) = Some r0 ->
    snapshot_of r0 st (snd (Connection.execute (S fuel) opening st)).
Proof.
  intros fuel opening st r0 Ho Hm Hr.
  apply execute_opens; assumption.
Qed.

Lemma begin_works_on_copy_witness :
  snapshot_of 2 one_table_connection
    (snd (Connection.execute 1 "BEGIN IMMEDIATE TRANSACTION;"
            one_table_connection)).
Proof.
  apply (begin_works_on_copy 0 "BEGIN IMMEDIATE TRANSACTION;"
           one_table_connection 2).
  - vm_compute. reflexivity.
  - vm_compute. reflexivity.
  - vm_compute. reflexivity.
Defined.

(** X8. A transaction that is rolled back leaves no trace in the
    database: after BEGIN, any statements other than COMMIT and ROLLBACK,
    and ROLLBACK, the connection is in auto-commit mode without a lock,
    on the committed database object, and the registry and every
    database object that existed before BEGIN are as they were. *)
Theorem rollback_discards_transaction :
  forall (fuel : nat) (opening closing : string) (statements : list string)
         (st : Connection.state) (r0 : nat),
    views_ok (Connection.globals st) ->
    Connection.transaction_mode (Connection.self st) = None ->
    ALL_DATABASES (Connection.globals st)
      !! Connection.filename (Connection.self st) = Some r0 ->
    opens_transaction opening = true ->
    Forall (fun statement => ends_transaction statement = false) statements ->
    rolls_back_transaction closing = true ->
    let st' :=
      execute_all (S fuel) (opening :: statements ++ [closing]) st in
    Connection.transaction_mode (Connection.self st') = None /\
    Connection.transaction_lock (Connection.self st') = None /\
    Connection.database (Connection.self st') = r0 /\
    ALL_DATABASES (Connection.globals st')
    = ALL_DATABASES (Connection.globals st) /\
    forall r, (r < database_count (Connection.globals st))%nat ->
      database_objects (Connection.globals st') r
      = database_objects (Connection.globals st) r.
Proof.
  intros fuel opening closing statements st r0 Hv Hm Hr Ho Hall Hc.
  unfold execute_all. cbn [fold_left]. rewrite fold_left_app.
  cbn [fold_left].
  set (st1 := snd (Connection.execute (S fuel) opening st)).
  fold (execute_all (S fuel) statements st1).
  set (st2 := execute_all (S fuel) statements st1).
  destruct (execute_opens fuel opening st r0 Ho Hm Hr)
    as (M1 & F1 & D1 & N1 & R1 & O1).
  fold st1 in M1, F1, D1, N1, R1, O1.
  assert (Hv1 : views_ok (Connection.globals st1))
    by (apply execute_views_ok; exact Hv).
  destruct (execute_all_framed (S fuel) statements st1 Hv1 M1 Hall)
    as [(F2 & D2 & M2 & L2 & R2 & RL2 & C2 & CL2 & O2 & OL2) _].
  fold st2 in F2, D2, M2, L2, R2, RL2, C2, CL2, O2, OL2.
  assert (Hm2 : Connection.transaction_mode (Connection.self st2) <> None)
    by (rewrite M2; exact M1).
  rewrite (execute_rolls_back fuel closing st2 Hc Hm2).
  assert (Hr2 : ALL_DATABASES (Connection.globals st2)
                  !! Connection.filename (Connection.self st2) = Some r0)
    by (rewrite R2, F2, R1, F1; exact Hr).
  unfold Connection.rollback_transaction, bind, Connection.get_transaction_lock,
    Connection.remove_lock, Connection.on_lock_system, modify,
    Connection.set_transaction_lock, Connection.set_transaction_mode,
    Connection.committed_database, Connection.set_database, ret.
  cbn. rewrite Hr2. cbn.
  repeat split.
  - rewrite R2, R1. reflexivity.
  - intros r Hlt. rewrite O2, O1; [reflexivity|exact Hlt|].
    rewrite D1. lia.
Qed.

Lemma rollback_discards_transaction_witness :
  let st' :=
    execute_all 3
      ("BEGIN TRANSACTION;"
       :: ["INSERT INTO t VALUES (2);"; "DROP TABLE t;"]
       ++ ["ROLLBACK TRANSACTION;"]) one_table_connection in
  Connection.transaction_mode (Connection.self st') = None /\
  Connection.transaction_lock (Connection.self st') = None /\
  Connection.database (Connection.self st') = 2%nat /\
  ALL_DATABASES (Connection.globals st')
  = ALL_DATABASES (Connection.globals one_table_connection) /\
  forall r,
    (r < database_count (Connection.globals one_table_connection))%nat ->
    database_objects (Connection.globals st') r
    = database_objects (Connection.globals one_table_connection) r.
Proof.
  apply (rollback_discards_transaction 2 "BEGIN TRANSACTION;"
           "ROLLBACK TRANSACTION;"
           ["INSERT INTO t VALUES (2);"; "DROP TABLE t;"]
           one_table_connection 2).
  - exact one_table_connection_views_ok.
  - vm_compute. reflexivity.
  - vm_compute. reflexivity.
  - vm_compute. reflexivity.
  - repeat constructor.
  - vm_compute. reflexivity.
Defined.

(** X9. COMMIT TRANSACTION that returns ends the transaction and writes to
    no database object.  When the connection holds a reserved or an
    exclusive lock it publishes the database object of the transaction:
    the registry entry of the file becomes that object.  When it holds a
    shared lock or none, the registry is left as it is and the connection
    goes back to the committed object. *)
Theorem commit_publishes_under_write_lock :
  forall (fuel : nat) (closing : string) (st : Connection.state)
         (result : Connection.rows_result),
    commits_transaction closing = true ->
    Connection.transaction_mode (Connection.self st) <> None ->
    fst (Connection.execute (S fuel) closing st) = Ok result ->
    let st' := snd (Connection.execute (S fuel) closing st) in
    Connection.transaction_mode (Connection.self st') = None /\
    Connection.transaction_lock (Connection.self st') = None /\
    database_objects (Connection.globals st')
    = database_objects (Connection.globals st) /\
    match Connection.transaction_lock (Connection.self st) with
    | Some LReserved | Some LExclusive =>
        Connection.database (Connection.self st')
        = Connection.database (Connection.self st) /\
        ALL_DATABASES (Connection.globals st')
        = <[Connection.filename (Connection.self st)
            := Connection.database (Connection.self st)]>
            (ALL_DATABASES (Connection.globals st))
    | _ =>
        ALL_DATABASES (Connection.globals st')
        = ALL_DATABASES (Connection.globals st) /\
        ALL_DATABASES (Connection.globals st)
          !! Connection.filename (Connection.self st)
        = Some (Connection.database (Connection.self st'))
    end.
Proof.
  intros fuel closing st result Hc Hm.
  rewrite (execute_commits fuel closing st Hc Hm).
  unfold Connection.commit_transaction, bind, Connection.get_transaction_lock.
  destruct (Connection.transaction_lock (Connection.self st)) as [[| |]|]
    eqn:Eheld.
  - (* shared *)
    unfold Connection.remove_lock, Connection.on_lock_system, modify,
      Connection.set_transaction_lock, Connection.set_transaction_mode,
      Connection.committed_database, Connection.set_database, ret.
    cbn.
    destruct (ALL_DATABASES (Connection.globals st)
                !! Connection.filename (Connection.self st)) as [r|];
      cbn; [|discriminate].
    intros _. repeat split.
  - (* reserved *)
    match goal with
    | |- context [Connection.add_lock ?l ?c ?s] =>
        pose proof (add_lock_leaves l c s) as H;
        pose proof (anything_add_lock l c s Logic.I) as Hq;
        destruct (Connection.add_lock l c s) as [[[|]|e] s1] eqn:E
    end.
    + cbn in H. destruct H as (Hs & Hreg & Hobj & Hcount).
      unfold Connection.when, Connection.remove_lock,
        Connection.on_lock_system, modify, Connection.set_transaction_lock,
        Connection.set_transaction_mode, Connection.publish_database, bind,
        ret.
      cbn. rewrite Hs, Hreg, Hobj. cbn. intros _. repeat split.
    + exfalso.
      unfold Connection.add_lock, Connection.on_lock_system in E.
      destruct (LockSystem.add_lock _ LExclusive (Some LReserved))
        as [[b ls']|e] eqn:E'; [|discriminate].
      apply add_lock_true in E'. inversion E; subst. discriminate.
    + cbn. discriminate.
  - (* exclusive *)
    unfold Connection.remove_lock, Connection.on_lock_system, modify,
      Connection.set_transaction_lock, Connection.set_transaction_mode,
      Connection.publish_database, ret.
    cbn. intros _. repeat split.
  - (* no lock *)
    unfold Connection.set_transaction_mode, modify,
      Connection.committed_database, Connection.set_database, ret.
    cbn.
    destruct (ALL_DATABASES (Connection.globals st)
                !! Connection.filename (Connection.self st)) as [r|];
      cbn; [|discriminate].
    intros _. repeat split. exact Eheld.
Qed.

(** A connection that has written within a transaction, and so holds a
    reserved lock. *)
Definition written_transaction_connection : Connection.state :=
  execute_all 3 ["INSERT INTO t VALUES (2);"] open_transaction_connection.

Lemma commit_publishes_under_write_lock_witness :
  let st := written_transaction_connection in
  let st' := snd (Connection.execute 1 "COMMIT TRANSACTION;" st) in
  Connection.transaction_mode (Connection.self st') = None /\
  Connection.transaction_lock (Connection.self st') = None /\
  database_objects (Connection.globals st')
  = database_objects (Connection.globals st) /\
  match Connection.transaction_lock (Connection.self st) with
  | Some LReserved | Some LExclusive =>
      Connection.database (Connection.self st')
      = Connection.database (Connection.self st) /\
      ALL_DATABASES (Connection.globals st')
      = <[Connection.filename (Connection.self st)
          := Connection.database (Connection.self st)]>
          (ALL_DATABASES (Connection.globals st))
  | _ =>
      ALL_DATABASES (Connection.globals st')
      = ALL_DATABASES (Connection.globals st) /\
      ALL_DATABASES (Connection.globals st)
        !! Connection.filename (Connection.self st)
      = Some (Connection.database (Connection.self st'))
  end.
Proof.
  apply (commit_publishes_under_write_lock 0 "COMMIT TRANSACTION;"
           written_transaction_connection None).
  - vm_compute. reflexivity.
  - vm_compute. discriminate.
  - vm_compute. reflexivity.
Defined.

(** ** SELECT *)

(** The records as tuples, without the empty ones. *)
Definition tuples_of (records : list (list value)) : list value :=
  map VTuple
    (List.filter (fun record => negb (Nat.eqb (List.length record) 0))
       records).

Lemma matching_rows_all table rows op val :
  Connection.matching_rows table rows None op val = Ok (map Row.data rows).
Proof.
  induction rows as [|row rows IH]; [reflexivity|].
  cbn [Connection.matching_rows map res_bind]. rewrite IH. reflexivity.
Qed.

Lemma slim_result_star table records seen :
  Connection.slim_result table None [Connection.Star] records seen
  = Ok (tuples_of records).
Proof.
  revert seen. induction records as [|record records IH]; intros seen;
    [reflexivity|].
  cbn [Connection.slim_result Connection.slim_record Connection.slim_cell
         res_bind app].
  rewrite IH. unfold tuples_of. cbn [List.filter].
  destruct record; reflexivity.
Qed.

(** X10. SELECT * without WHERE, ORDER BY and DISTINCT returns the rows of
    the table in their order, each as a tuple of its cells; a row without
    cells is left out.  (No column of the table is named [*].) *)
Theorem select_star_returns_rows :
  forall (table : Table.t),
    py_in (VStr "*") (Table.column_names table) = false ->
    Connection.select table [VStr "*"] None None None
    = Ok (tuples_of (map Row.data (Table.rows table))).
Proof.
  intros table Hstar. unfold Connection.select.
  cbn [res_bind]. rewrite matching_rows_all. cbn [res_bind].
  cbn [Connection.columns_index_of]. rewrite Hstar.
  cbn. apply slim_result_star.
Qed.

(** A table of two columns with three rows, one of them without cells. *)
Definition three_row_table : Table.t :=
  {| Table.name := VStr "t";
     Table.schema := [(VStr "a", VStr "INTEGER"); (VStr "b", VStr "INTEGER")];
     Table.column_names := [VStr "a"; VStr "b"];
     Table.default_values := [];
     Table.column_size := 2;
     Table.rows :=
       [Row.init [VInt 1; VInt 2]; Row.init []; Row.init [VInt 1; VInt 3]];
     Table.size := 3;
     Table.view := None |}.

Lemma select_star_returns_rows_witness :
  Connection.select three_row_table [VStr "*"] None None None
  = Ok [VTuple [VInt 1; VInt 2]; VTuple [VInt 1; VInt 3]].
Proof. apply (select_star_returns_rows three_row_table). reflexivity. Defined.

Lemma slim_result_nonempty table distinct columns_index :
  forall records seen result,
    Connection.slim_result table distinct columns_index records seen
    = Ok result ->
    Forall (fun t => exists cell cells, t = VTuple (cell :: cells)) result.
Proof.
  induction records as [|record records IH]; intros seen result.
  - cbn. intros [= <-]. constructor.
  - cbn [Connection.slim_result].
    destruct (Connection.slim_record _ _ _ _ _) as [[slimmed seen']|e];
      cbn [res_bind]; [|discriminate].
    destruct (Connection.slim_result _ _ _ records seen') as [rest|e] eqn:E;
      cbn [res_bind]; [|discriminate].
    intros [= <-]. specialize (IH _ _ E).
    destruct slimmed as [|cell cells]; [exact IH|].
    constructor; [eauto|exact IH].
Qed.

(** X11. Whatever the columns, the DISTINCT column, the condition and the
    order, every entry of the result of [select] is a tuple with at least
    one cell. *)
Theorem select_returns_nonempty_tuples :
  forall (table : Table.t) (columns : list value)
         (distinct conditions order : option (list value))
         (result : list value),
    Connection.select table columns distinct conditions order = Ok result ->
    Forall (fun t => exists cell cells, t = VTuple (cell :: cells)) result.
Proof.
  intros table columns distinct conditions order result.
  unfold Connection.select.
  destruct (match conditions with
            | Some ((_ :: _) as c) => condition_op c
            | _ => Ok (VNone, VNone)
            end) as [[op val]|e]; cbn [res_bind]; [|discriminate].
  destruct columns as [|column columns]; [intros [= <-]; constructor|].
  destruct (Connection.matching_rows _ _ _ _ _) as [matched|e];
    cbn [res_bind]; [|discriminate].
  destruct (match order with
            | Some ((_ :: _) as o) => _
            | _ => Ok matched
            end) as [sorted|e]; cbn [res_bind]; [|discriminate].
  destruct (Connection.columns_index_of _ _) as [columns_index|e];
    cbn [res_bind]; [|discriminate].
  apply slim_result_nonempty.
Qed.

(** A table of two columns with two rows that agree on the first. *)
Definition two_row_table : Table.t :=
  {| Table.name := VStr "t";
     Table.schema := [(VStr "a", VStr "INTEGER"); (VStr "b", VStr "INTEGER")];
     Table.column_names := [VStr "a"; VStr "b"];
     Table.default_values := [];
     Table.column_size := 2;
     Table.rows := [Row.init [VInt 1; VInt 2]; Row.init [VInt 1; VInt 3]];
     Table.size := 2;
     Table.view := None |}.

Lemma select_returns_nonempty_tuples_witness :
  Forall (fun t => exists cell cells, t = VTuple (cell :: cells))
    [VTuple [VInt 1]].
Proof.
  apply (select_returns_nonempty_tuples two_row_table
           [VStr "a"] (Some [VStr "a"]) None None).
  vm_compute. reflexivity.
Defined.

(** ** The tokenizer: what it raises *)

(** The exceptions that come out of [tokenize]: [ValueError] from [int]
    and [float] on a malformed number, [IndexError] and [TypeError] from
    the look at the last token before an operator character, and the
    assertion on a character that no branch takes. *)
Definition tokenize_error (e : exn) : Prop :=
  e = Builtin ValueError \/ e = Builtin IndexError \/ e = Builtin TypeError \/
  e = AssertionError "Query didn't get shorter.".

Lemma tokenize_step_errors c rest tokens e :
  tokenize_step c rest tokens = Raise e -> tokenize_error e.
Proof.
  unfold tokenize_step, tokenize_error.
  destruct (char_in c whitespace); [discriminate|].
  destruct (char_in c (ascii_letters ++ "_")); [discriminate|].
  destruct (char_in c "(),;*"); [discriminate|].
  destruct (Ascii.eqb c "'"); [discriminate|].
  destruct (isnumeric c || char_in c "-").
  { destruct (remove_num (String c rest) tokens) as [[q t]|e'] eqn:E;
      [discriminate|].
    apply remove_num_raises in E. subst e'. intros [= <-]. auto. }
  destruct (char_in c "<>=!"); [|intros [= <-]; auto].
  pose proof (tokenize_operator_result c rest tokens) as Hop.
  destruct (tokenize_operator c rest tokens) as [[q t]|e']; [discriminate|].
  intros [= <-]. destruct Hop; subst e'; auto.
Qed.

Lemma tokenize_loop_errors fuel : forall query tokens e,
  (String.length query <= fuel)%nat ->
  tokenize_loop fuel query tokens = Raise e -> tokenize_error e.
Proof.
  induction fuel as [|fuel IH]; intros query tokens e Hlen;
    destruct query as [|c rest]; simpl in *; try discriminate; [lia|].
  destruct (tokenize_step c rest tokens) as [[query' tokens']|e'] eqn:E.
  - apply IH. apply tokenize_step_shorter in E. lia.
  - intros [= <-]. eapply tokenize_step_errors; eauto.
Qed.

(** X12. [tokenize] always ends, and raises nothing but a [ValueError], an
    [IndexError], a [TypeError] or its own assertion: every turn of its
    loop that does not raise makes the query shorter. *)
Theorem tokenize_raises_only :
  forall (query : string) (e : exn),
    tokenize query = Raise e -> tokenize_error e.
Proof.
  intros query e. apply tokenize_loop_errors. lia.
Qed.

Lemma tokenize_raises_only_witness :
  tokenize_error (Builtin IndexError).
Proof.
  apply (tokenize_raises_only "= 1;"). vm_compute. reflexivity.
Defined.

(** ** ORDER BY *)

Lemma sort_keys_records order_indices : forall records keyed,
  Connection.sort_keys order_indices records = Ok keyed ->
  map snd keyed = records.
Proof.
  induction records as [|record records IH]; intros keyed H; simpl in H.
  - injection H as <-. reflexivity.
  - destruct (Connection.sort_key order_indices record) as [k|e];
      [|discriminate].
    destruct (Connection.sort_keys order_indices records) as [rest|e];
      [|discriminate].
    simpl in H. injection H as <-. simpl. f_equal. apply IH. reflexivity.
Qed.

Lemma insert_by_key_permutation x : forall sorted l,
  Connection.insert_by_key x sorted = Ok l -> Permutation (x :: sorted) l.
Proof.
  induction sorted as [|y sorted IH]; intros l H; simpl in H.
  - injection H as <-. reflexivity.
  - destruct (py_ord OpLt (fst y) (fst x)) as [[|]|e]; simpl in H;
      [|injection H as <-; reflexivity|discriminate].
    destruct (Connection.insert_by_key x sorted) as [rest|e];
      [|discriminate].
    simpl in H. injection H as <-.
    rewrite perm_swap. apply perm_skip, IH. reflexivity.
Qed.

Lemma stable_sort_permutation : forall l sorted,
  Connection.stable_sort l = Ok sorted -> Permutation l sorted.
Proof.
  induction l as [|x l IH]; intros sorted H; simpl in H.
  - injection H as <-. reflexivity.
  - destruct (Connection.stable_sort l) as [s|e]; [|discriminate].
    simpl in H. apply insert_by_key_permutation in H.
    rewrite <- H. apply perm_skip, IH. reflexivity.
Qed.

(** [result.sort] keeps the records, each as often as it was there. *)
Lemma sort_records_permutation order_indices rev_order records sorted :
  Connection.sort_records order_indices rev_order records = Ok sorted ->
  Permutation records sorted.
Proof.
  unfold Connection.sort_records. intros H.
  destruct (match order_indices with
            | [_] => Ok tt
            | _ => (_ <- py_index order_indices 0 ;;
                    _ <- py_index order_indices 1 ;; Ok tt)%res
            end) as [[]|e]; [|discriminate].
  simpl in H.
  destruct (Connection.sort_keys order_indices records) as [keyed|e] eqn:Ek;
    [|discriminate].
  simpl in H. apply sort_keys_records in Ek. subst records.
  destruct rev_order.
  - destruct (Connection.stable_sort (rev keyed)) as [s|e] eqn:Es;
      [|discriminate].
    simpl in H. injection H as <-. apply stable_sort_permutation in Es.
    apply Permutation_map. rewrite <- Permutation_rev.
    rewrite <- Es. apply Permutation_rev.
  - destruct (Connection.stable_sort keyed) as [s|e] eqn:Es; [|discriminate].
    simpl in H. injection H as <-. apply stable_sort_permutation in Es.
    apply Permutation_map. exact Es.
Qed.

(** Without DISTINCT the set of the values seen stays as it is, and what
    a record gives does not depend on it. *)
Lemma slim_record_plain table record : forall columns_index acc seen,
  Connection.slim_record table None record columns_index (acc, seen)
  = match Connection.slim_record table None record columns_index (acc, [])
    with
    | Ok (slimmed_record, _) => Ok (slimmed_record, seen)
    | Raise e => Raise e
    end.
Proof.
  induction columns_index as [|index columns_index IH]; intros acc seen;
    simpl; [reflexivity|].
  destruct index as [i|]; simpl.
  - destruct (py_index record i) as [cell|e]; simpl; [|reflexivity].
    rewrite IH. rewrite (IH _ []). reflexivity.
  - rewrite IH. rewrite (IH _ []). reflexivity.
Qed.

Lemma slim_result_step table columns_index record result seen :
  Connection.slim_result table None columns_index (record :: result) seen
  = match Connection.slim_record table None record columns_index ([], [])
    with
    | Ok (slimmed_record, _) =>
        match Connection.slim_result table None columns_index result seen
        with
        | Ok rest => Ok (match slimmed_record with
                         | [] => rest
                         | _ => VTuple slimmed_record :: rest
                         end)
        | Raise e => Raise e
        end
    | Raise e => Raise e
    end.
Proof.
  cbn [Connection.slim_result]. rewrite slim_record_plain.
  destruct (Connection.slim_record table None record columns_index ([], []))
    as [[slimmed_record seen']|e]; reflexivity.
Qed.

Lemma slim_result_permutation table columns_index seen :
  forall result result',
    Permutation result result' ->
    forall slimmed,
      Connection.slim_result table None columns_index result seen
      = Ok slimmed ->
      exists slimmed',
        Connection.slim_result table None columns_index result' seen
        = Ok slimmed' /\
        Permutation slimmed slimmed'.
Proof.
  induction 1 as [|record l l' Hp IH|x y l|l l' l'' H1 IH1 H2 IH2];
    intros slimmed H.
  - exists slimmed. split; [exact H|reflexivity].
  - rewrite slim_result_step in H. rewrite slim_result_step.
    destruct (Connection.slim_record table None record columns_index ([], []))
      as [[slimmed_record seen']|e]; [|discriminate].
    destruct (Connection.slim_result table None columns_index l seen)
      as [rest|e]; [|discriminate].
    destruct (IH rest eq_refl) as (rest' & -> & Hrest).
    injection H as <-. eexists. split; [reflexivity|].
    destruct slimmed_record; [exact Hrest|apply perm_skip, Hrest].
  - rewrite !slim_result_step in H. rewrite !slim_result_step.
    destruct (Connection.slim_record table None x columns_index ([], []))
      as [[sx seen']|e]; [|destruct (Connection.slim_record table None y
                                       columns_index ([], []))
                            as [[sy seen'']|e']; discriminate].
    destruct (Connection.slim_record table None y columns_index ([], []))
      as [[sy seen'']|e]; [|discriminate].
    destruct (Connection.slim_result table None columns_index l seen)
      as [rest|e]; [|discriminate].
    injection H as <-. eexists. split; [reflexivity|].
    destruct sx, sy; try reflexivity. apply perm_swap.
  - destruct (IH1 _ H) as (s1 & E1 & P1).
    destruct (IH2 _ E1) as (s2 & E2 & P2).
    exists s2. split; [exact E2|]. rewrite P1. exact P2.
Qed.

(** X13. ORDER BY only reorders: when [select] returns with an ordering
    and without DISTINCT, it returns without the ordering too, and the two
    results hold the same tuples, each as often as the other. *)
Theorem order_by_only_reorders :
  forall (table : Table.t) (columns : list value)
         (conditions order : option (list value)) (sorted : list value),
    Connection.select table columns None conditions order = Ok sorted ->
    exists plain,
      Connection.select table columns None conditions None = Ok plain /\
      Permutation plain sorted.
Proof.
  intros table columns conditions order sorted H.
  unfold Connection.select in *.
  match type of H with
  | res_bind ?m _ = _ => destruct m as [[op val]|e]; [|discriminate]
  end.
  cbn [res_bind] in *.
  destruct columns as [|column columns];
    [exists sorted; split; [exact H|reflexivity]|].
  destruct (Connection.matching_rows table (Table.rows table) conditions
              op val) as [result|e]; [|discriminate].
  cbn [res_bind] in *.
  destruct order as [[|name order]|];
    try (exists sorted; split; [exact H|reflexivity]).
  destruct (Connection.order_indices_of table (name :: order))
    as [order_indices|e]; [|discriminate].
  cbn [res_bind] in H.
  destruct (Connection.sort_records order_indices
              (py_in (VStr "DESC") (name :: order)) result)
    as [result'|e] eqn:Es; [|discriminate].
  cbn [res_bind] in H. apply sort_records_permutation in Es.
  destruct (Connection.columns_index_of table (column :: columns))
    as [columns_index|e]; [|discriminate].
  cbn [res_bind] in *. symmetry in Es.
  destruct (slim_result_permutation table columns_index [] _ _ Es _ H)
    as (plain & E & P).
  exists plain. split; [exact E|]. symmetry. exact P.
Qed.

Lemma order_by_only_reorders_witness :
  exists plain,
    Connection.select two_row_table [VStr "*"] None None None = Ok plain /\
    Permutation plain [VTuple [VInt 1; VInt 3]; VTuple [VInt 1; VInt 2]].
Proof.
  apply (order_by_only_reorders two_row_table [VStr "*"] None
           (Some [VStr "b"; VStr "DESC"])).
  vm_compute. reflexivity.
Defined.

(** ** UPDATE and DELETE *)

Lemma assign_rows_unmarked table values : forall marks rows (i : nat) row,
  marks !! i = Some false ->
  rows !! i = Some row ->
  snd (Connection.assign_rows table values marks rows) !! i = Some row.
Proof.
  induction marks as [|mark marks IH]; intros rows i row Hm Hr;
    [discriminate|].
  destruct rows as [|first rows]; [discriminate|].
  cbn [Connection.assign_rows].
  destruct i as [|i]; cbn in Hm, Hr.
  - injection Hm as ->. injection Hr as ->.
    destruct (Connection.assign_rows table values marks rows) as [r rows'].
    reflexivity.
  - specialize (IH rows i row Hm Hr).
    destruct mark.
    + destruct (Connection.assign_values table values first) as [[u|e] row'].
      * destruct (Connection.assign_rows table values marks rows)
          as [r rows']. exact IH.
      * exact Hr.
    + destruct (Connection.assign_rows table values marks rows) as [r rows'].
      exact IH.
Qed.

Lemma check_rows_lookup column_name column_index op val :
  forall rows marks (i : nat) row b,
    Connection.check_rows rows column_name column_index op val = Ok marks ->
    rows !! i = Some row ->
    Row.check_row row column_name column_index op val = Ok b ->
    marks !! i = Some b.
Proof.
  induction rows as [|first rows IH]; intros marks i row b Hmarks Hr Hb;
    [discriminate|].
  cbn [Connection.check_rows] in Hmarks.
  destruct (Row.check_row first column_name column_index op val)
    as [b0|e] eqn:E0; [|discriminate].
  cbn [res_bind] in Hmarks.
  destruct (Connection.check_rows rows column_name column_index op val)
    as [rest|e] eqn:Erest; [|discriminate].
  cbn [res_bind] in Hmarks. injection Hmarks as <-.
  destruct i as [|i]; cbn in Hr |- *.
  - injection Hr as ->. congruence.
  - eapply IH; eauto.
Qed.

(** X14. UPDATE ... WHERE leaves every row that fails the condition as it
    is, at its place, also when the update raises on the way: a row for
    which [check_row] answers [False] on the column, the operator and the
    value of the condition is after [update_table] the row it was. *)
Theorem update_table_leaves_other_rows :
  forall (values : option (list (value * value))) (conditions : list value)
         (table : Table.t) (column_name : value) (column_index : Z)
         (op val : value) (i : nat) (row : Row.t),
    py_index conditions 0 = Ok column_name ->
    Table.get_column_index table column_name = Ok column_index ->
    condition_op conditions = Ok (op, val) ->
    Table.rows table !! i = Some row ->
    Row.check_row row column_name column_index op val = Ok false ->
    Table.rows (snd (Connection.update_table values (Some conditions) table))
      !! i = Some row.
Proof.
  intros values conditions table column_name column_index op val i row
    Hname Hindex Hop Hr Hcheck.
  unfold Connection.update_table.
  destruct (Table.size table =? 0); [exact Hr|].
  unfold Connection.condition_marks. rewrite Hname. cbn [res_bind].
  rewrite Hindex. cbn [res_bind]. rewrite Hop. cbn [res_bind fst snd].
  destruct (Connection.check_rows (Table.rows table) column_name column_index
              op val) as [marks|e] eqn:Emarks; [|exact Hr].
  pose proof (check_rows_lookup _ _ _ _ _ _ _ _ _ Emarks Hr Hcheck) as Hm.
  pose proof (assign_rows_unmarked table values marks (Table.rows table)
                i row Hm Hr) as H.
  destruct (Connection.assign_rows table values marks (Table.rows table))
    as [r rows']. exact H.
Qed.

Lemma update_table_leaves_other_rows_witness :
  Table.rows
    (snd (Connection.update_table (Some [(VStr "a", VInt 7)])
            (Some [VStr "b"; VStr "="; VInt 3]) two_row_table))
    !! 0%nat = Some (Row.init [VInt 1; VInt 2]).
Proof.
  apply (update_table_leaves_other_rows (Some [(VStr "a", VInt 7)])
           [VStr "b"; VStr "="; VInt 3] two_row_table (VStr "b") 1
           (VStr "=") (VInt 3) 0).
  - reflexivity.
  - vm_compute. reflexivity.
  - vm_compute. reflexivity.
  - reflexivity.
  - vm_compute. reflexivity.
Defined.

Lemma remove_first_sublist row : forall rows rows',
  Table.remove_first row rows = Some rows' -> sublist rows' rows.
Proof.
  induction rows as [|record rows IH]; intros rows';
    cbn [Table.remove_first]; [discriminate|].
  destruct (Row.eq row record).
  - intros [= <-]. apply sublist_cons. reflexivity.
  - destruct (Table.remove_first row rows) as [l|]; [|discriminate].
    intros [= <-]. apply sublist_skip, IH. reflexivity.
Qed.

Lemma remove_row_sublist table row :
  sublist (Table.rows (Table.remove_row table row)) (Table.rows table).
Proof.
  unfold Table.remove_row.
  destruct (Table.size table =? 0); [reflexivity|].
  destruct (Table.remove_first row (Table.rows table)) as [rows'|] eqn:E;
    [|reflexivity].
  apply remove_first_sublist in E. exact E.
Qed.

Lemma remove_rows_sublist rows : forall table,
  sublist (Table.rows (fold_left Table.remove_row rows table))
    (Table.rows table).
Proof.
  induction rows as [|row rows IH]; intros table; cbn [fold_left];
    [reflexivity|].
  etransitivity; [apply IH|apply remove_row_sublist].
Qed.

(** X15. DELETE leaves rows of the table only, each as it was and in the
    order they had: it neither changes nor moves nor adds a row. *)
Theorem delete_from_leaves_subsequence :
  forall (conditions : option (list value)) (table : Table.t),
    sublist (Table.rows (snd (Connection.delete_from conditions table)))
      (Table.rows table).
Proof.
  intros conditions table. unfold Connection.delete_from.
  destruct (Table.size table =? 0); [reflexivity|].
  destruct conditions as [conditions|]; [|apply sublist_nil_l].
  destruct (Connection.condition_marks table conditions) as [marks|e];
    [|reflexivity].
  apply remove_rows_sublist.
Qed.

(** ** Connections *)

(** X16. A second connection to a file shares the database object and the
    lock system of the first, and registers nothing: whatever the file on
    disk holds by then, it is not read again. *)
Theorem second_connection_shares :
  forall (filename : string) (loaded loaded' : option Database.t)
         (w : world),
    Connection.globals
      (connect filename loaded'
         (Connection.globals (connect filename loaded w)))
    = Connection.globals (connect filename loaded w) /\
    Connection.database
      (Connection.self
         (connect filename loaded'
            (Connection.globals (connect filename loaded w))))
    = Connection.database
        (Connection.self (connect filename loaded w)) /\
    Connection.lock_system
      (Connection.self
         (connect filename loaded'
            (Connection.globals (connect filename loaded w))))
    = Connection.lock_system
        (Connection.self (connect filename loaded w)).
Proof.
  intros filename loaded loaded' w.
  unfold connect, Connection.init.
  destruct (ALL_DATABASES w !! filename) as [r|] eqn:E;
    cbn [Connection.globals Connection.self Connection.database
         Connection.lock_system ALL_DATABASES ALL_DATABASES_LOCKSYSTEMS].
  - rewrite E.
    cbn [Connection.globals Connection.self Connection.database
         Connection.lock_system ALL_DATABASES ALL_DATABASES_LOCKSYSTEMS].
    rewrite ?E. repeat split; reflexivity.
  - rewrite !lookup_insert_eq.
    cbn [Connection.globals Connection.self Connection.database
         Connection.lock_system ALL_DATABASES ALL_DATABASES_LOCKSYSTEMS].
    rewrite ?lookup_insert_eq. repeat split; reflexivity.
Qed.

(** ** LEFT OUTER JOIN *)








